(** * vim2vid: the editor buffer, the layout engine and the typing script

    A shallow embedding of [vim2vid.py] (class [VimVideoGenerator]):

    - [Py]      the Python built-ins the simulator relies on: slices with
                their index clamping, list indexing with [IndexError],
                [list.insert], [str.split], [str.find], [str.startswith],
                [os.path.commonprefix];
    - [Buffer]  the fields [lines], [cursor_row], [cursor_col] and the two
                methods that assign them, [_type_character] and [_backspace];
    - [Layout]  [_wrap_line], the display-line and cursor computation of
                [_draw_content], its auto-scroll rule, [_get_char_color];
    - [Frames]  the frame count of [_add_frame], on binary64 floats;
    - [Typing]  [_type_special_sequence], [_make_mistake],
                [_calculate_pause] and [_type_text], as the sequence of
                calls they make on the buffer and the frame emitter;
    - [Text], [View]  the document as one text with a cursor, and what a
                reader sees of the display lines;
    - [Pixels]  the pixel positions of the drawing methods and of
                [_draw_greeting];
    - [Driver]  [_simulate_typing] and the test of [_render_frame];
    - [Machine] the calls run on the simulator with their frames:
                [_render_frame], [_add_frame] and [_type_text] with the
                exceptions and the loops of the rendering.

    Python integers are modelled by [Z] (positions produced by [enumerate]
    and counters that only count up from 0 by [nat]), strings by lists of
    characters, floats by Rocq's primitive binary64 floats. *)

From Stdlib Require Import ZArith Lia Floats Ascii.
From stdpp Require Import base list strings.

Local Open Scope Z_scope.

(** ** Python built-ins *)

Module Py.

Abbreviation str := (list ascii).

(** A string literal as a list of characters. *)
Definition s (x : string) : str := String.list_ascii_of_string x.

(** The characters ['\n'] and [' ']. *)
Definition newline : ascii := "010"%char.
Definition space : ascii := " "%char.

(** [len(l)] *)
Definition len {A} (l : list A) : Z := Z.of_nat (length l).

(** The bound [k] of a slice [l[:k]] or [l[k:]] of a sequence of length [n]:
    a negative bound counts from the end, and the result is clamped to
    [0 .. n] (the upper clamp is the one of [take] and [drop]). *)
Definition slice_index (n : nat) (k : Z) : nat :=
  Z.to_nat (if k <? 0 then Z.of_nat n + k else k).

(** [l[:k]] *)
Definition slice_to {A} (l : list A) (k : Z) : list A :=
  take (slice_index (length l) k) l.

(** [l[k:]] *)
Definition slice_from {A} (l : list A) (k : Z) : list A :=
  drop (slice_index (length l) k) l.

(** The position that [l[i]] denotes: a negative index counts from the end;
    [None] stands for [IndexError]. *)
Definition index {A} (l : list A) (i : Z) : option nat :=
  let j := if i <? 0 then len l + i else i in
  if (0 <=? j) && (j <? len l) then Some (Z.to_nat j) else None.

(** [l[i]], together with the position read. *)
Definition getitem {A} (l : list A) (i : Z) : option (nat * A) :=
  r ← index l i; x ← l !! r; Some (r, x).

(** [l.insert(i, x)]: the index is clamped like a slice bound. *)
Definition list_insert {A} (l : list A) (i : Z) (x : A) : list A :=
  let n := slice_index (length l) i in take n l ++ x :: drop n l.

(** [t.startswith(p)] *)
Fixpoint startswith (t p : str) : bool :=
  match p, t with
  | [], _ => true
  | _ :: _, [] => false
  | a :: p', b :: t' => bool_decide (a = b) && startswith t' p'
  end.

(** [t.find(p)]: the lowest position at which [p] occurs in [t];
    [None] stands for the result [-1]. *)
Fixpoint find_from (t p : str) (i : nat) : option nat :=
  if startswith t p then Some i
  else match t with
       | [] => None
       | _ :: t' => find_from t' p (S i)
       end.

Definition find (t p : str) : option nat := find_from t p 0.

(** Every position at which [p] occurs in [t], in increasing order. *)
Fixpoint occurrences_from (t p : str) (i : nat) : list nat :=
  (if startswith t p then [i] else []) ++
  match t with
  | [] => []
  | _ :: t' => occurrences_from t' p (S i)
  end.

Definition occurrences (t p : str) : list nat := occurrences_from t p 0.

(** [t.split(sep)] for a one-character separator: every occurrence of the
    separator cuts, so consecutive separators give empty fields and the
    empty string gives one empty field. *)
Fixpoint split (sep : ascii) (t : str) : list str :=
  match t with
  | [] => [[]]
  | c :: t' =>
      if decide (c = sep) then [] :: split sep t'
      else match split sep t' with
           | w :: ws => (c :: w) :: ws
           | [] => [[c]]
           end
  end.

(** [os.path.commonprefix([a, b])]: the longest common prefix, character
    by character. *)
Fixpoint commonprefix (a b : str) : str :=
  match a, b with
  | x :: a', y :: b' => if decide (x = y) then x :: commonprefix a' b' else []
  | _, _ => []
  end.

Inductive exn := IndexError | ZeroDivisionError | ValueError | OverflowError.

(** The result of a computation that assigns no field: a value, an
    exception, or a loop that never ends. *)
Inductive result (A : Type) :=
| Ok (a : A)
| Raise (e : exn)
| Loops.
Arguments Ok {A} a.
Arguments Raise {A} e.
Arguments Loops {A}.

Definition bind {A B} (r : result A) (f : A → result B) : result B :=
  match r with
  | Ok a => f a
  | Raise e => Raise e
  | Loops => Loops
  end.

(** The result of a method that mutates [self]: it returns, or it raises
    and leaves the object as it was mutated up to then. *)
Inductive outcome (S : Type) :=
| Returned (st : S)
| Raised (e : exn) (st : S).
Arguments Returned {S} st.
Arguments Raised {S} e st.

(** Sequencing of two statements: the second runs when the first returned. *)
Definition and_then {S} (o : outcome S) (f : S → outcome S) : outcome S :=
  match o with
  | Returned st => f st
  | Raised e st => Raised e st
  end.

End Py.

Import Py.

(** ** The buffer: [lines], [cursor_row], [cursor_col] *)

Module Buffer.

Record t := mk { lines : list str; cursor_row : Z; cursor_col : Z }.

(** [__init__]: [self.lines = [""]], cursor at (0, 0). *)
Definition initial : t := mk [[]] 0 0.

(** [_type_character(char)] *)
Definition type_character (char : ascii) (b : t) : outcome t :=
  let b :=
    if len (lines b) <=? cursor_row b
    then mk (lines b ++ [[]]) (cursor_row b) (cursor_col b)
    else b in
  match getitem (lines b) (cursor_row b) with
  | None => Raised IndexError b
  | Some (r, line) =>
      if decide (char = newline) then
        let rest := slice_from line (cursor_col b) in
        let lines1 := <[r := slice_to line (cursor_col b)]> (lines b) in
        let row1 := cursor_row b + 1 in
        Returned (mk (list_insert lines1 row1 rest) row1 0)
      else
        Returned
          (mk (<[r := slice_to line (cursor_col b) ++ char :: slice_from line (cursor_col b)]>
                 (lines b))
              (cursor_row b) (cursor_col b + 1))
  end.

(** [_backspace()] *)
Definition backspace (b : t) : outcome t :=
  if 0 <? cursor_col b then
    match getitem (lines b) (cursor_row b) with
    | None => Raised IndexError b
    | Some (r, line) =>
        Returned
          (mk (<[r := slice_to line (cursor_col b - 1) ++ slice_from line (cursor_col b)]>
                 (lines b))
              (cursor_row b) (cursor_col b - 1))
    end
  else if 0 <? cursor_row b then
    match getitem (lines b) (cursor_row b - 1) with
    | None => Raised IndexError b
    | Some (rp, prev_line) =>
        match getitem (lines b) (cursor_row b) with
        | None => Raised IndexError b
        | Some (r, current_line) =>
            Returned
              (mk (delete r (<[rp := prev_line ++ current_line]> (lines b)))
                  (cursor_row b - 1) (len prev_line))
        end
    end
  else Returned b.

(** The contract of the buffer (spec, data model): at least one line, the
    row a valid line index, the column at most the length of that line. *)
Definition valid (b : t) : Prop :=
  1 <= len (lines b) ∧
  0 <= cursor_row b < len (lines b) ∧
  ∃ line, lines b !! Z.to_nat (cursor_row b) = Some line ∧
          0 <= cursor_col b <= len line.

(** The buffer whose cursor stands between [left] and [right] on the line
    below the lines [above]. *)
Definition at_cursor (above : list str) (left right : str) (below : list str) : t :=
  mk (above ++ (left ++ right) :: below) (len above) (len left).

End Buffer.

(** ** The layout engine *)

Module Layout.

(** [if current_line:] *)
Definition nonempty (t : str) : bool :=
  match t with [] => false | _ => true end.

(** The inner loop of [_wrap_line],
    [while len(word) > width: wrapped.append(word[:width]); word = word[width:]],
    run for at most [fuel] iterations; [None] when the condition still
    holds after them. *)
Fixpoint split_long (fuel : nat) (width : Z) (wrapped : list str) (word : str)
  : option (list str * str) :=
  if width <? len word then
    match fuel with
    | O => None
    | S fuel' =>
        split_long fuel' width (wrapped ++ [slice_to word width]) (slice_from word width)
    end
  else Some (wrapped, word).

(** The body of [for word in words], on the pair [(wrapped, current_line)].
    The inner loop gets [len(word)] iterations: enough for every width of
    at least 1 ([split_long_total]), while for a width below 1 the loop
    never ends ([split_long_diverges]). *)
Definition wrap_word (width : Z) (acc : list str * str) (word : str)
  : result (list str * str) :=
  let '(wrapped, current_line) := acc in
  if len current_line + len word + 1 <=? width then
    Ok (wrapped, if nonempty current_line then current_line ++ space :: word else word)
  else
    let wrapped := if nonempty current_line then wrapped ++ [current_line] else wrapped in
    if width <? len word then
      match split_long (length word) width wrapped word with
      | Some acc' => Ok acc'
      | None => Loops
      end
    else Ok (wrapped, word).

Fixpoint wrap_words (width : Z) (acc : list str * str) (words : list str)
  : result (list str * str) :=
  match words with
  | [] => Ok acc
  | word :: words' => bind (wrap_word width acc word) (λ acc', wrap_words width acc' words')
  end.

(** [_wrap_line(text, width)] *)
Definition wrap_line (text : str) (width : Z) : result (list str) :=
  if len text <=? width then Ok [text]
  else
    bind (wrap_words width ([], []) (split space text)) (λ '(wrapped, current_line),
      let wrapped := if nonempty current_line then wrapped ++ [current_line] else wrapped in
      Ok (match wrapped with [] => [[]] | _ => wrapped end)).

(** The search [for j, wrapped_line in enumerate(wrapped)] of
    [_draw_content]: the first segment with
    [char_count + len(wrapped_line) >= cursor_col]; [None] when the loop
    ends without [break]. *)
Fixpoint find_cursor (wrapped : list str) (j : nat) (char_count col : Z)
  : option (nat * Z) :=
  match wrapped with
  | [] => None
  | wrapped_line :: rest =>
      if col <=? char_count + len wrapped_line then Some (j, col - char_count)
      else find_cursor rest (S j) (char_count + len wrapped_line + 1) col
  end.

(** The cursor's display row and column on a wrapped line, [base] display
    lines being above it; the [else] of the loop reads [wrapped[-1]]. *)
Definition locate_cursor (wrapped : list str) (col : Z) (base : Z) : result (Z * Z) :=
  match find_cursor wrapped 0 0 col with
  | Some (j, c) => Ok (base + Z.of_nat j, c)
  | None =>
      match last wrapped with
      | Some w => Ok (base + len wrapped - 1, len w)
      | None => Raise IndexError
      end
  end.

(** The loop [for i, line in enumerate(self.lines)] of [_draw_content] from
    line [i] on: the display lines so far and the cursor's display
    position so far. *)
Fixpoint layout_lines (columns row col : Z) (i : nat) (ls : list str)
    (display_lines : list str) (cur : Z * Z) : result (list str * (Z * Z)) :=
  match ls with
  | [] => Ok (display_lines, cur)
  | line :: ls' =>
      if len line <=? columns - 1 then
        let cur := if Z.of_nat i =? row then (len display_lines, col) else cur in
        layout_lines columns row col (S i) ls' (display_lines ++ [line]) cur
      else
        bind (wrap_line line (columns - 1)) (λ wrapped,
        bind (if Z.of_nat i =? row then locate_cursor wrapped col (len display_lines)
              else Ok cur) (λ cur,
        layout_lines columns row col (S i) ls' (display_lines ++ wrapped) cur))
  end.

(** The first half of [_draw_content]: display lines, cursor display row,
    cursor display column. *)
Definition layout (columns : Z) (b : Buffer.t) : result (list str * (Z * Z)) :=
  layout_lines columns (Buffer.cursor_row b) (Buffer.cursor_col b) 0 (Buffer.lines b)
    [] (0, Buffer.cursor_col b).

(** [(self.config.height - 100) // (self.char_height + 4)] *)
Definition visible_rows (height char_height : Z) : result Z :=
  if char_height + 4 =? 0 then Raise ZeroDivisionError
  else Ok ((height - 100) / (char_height + 4)).

(** The auto-scroll rule of [_draw_content]: the new [scroll_offset]. *)
Definition auto_scroll (cursor_display_row visible scroll_offset : Z) : Z :=
  if scroll_offset + visible <=? cursor_display_row then cursor_display_row - visible + 1
  else if cursor_display_row <? scroll_offset then cursor_display_row
  else scroll_offset.

(** The value of [char_count] when the search of [_draw_content] reaches
    segment [j]: [char_count += len(wrapped_line) + 1] for each segment in
    front, the 1 standing for the space between wrapped words. *)
Fixpoint char_count (wrapped : list str) (j : nat) : Z :=
  match j, wrapped with
  | S j', w :: rest => len w + 1 + char_count rest j'
  | _, _ => 0
  end.

(** Every display line of [wrapped] is at most [width] characters long. *)
Definition fits (width : Z) (wrapped : list str) : Prop :=
  Forall (λ dl, len dl <= width) wrapped.

(** Which configured colour a character is drawn in. *)
Inductive color := ColorText | ColorHighlight | ColorBg.

(** [_get_char_color(line, col)] *)
Fixpoint get_char_color (patterns : list str) (line : str) (col : nat) : color :=
  match patterns with
  | [] => ColorText
  | pattern :: rest =>
      match find line pattern with
      | Some start =>
          if ((start <=? col) && (col <? start + length pattern))%nat then ColorHighlight
          else get_char_color rest line col
      | None => get_char_color rest line col
      end
  end.

(** The test of one pattern in the loop of [_get_char_color]:
    [pattern in line], and [col] within the first occurrence of the pattern
    in the line. *)
Definition pattern_at (pattern line : str) (col : nat) : bool :=
  match find line pattern with
  | Some start => ((start <=? col) && (col <? start + length pattern))%nat
  | None => false
  end.

(** A character drawn on the screen. *)
Record cell := mk_cell { glyph : ascii; fill : color; on_cursor : bool }.

(** A row of the screen: a display line (with or without the cursor block
    after its last character), or the tilde of a row past the content. *)
Inductive drawn_row :=
| TextRow (cells : list cell) (cursor_at_end : bool)
| TildeRow.

Definition cells_of (r : drawn_row) : list cell :=
  match r with
  | TextRow cells _ => cells
  | TildeRow => []
  end.

(** The colours of the characters of a drawn row, left to right. *)
Definition fills (r : drawn_row) : list color := fill <$> cells_of r.

(** [_draw_line_plain(draw, line, y_pos)] *)
Definition draw_line_plain (patterns : list str) (line : str) : drawn_row :=
  TextRow (imap (λ col char, mk_cell char (get_char_color patterns line col) false) line)
          false.

(** [_draw_line_with_cursor(draw, line, cursor_col, y_pos)] *)
Definition draw_line_with_cursor (patterns : list str) (line : str) (cursor_col : Z)
  : drawn_row :=
  TextRow (imap (λ col char,
                   if Z.of_nat col =? cursor_col then mk_cell char ColorBg true
                   else mk_cell char (get_char_color patterns line col) false) line)
          (len line <=? cursor_col).

Inductive mode := NORMAL | INSERT.

(** The loop [for screen_row in range(visible_rows)] of [_draw_content]. *)
Definition draw_row (patterns : list str) (m : mode) (display_lines : list str)
    (cur : Z * Z) (scroll_offset : Z) (screen_row : nat) : result drawn_row :=
  let display_idx := Z.of_nat screen_row + scroll_offset in
  if display_idx <? len display_lines then
    match getitem display_lines display_idx with
    | None => Raise IndexError
    | Some (_, line) =>
        match m with
        | INSERT =>
            if display_idx =? cur.1 then Ok (draw_line_with_cursor patterns line cur.2)
            else Ok (draw_line_plain patterns line)
        | NORMAL => Ok (draw_line_plain patterns line)
        end
    end
  else Ok TildeRow.

Fixpoint draw_rows (patterns : list str) (m : mode) (display_lines : list str)
    (cur : Z * Z) (scroll_offset : Z) (rows : list nat) : result (list drawn_row) :=
  match rows with
  | [] => Ok []
  | r :: rows' =>
      bind (draw_row patterns m display_lines cur scroll_offset r) (λ x,
      bind (draw_rows patterns m display_lines cur scroll_offset rows') (λ xs,
      Ok (x :: xs)))
  end.

(** [_draw_content(draw)]: the new [scroll_offset] and the rows drawn. *)
Definition draw_content (columns height char_height : Z) (patterns : list str)
    (m : mode) (b : Buffer.t) (scroll_offset : Z) : result (Z * list drawn_row) :=
  bind (layout columns b) (λ '(display_lines, cur),
  bind (visible_rows height char_height) (λ visible,
  let scroll_offset := auto_scroll cur.1 visible scroll_offset in
  bind (draw_rows patterns m display_lines cur scroll_offset (seq 0 (Z.to_nat visible)))
       (λ rows, Ok (scroll_offset, rows)))).

End Layout.

(** ** The frame emitter: how many frames one call of [_add_frame] writes *)

Module Frames.

(** The conversion of an [int] operand in [float * int]: the nearest
    binary64 value, ties to even; [OverflowError] when there is none. *)
Definition float_of_int (n : Z) : result float :=
  match binary_normalize prec emax n 0 false with
  | S754_infinity _ => Raise OverflowError
  | x => Ok (SF2Prim x)
  end.

(** The integer part of the finite value [m * 2^e], towards zero. *)
Definition truncate (m : positive) (e : Z) : Z :=
  if 0 <=? e then Z.pos m * 2 ^ e else Z.pos m / 2 ^ (- e).

(** [int(x)] on a float: truncation towards zero; [OverflowError] on an
    infinity, [ValueError] on a NaN. *)
Definition int_of_float (x : float) : result Z :=
  match Prim2SF x with
  | S754_zero _ => Ok 0
  | S754_finite sign m e => Ok (if sign then - truncate m e else truncate m e)
  | S754_infinity _ => Raise OverflowError
  | S754_nan => Raise ValueError
  end.

(** [num_frames = max(1, int(duration * self.config.fps))] *)
Definition num_frames (fps : Z) (duration : float) : result Z :=
  bind (float_of_int fps) (λ f,
  bind (int_of_float (duration * f)%float) (λ n,
  Ok (Z.max 1 n))).

(** [_add_frame(duration)], given the frame that [_render_frame] returned:
    the frames handed to [video_writer.write], in order. *)
Definition add_frame {F} (fps : Z) (frame : F) (duration : float) : result (list F) :=
  bind (num_frames fps duration) (λ n, Ok (replicate (Z.to_nat n) frame)).

(** [n] is the integer part of the float [x], for a finite [x] that is not
    negative: [n <= x < n + 1], the value of [S754_finite false m e] being
    [m * 2^e]. *)
Definition integer_part (x : spec_float) (n : Z) : Prop :=
  match x with
  | S754_zero _ => n = 0
  | S754_finite false m e =>
      (0 <= e → n = Z.pos m * 2 ^ e) ∧
      (e < 0 → n * 2 ^ (- e) <= Z.pos m < (n + 1) * 2 ^ (- e))
  | _ => False
  end.

(** Modelled from the spec: the spec's [round], which the source does not
    use. The integer nearest to the finite value [m * 2^e], a tie going to
    the even neighbour (Python's [round]). *)
Definition round_half_even (m : positive) (e : Z) : Z :=
  if 0 <=? e then Z.pos m * 2 ^ e
  else
    let q := Z.pos m / 2 ^ (- e) in
    let r := Z.pos m mod 2 ^ (- e) in
    match 2 * r ?= 2 ^ (- e) with
    | Lt => q
    | Gt => q + 1
    | Eq => if Z.even q then q else q + 1
    end.

(** Modelled from the spec: [round(x)] on a float. *)
Definition round_float (x : float) : result Z :=
  match Prim2SF x with
  | S754_zero _ => Ok 0
  | S754_finite sign m e => Ok (if sign then - round_half_even m e else round_half_even m e)
  | S754_infinity _ => Raise OverflowError
  | S754_nan => Raise ValueError
  end.

(** Modelled from the spec: ticks to hold a frame
    [= max(1, round(duration × framesPerSecond))]. *)
Definition ticks_spec (fps : Z) (duration : float) : result Z :=
  bind (float_of_int fps) (λ f,
  bind (round_float (duration * f)%float) (λ n,
  Ok (Z.max 1 n))).

End Frames.

(** ** The typing script *)

Module Typing.

(** An entry of [special_sequences]: a two-element list [[typo, correct]],
    or a plain string. *)
Inductive sequence :=
| Pair (typo correct : str)
| Plain (typo : str).

(** The fields of [VideoConfig] that the simulation reads. The dictionary
    [special_sequences] is kept in its iteration order. *)
Record Config := mk_config {
  fps : Z;
  columns : Z;
  height : Z;
  typing_speed_base : float;
  typing_speed_variance : float;
  burst_probability : float;
  burst_speed : float;
  mistake_rate : float;
  correction_pause : float;
  sentence_pause : float;
  punctuation_pause : float;
  space_pause : float;
  newline_pause : float;
  highlight_patterns : list str;
  special_sequences : list (str * sequence)
}.

(** A call that the script makes on the simulator. *)
Inductive call :=
| TypeCharacter (char : ascii)
| Backspace
| AddFrame (duration : float).

(** The effect on the buffer of a call that returns. [_type_character] and
    [_backspace] are the buffer's own methods. [_add_frame] renders the
    buffer and writes frames; of the simulator's fields it assigns only
    [scroll_offset] (in [_draw_content]), so when it returns the buffer is
    as before. Whether it returns is not decided here but in
    [Machine.add_frame]: it raises on a hold duration that gives no frame
    count, and it does not return when [_wrap_line] does not. *)
Definition run_call (c : call) (b : Buffer.t) : outcome Buffer.t :=
  match c with
  | TypeCharacter char => Buffer.type_character char b
  | Backspace => Buffer.backspace b
  | AddFrame _ => Returned b
  end.

Fixpoint run (cs : list call) (b : Buffer.t) : outcome Buffer.t :=
  match cs with
  | [] => Returned b
  | c :: cs' => and_then (run_call c b) (run cs')
  end.

(** The calls of [cs] that act on the buffer: the keystrokes. *)
Fixpoint keys (cs : list call) : list call :=
  match cs with
  | [] => []
  | AddFrame _ :: cs' => keys cs'
  | c :: cs' => c :: keys cs'
  end.

(** The module-level random source, threaded explicitly: the [n]-th draw
    is [random_at n] when it is a [random.random()] and position
    [choice_at n] when it is a [random.choice]. *)
Record rng := mk_rng { random_at : nat → float; choice_at : nat → nat; draws : nat }.

Definition advance (g : rng) : rng :=
  mk_rng (random_at g) (choice_at g) (S (draws g)).

(** [random.random()] *)
Definition random_random (g : rng) : float * rng :=
  (random_at g (draws g), advance g).

(** [random.uniform(a, b)] is [a + (b - a) * random()]. *)
Definition random_uniform (a b : float) (g : rng) : float * rng :=
  let '(u, g) := random_random g in ((a + (b - a) * u)%float, g).

(** [random.choice(seq)] on a string that is not empty. *)
Definition random_choice (seq : str) (g : rng) : ascii * rng :=
  (nth (choice_at g (draws g) `mod` length seq)%nat seq space, advance g).

(** The literals [0.06], [0.15] and [0.1] as the binary64 values Python
    reads them as. *)
Definition f0_06 : float := 0x1.eb851eb851eb8p-5%float.
Definition f0_15 : float := 0x1.3333333333333p-3%float.
Definition f0_1 : float := 0x1.999999999999ap-4%float.

(** [for char in t: self._type_character(char); self._add_frame(d)] *)
Definition type_each (t : str) (d : float) : list call :=
  flat_map (λ char, [TypeCharacter char; AddFrame d]) t.

(** [_type_special_sequence(typo, correct)] *)
Definition type_special_sequence (cfg : Config) (typo correct : str) : list call :=
  type_each typo (typing_speed_base cfg) ++
  [AddFrame (correction_pause cfg)] ++
  concat (replicate (Z.to_nat (len typo - len (commonprefix typo correct)))
                    [Backspace; AddFrame f0_06]) ++
  type_each (slice_from correct (len (commonprefix typo correct))) (typing_speed_base cfg).

(** [_make_mistake()] *)
Definition make_mistake (cfg : Config) (g : rng) : list call * rng :=
  let '(wrong_char, g) := random_choice (s "qwertyuiop") g in
  ([TypeCharacter wrong_char; AddFrame f0_15; AddFrame (correction_pause cfg);
    Backspace; AddFrame f0_1], g).

(** [_calculate_pause(char)] *)
Definition calculate_pause (cfg : Config) (char : ascii) (g : rng) : float * rng :=
  if bool_decide (char ∈ s ".!?") then (sentence_pause cfg, g)
  else if bool_decide (char ∈ s ",;:") then (punctuation_pause cfg, g)
  else if bool_decide (char = space) then (space_pause cfg, g)
  else
    let '(u, g) := random_random g in
    if (u <? burst_probability cfg)%float then (burst_speed cfg, g)
    else
      let base := typing_speed_base cfg in
      let variance := (base * typing_speed_variance cfg)%float in
      let '(x, g) := random_uniform (- variance)%float variance g in
      ((base + x)%float, g).

(** The scan [for pattern, sequence in self.config.special_sequences.items()]
    of [_type_text]: the first entry whose key the rest of the line
    starts with. *)
Fixpoint match_special (table : list (str * sequence)) (rest : str)
  : option (str * sequence) :=
  match table with
  | [] => None
  | (pattern, sequence) :: table' =>
      if startswith rest pattern then Some (pattern, sequence)
      else match_special table' rest
  end.

(** The typo and the correct text of an entry: a plain string is the typo
    and the key is the correct text. *)
Definition typo_correct (pattern : str) (sq : sequence) : str * str :=
  match sq with
  | Pair typo correct => (typo, correct)
  | Plain typo => (typo, pattern)
  end.

(** One iteration of [while char_idx < len(line)] in [_type_text], entered
    at [char_idx < len(line)] with [char = line[char_idx]]: the calls
    made, the next [char_idx], the random source. The counter [char_idx]
    only counts up from 0 and is kept as a natural number. *)
Definition type_step (cfg : Config) (line : str) (char_idx : nat) (char : ascii) (g : rng)
  : list call * nat * rng :=
  match match_special (special_sequences cfg) (drop char_idx line) with
  | Some (pattern, sq) =>
      let '(typo, correct) := typo_correct pattern sq in
      (type_special_sequence cfg typo correct, (char_idx + length pattern)%nat, g)
  | None =>
      let '(pause, g) := calculate_pause cfg char g in
      let '(u, g) := random_random g in
      if (u <? mistake_rate cfg)%float && (5 <? char_idx)%nat then
        let '(mistake, g) := make_mistake cfg g in
        ([TypeCharacter char; AddFrame pause] ++ mistake, S char_idx, g)
      else ([TypeCharacter char; AddFrame pause], S char_idx, g)
  end.

(** The loop [while char_idx < len(line)], for at most [fuel] iterations;
    [Loops] when the condition still holds after them. *)
Fixpoint type_line (fuel : nat) (cfg : Config) (line : str) (char_idx : nat) (g : rng)
  : result (list call * rng) :=
  match line !! char_idx with
  | None => Ok ([], g)
  | Some char =>
      match fuel with
      | O => Loops
      | S fuel' =>
          let '(cs, char_idx', g) := type_step cfg line char_idx char g in
          bind (type_line fuel' cfg line char_idx' g) (λ '(cs', g), Ok (cs ++ cs', g))
      end
  end.

(** The loop [for line_idx, line in enumerate(lines)] of [_type_text].
    Each line gets [len(line)] iterations of its inner loop: enough when
    every iteration advances ([type_line_total]); an iteration that does
    not advance repeats for ever ([type_line_stuck]). *)
Fixpoint type_lines (cfg : Config) (lines : list str) (g : rng) : result (list call * rng) :=
  match lines with
  | [] => Ok ([], g)
  | line :: lines' =>
      bind (type_line (length line) cfg line 0 g) (λ '(cs, g),
      let nl := match lines' with
                | [] => []
                | _ => [TypeCharacter newline; AddFrame (newline_pause cfg)]
                end in
      bind (type_lines cfg lines' g) (λ '(cs', g), Ok (cs ++ nl ++ cs', g)))
  end.

(** [_type_text(text)] as the script of its calls: the calls it makes on
    the simulator, in order, and the random source after them, every call
    taken to return. [Ok] is a script that ends, [Loops] one that does not
    (the condition of a [while] loop stays true). The run of the script on
    the simulator, with the frames rendered between the keystrokes, is
    [Machine.type_text]: whenever that returns, the script has ended and
    the simulator has run it ([machine_type_text_ok]). *)
Definition type_text (cfg : Config) (text : str) (g : rng) : result (list call * rng) :=
  type_lines cfg (split newline text) g.

(** The text that the script means to leave for a line from [char_idx] on:
    every matched key replaced by the correct text of its entry, every other
    character kept. The recursion follows [type_line]. *)
Fixpoint expand (fuel : nat) (table : list (str * sequence)) (line : str) (char_idx : nat)
  : str :=
  match line !! char_idx, fuel with
  | Some char, S fuel' =>
      match match_special table (drop char_idx line) with
      | Some (pattern, sq) =>
          (typo_correct pattern sq).2 ++ expand fuel' table line (char_idx + length pattern)
      | None => char :: expand fuel' table line (S char_idx)
      end
  | _, _ => []
  end.

(** The same for the lines of a text, a newline between two lines. *)
Fixpoint expand_lines (table : list (str * sequence)) (lines : list str) : str :=
  match lines with
  | [] => []
  | line :: lines' =>
      expand (length line) table line 0 ++
      match lines' with
      | [] => []
      | _ => newline :: expand_lines table lines'
      end
  end.

(** A configuration and a random source to run the script on: the typo
    [teh] for [the], one highlight pattern, no mistakes. *)
Definition example_config : Config :=
  mk_config 30 80 720 0.125 0.25 0.125 0.0625 0 0.5 0.5 0.25 0.125 0.25
            [s "TODO"] [(s "teh", Pair (s "teh") (s "the"))].

(** The same with the entry given as a plain string: [hte] is typed for
    the key [teh]. *)
Definition example_config_plain : Config :=
  mk_config 30 80 720 0.125 0.25 0.125 0.0625 0 0.5 0.5 0.25 0.125 0.25
            [s "TODO"] [(s "teh", Plain (s "hte"))].

Definition example_rng : rng := mk_rng (λ _, 0.5%float) (λ n, n) 0.

End Typing.

(** ** The document as one text *)

Module Text.

(** The text in front of the cursor: the lines above it, each with its
    newline, and the part of the cursor's line left of the cursor. *)
Definition before_cursor (b : Buffer.t) : str :=
  concat ((λ line, line ++ [newline]) <$> take (Z.to_nat (Buffer.cursor_row b)) (Buffer.lines b)) ++
  take (Z.to_nat (Buffer.cursor_col b))
       (default [] (Buffer.lines b !! Z.to_nat (Buffer.cursor_row b))).

(** The text behind the cursor: the rest of the cursor's line and the lines
    below it, each after a newline. *)
Definition after_cursor (b : Buffer.t) : str :=
  drop (Z.to_nat (Buffer.cursor_col b))
       (default [] (Buffer.lines b !! Z.to_nat (Buffer.cursor_row b))) ++
  concat ((λ line, newline :: line) <$> drop (S (Z.to_nat (Buffer.cursor_row b))) (Buffer.lines b)).

(** No line holds a newline character. *)
Definition clean (b : Buffer.t) : Prop :=
  Forall (λ line, newline ∉ line) (Buffer.lines b).

(** The buffer with the cursor at the end of the last of [ls]. *)
Definition at_end (ls : list str) : Buffer.t :=
  Buffer.mk ls (len ls - 1) (len (default [] (last ls))).

End Text.

(** ** What a reader sees of the layout *)

Module View.

(** The characters of a text that are not spaces, in order. *)
Definition nonspace (t : str) : str := filter (λ c, c ≠ space) t.

(** [sep.join(ls)] *)
Fixpoint join (sep : ascii) (ls : list str) : str :=
  match ls with
  | [] => []
  | l :: ls' =>
      match ls' with
      | [] => l
      | _ => l ++ sep :: join sep ls'
      end
  end.

(** [laid t segs]: the display lines [segs] lie in the text [t] one after
    the other, each as a piece of [t], with nothing but spaces in front of
    them, between them and behind them. *)
Inductive laid : str → list str → Prop :=
| laid_end (gap : str) :
    Forall (λ c, c = space) gap → laid gap []
| laid_seg (gap seg t : str) (segs : list str) :
    Forall (λ c, c = space) gap → laid t segs → laid (gap ++ seg ++ t) (seg :: segs).

(** What the display lines hold in front of the cursor's display
    position: the display lines above its row and its own display line up
    to its column. *)
Definition shown_before (display_lines : list str) (cur : Z * Z) : str :=
  concat (take (Z.to_nat cur.1) display_lines) ++
  take (Z.to_nat cur.2) (default [] (display_lines !! Z.to_nat cur.1)).

(** The characters of a drawn row, left to right. *)
Definition glyphs (r : Layout.drawn_row) : str := Layout.glyph <$> Layout.cells_of r.

(** How many cursor blocks a drawn row holds: the characters drawn on the
    cursor, and the block after the last character. *)
Definition cursor_marks (r : Layout.drawn_row) : nat :=
  match r with
  | Layout.TextRow cells cursor_at_end =>
      (length (filter (λ c, Layout.on_cursor c = true) cells) +
       (if cursor_at_end then 1 else 0))%nat
  | Layout.TildeRow => 0%nat
  end.

End View.

(** ** Pixel positions *)

Module Pixels.

(** [__init__]: the frame width after the auto-adjustment,
    [required_width = columns * char_width + 100], taken when the configured
    width is below it. *)
Definition adjusted_width (width columns char_width : Z) : Z :=
  let required_width := columns * char_width + 100 in
  if width <? required_width then required_width else width.

(** The x positions at which [_draw_line_plain] draws the characters of a
    line: [x_pos] starts at 25 and grows by [char_width] after each
    character. *)
Fixpoint char_xs (char_width x_pos : Z) (line : str) : list Z :=
  match line with
  | [] => []
  | _ :: rest => x_pos :: char_xs char_width (x_pos + char_width) rest
  end.

(** The x positions at which [_draw_line_with_cursor] draws the characters
    of a line, from column [col] at [x_pos] on: the character at
    [cursor_col] at [x_pos + 1], on its rectangle, every other character at
    [x_pos]. *)
Fixpoint char_xs_with_cursor (char_width cursor_col : Z) (col : nat) (x_pos : Z) (line : str)
  : list Z :=
  match line with
  | [] => []
  | _ :: rest =>
      (if Z.of_nat col =? cursor_col then x_pos + 1 else x_pos)
      :: char_xs_with_cursor char_width cursor_col (S col) (x_pos + char_width) rest
  end.

(** The cursor rectangles [(x0, y0, x1, y1)] that [_draw_line_with_cursor]
    fills, from column [col] at [x_pos] on: at the character whose column is
    [cursor_col], and after the loop when [cursor_col >= len(line)]. *)
Fixpoint cursor_rects (char_width char_height cursor_col y_pos : Z) (col : nat) (x_pos : Z)
    (line : str) : list (Z * Z * Z * Z) :=
  let rect := (x_pos, y_pos - 2, x_pos + char_width + 2, y_pos + char_height + 2) in
  match line with
  | [] => if Z.of_nat col <=? cursor_col then [rect] else []
  | _ :: rest =>
      (if Z.of_nat col =? cursor_col then [rect] else []) ++
      cursor_rects char_width char_height cursor_col y_pos (S col) (x_pos + char_width) rest
  end.

(** The y positions of the screen rows of [_draw_content]: [y_pos] starts at
    30 and grows by [char_height + 4] after each row. *)
Fixpoint row_ys (char_height y_pos : Z) (n : nat) : list Z :=
  match n with
  | O => []
  | S n' => y_pos :: row_ys char_height (y_pos + (char_height + 4)) n'
  end.

(** [status_y] of [_draw_status]: the top of the status bar. *)
Definition status_y (height : Z) : Z := height - 60.

(** The loop of [_draw_greeting]: for each greeting line its [y_pos], and
    the [x_center] of its text when the line is not empty. *)
Fixpoint greeting_rows (width char_width char_height y_pos : Z) (welcome_lines : list str)
  : list (Z * option Z) :=
  match welcome_lines with
  | [] => []
  | line :: rest =>
      (y_pos,
       if Layout.nonempty line then Some ((width - len line * char_width) / 2) else None)
      :: greeting_rows width char_width char_height (y_pos + (char_height + 4)) rest
  end.

(** [_draw_greeting(draw)] *)
Definition draw_greeting (width height char_width char_height : Z) (welcome_lines : list str)
  : result (list (Z * option Z)) :=
  bind (Layout.visible_rows height char_height) (λ visible_rows,
  let start_row := (visible_rows - len welcome_lines) / 2 in
  let y_pos := 30 + start_row * (char_height + 4) in
  Ok (greeting_rows width char_width char_height y_pos welcome_lines)).

End Pixels.

(** ** The simulation driver *)

Module Driver.

(** A statement of [_simulate_typing] that acts on the simulator: a call of
    the typing script, an assignment to [self.mode], an assignment to
    [self.command_buffer]. *)
Inductive step :=
| Call (c : Typing.call)
| SetMode (m : Layout.mode)
| SetCommand (command : str).

(** The literals [0.4], [0.2], [0.3] and [0.6] as binary64 values. *)
Definition f0_4 : float := 0x1.999999999999ap-2%float.
Definition f0_2 : float := 0x1.999999999999ap-3%float.
Definition f0_3 : float := 0x1.3333333333333p-2%float.
Definition f0_6 : float := 0x1.3333333333333p-1%float.

Definition quote : ascii := "034"%char.

(** [_simulate_typing(text)]: its statements in order, the calls of
    [_type_text] in the middle. *)
Definition simulate_typing (cfg : Typing.Config) (show_greeting : bool)
    (greeting_duration : float) (filename_in_vim : str) (text : str) (g : Typing.rng)
  : result (list step * Typing.rng) :=
  bind (Typing.type_text cfg text g) (λ '(cs, g),
  Ok ((if show_greeting then [Call (Typing.AddFrame greeting_duration)] else []) ++
      [SetCommand (s ":e " ++ filename_in_vim); Call (Typing.AddFrame f0_4);
       SetCommand []; Call (Typing.AddFrame f0_2);
       SetCommand (s "i"); Call (Typing.AddFrame f0_3);
       SetCommand []; SetMode Layout.INSERT; Call (Typing.AddFrame f0_2)] ++
      (Call <$> cs) ++
      [SetMode Layout.NORMAL; Call (Typing.AddFrame 1);
       SetCommand (s ":w"); Call (Typing.AddFrame f0_6);
       SetCommand (quote :: filename_in_vim ++ quote :: s " written");
       Call (Typing.AddFrame 2)],
      g)).

(** The fields of the simulator that the driver and the script assign. *)
Record sim := mk_sim { buffer : Buffer.t; mode : Layout.mode; command_buffer : str }.

(** [__init__] *)
Definition initial : sim := mk_sim Buffer.initial Layout.NORMAL [].

(** The test of [_render_frame]: the greeting is drawn, and not the content,
    when the document is one empty line and the mode is normal. *)
Definition shows_greeting (st : sim) : bool :=
  bool_decide (Buffer.lines (buffer st) = [[]]) &&
  match mode st with Layout.NORMAL => true | Layout.INSERT => false end.

(** What one call of [_add_frame] renders: the hold duration, whether the
    greeting is drawn, and the state it is drawn from. *)
Record frame := mk_frame { hold : float; greeting : bool; shown : sim }.

(** One statement on the simulator and the frames rendered so far. *)
Definition exec_step (x : step) (st : sim) (frames : list frame)
  : outcome (sim * list frame) :=
  match x with
  | Call (Typing.AddFrame duration) =>
      Returned (st, frames ++ [mk_frame duration (shows_greeting st) st])
  | Call c =>
      match Typing.run_call c (buffer st) with
      | Returned b => Returned (mk_sim b (mode st) (command_buffer st), frames)
      | Raised e b => Raised e (mk_sim b (mode st) (command_buffer st), frames)
      end
  | SetMode m => Returned (mk_sim (buffer st) m (command_buffer st), frames)
  | SetCommand command => Returned (mk_sim (buffer st) (mode st) command, frames)
  end.

Fixpoint exec (xs : list step) (st : sim) (frames : list frame) : outcome (sim * list frame) :=
  match xs with
  | [] => Returned (st, frames)
  | x :: xs' =>
      match exec_step x st frames with
      | Returned (st', frames') => exec xs' st' frames'
      | Raised e r => Raised e r
      end
  end.

End Driver.

(** ** The simulator as it runs: frames included *)

Module Machine.

(** What [_render_frame] and [_add_frame] read besides the simulator's own
    fields: the configuration, the frame width after [__init__], the
    character size of the font, the greeting. *)
Record setup := mk_setup {
  config : Typing.Config;
  width : Z;
  char_width : Z;
  char_height : Z;
  greeting_lines : list str
}.

(** The fields of the simulator that its calls assign: those of the
    driver, and [scroll_offset]. *)
Record state := mk_state { sim : Driver.sim; scroll_offset : Z }.

(** [__init__] *)
Definition initial : state := mk_state Driver.initial 0.

(** The buffer of the simulator. *)
Definition document (st : state) : Buffer.t := Driver.buffer (sim st).

(** What [_render_frame] draws above the status line: the greeting or the
    content. *)
Inductive picture :=
| Greeting (rows : list (Z * option Z))
| Content (rows : list Layout.drawn_row).

(** [_render_frame()]: the picture, and the simulator with the
    [scroll_offset] that [_draw_content] assigns. The status line and the
    command line are drawn from the fields as they are. The calls into the
    imaging libraries are taken to return. *)
Definition render_frame (e : setup) (st : state) : result (state * picture) :=
  if Driver.shows_greeting (sim st) then
    bind (Pixels.draw_greeting (width e) (Typing.height (config e)) (char_width e)
            (char_height e) (greeting_lines e))
         (λ rows, Ok (st, Greeting rows))
  else
    bind (Layout.draw_content (Typing.columns (config e)) (Typing.height (config e))
            (char_height e) (Typing.highlight_patterns (config e))
            (Driver.mode (sim st)) (Driver.buffer (sim st)) (scroll_offset st))
         (λ '(scroll_offset, rows), Ok (mk_state (sim st) scroll_offset, Content rows)).

(** [_add_frame(duration)]: the frame is rendered first, then the number
    of frames is computed and the frame handed to the writer that often.
    The writer is taken to accept every frame. *)
Definition add_frame (e : setup) (duration : float) (st : state)
  : result (state * list picture) :=
  bind (render_frame e st) (λ '(st, frame),
  bind (Frames.add_frame (Typing.fps (config e)) frame duration) (λ written,
  Ok (st, written))).

(** One call of the typing script on the simulator. An exception ends the
    run; the state it leaves is not kept. *)
Definition exec_call (e : setup) (c : Typing.call) (st : state) : result state :=
  match c with
  | Typing.AddFrame duration => bind (add_frame e duration st) (λ '(st, _), Ok st)
  | _ =>
      match Typing.run_call c (Driver.buffer (sim st)) with
      | Returned b =>
          Ok (mk_state (Driver.mk_sim b (Driver.mode (sim st)) (Driver.command_buffer (sim st)))
                       (scroll_offset st))
      | Raised ex _ => Raise ex
      end
  end.

Fixpoint exec (e : setup) (cs : list Typing.call) (st : state) : result state :=
  match cs with
  | [] => Ok st
  | c :: cs' => bind (exec_call e c st) (exec e cs')
  end.

(** Every hold duration of the calls gives a frame count: the product
    [duration * fps] is neither a NaN nor an infinity. *)
Definition counts (e : setup) (cs : list Typing.call) : bool :=
  forallb (λ c, match c with
                | Typing.AddFrame duration =>
                    match Frames.num_frames (Typing.fps (config e)) duration with
                    | Ok _ => true
                    | _ => false
                    end
                | _ => true
                end) cs.

(** The loop [while char_idx < len(line)] of [_type_text] on the simulator,
    for at most [fuel] iterations: the calls of an iteration are run as
    they are made. The random draws of an iteration do not depend on the
    simulator, so they are taken first ([Typing.type_step]). [Loops] when
    the condition still holds after the iterations, or a call never
    returned. *)
Fixpoint type_line (fuel : nat) (e : setup) (line : str) (char_idx : nat) (g : Typing.rng)
    (st : state) : result (state * Typing.rng) :=
  match line !! char_idx with
  | None => Ok (st, g)
  | Some char =>
      match fuel with
      | O => Loops
      | S fuel' =>
          let '(cs, char_idx', g) := Typing.type_step (config e) line char_idx char g in
          bind (exec e cs st) (λ st, type_line fuel' e line char_idx' g st)
      end
  end.

(** The loop [for line_idx, line in enumerate(lines)] of [_type_text] on
    the simulator. Each line gets [len(line)] iterations of its inner
    loop, which decide it: an iteration advances or repeats for ever
    ([type_step_advances], [machine_type_line_fuel]). *)
Fixpoint type_lines (e : setup) (lines : list str) (g : Typing.rng) (st : state)
  : result (state * Typing.rng) :=
  match lines with
  | [] => Ok (st, g)
  | line :: lines' =>
      bind (type_line (length line) e line 0 g st) (λ '(st, g),
      bind (match lines' with
            | [] => Ok st
            | _ => exec e [Typing.TypeCharacter newline;
                           Typing.AddFrame (Typing.newline_pause (config e))] st
            end) (λ st,
      type_lines e lines' g st))
  end.

(** [_type_text(text)] on the simulator. *)
Definition type_text (e : setup) (text : str) (g : Typing.rng) (st : state)
  : result (state * Typing.rng) :=
  type_lines e (split newline text) g st.

End Machine.

(** ** Further configurations to run the script on *)

Module Samples.

(** An empty key as the first special sequence. *)
Definition config_empty_key : Typing.Config :=
  Typing.mk_config 30 80 720 0.125 0.25 0.125 0.0625 0 0.5 0.5 0.25 0.125 0.25 []
                   [([], Typing.Plain (s "x"))].

(** No special sequences, and a mistake after every second character or so:
    [example_rng] draws 0.5 and 0.75 is above it. *)
Definition config_mistakes : Typing.Config :=
  Typing.mk_config 30 80 720 0.125 0.25 0.125 0.0625 0.75 0.5 0.5 0.25 0.125 0.25 [] [].

(** No special sequences, and a correction pause that is not a number. *)
Definition config_nan_pause : Typing.Config :=
  Typing.mk_config 30 80 720 0.125 0.25 0.125 0.0625 0.75 nan 0.5 0.25 0.125 0.25 [] [].

(** An empty key, with a correction pause that is not a number. *)
Definition config_empty_key_nan : Typing.Config :=
  Typing.mk_config 30 80 720 0.125 0.25 0.125 0.0625 0 nan 0.5 0.25 0.125 0.25 []
                   [([], Typing.Plain (s "x"))].

(** A simulator around a configuration: a frame 1220 pixels wide,
    characters of 14 by 16 pixels, a greeting of two lines. *)
Definition setup_of (cfg : Typing.Config) : Machine.setup :=
  Machine.mk_setup cfg 1220 14 16 [s "VIM - Vi IMproved"; []].

(** One column: the width [columns - 1] of the wrapping is 0. *)
Definition config_one_column : Typing.Config :=
  Typing.mk_config 30 1 720 0.125 0.25 0.125 0.0625 0 0.5 0.5 0.25 0.125 0.25 [] [].

(** The simulator when [_type_text] is called: the initial buffer, insert
    mode. *)
Definition typing_state : Machine.state :=
  Machine.mk_state (Driver.mk_sim Buffer.initial Layout.INSERT []) 0.

(** Two entries whose keys overlap in [abc]. *)
Definition config_overlap : Typing.Config :=
  Typing.mk_config 30 80 720 0.125 0.25 0.125 0.0625 0 0.5 0.5 0.25 0.125 0.25 []
                   [(s "ab", Typing.Pair (s "ax") (s "AB"));
                    (s "bc", Typing.Pair (s "bx") (s "BC"))].

(** The entry [teh] behind an entry whose key [t] is a prefix of it. *)
Definition config_shadow : Typing.Config :=
  Typing.mk_config 30 80 720 0.125 0.25 0.125 0.0625 0 0.5 0.5 0.25 0.125 0.25 []
                   [(s "t", Typing.Pair (s "t") (s "T"));
                    (s "teh", Typing.Pair (s "teh") (s "the"))].

End Samples.

(** * Properties *)

(** ** Python built-ins *)

Section PyFacts.

Context {A : Type}.
Implicit Types l k : list A.

Lemma len_app l k : len (l ++ k) = len l + len k.
Proof. unfold len. rewrite length_app. lia. Qed.

Lemma len_cons (x : A) l : len (x :: l) = 1 + len l.
Proof. unfold len. simpl. lia. Qed.

Lemma len_nonneg l : 0 <= len l.
Proof. unfold len. lia. Qed.

Lemma slice_index_nonneg n (i : Z) : 0 <= i → slice_index n i = Z.to_nat i.
Proof. intros H. unfold slice_index. destruct (Z.ltb_spec i 0); [lia | done]. Qed.

Lemma slice_to_len l k : slice_to (l ++ k) (len l) = l.
Proof.
  unfold slice_to. rewrite slice_index_nonneg by apply len_nonneg.
  unfold len. rewrite Nat2Z.id. apply take_app_length.
Qed.

Lemma slice_from_len l k : slice_from (l ++ k) (len l) = k.
Proof.
  unfold slice_from. rewrite slice_index_nonneg by apply len_nonneg.
  unfold len. rewrite Nat2Z.id. apply drop_app_length.
Qed.

Lemma index_in_range l (i : Z) : 0 <= i < len l → index l i = Some (Z.to_nat i).
Proof.
  intros H. unfold index.
  destruct (Z.ltb_spec i 0); [lia |].
  destruct (Z.leb_spec 0 i); [| lia].
  destruct (Z.ltb_spec i (len l)); [done | lia].
Qed.

Lemma index_out_of_range l (i : Z) : len l <= i → index l i = None.
Proof.
  intros H. pose proof (len_nonneg l). unfold index.
  destruct (Z.ltb_spec i 0); [lia |].
  destruct (Z.ltb_spec i (len l)); [lia |].
  by rewrite andb_false_r.
Qed.

Lemma getitem_out_of_range l (i : Z) : len l <= i → getitem l i = None.
Proof. intros H. unfold getitem. by rewrite index_out_of_range. Qed.

Lemma getitem_middle l k (x : A) :
  getitem (l ++ x :: k) (len l) = Some (length l, x).
Proof.
  unfold getitem. rewrite index_in_range.
  - unfold len at 1. rewrite Nat2Z.id. simpl. by rewrite list_lookup_middle.
  - rewrite len_app, len_cons. pose proof (len_nonneg l). pose proof (len_nonneg k). lia.
Qed.

Lemma list_insert_len l k (x : A) : list_insert (l ++ k) (len l) x = l ++ x :: k.
Proof.
  unfold list_insert. rewrite slice_index_nonneg by apply len_nonneg.
  unfold len. rewrite Nat2Z.id. by rewrite take_app_length, drop_app_length.
Qed.

Lemma insert_middle l k (x y : A) : <[length l := y]> (l ++ x :: k) = l ++ y :: k.
Proof. by rewrite insert_app_r_alt, Nat.sub_diag by lia. Qed.

End PyFacts.

(** ** The buffer *)

Section BufferFacts.

Import Buffer.

Implicit Types above below : list str.
Implicit Types left right : str.

Lemma at_cursor_valid above left right below :
  valid (at_cursor above left right below).
Proof.
  unfold valid, at_cursor. simpl.
  pose proof (len_nonneg above). pose proof (len_nonneg below).
  pose proof (len_nonneg left). pose proof (len_nonneg right).
  rewrite len_app, len_cons. repeat split; try lia.
  exists (left ++ right). unfold len at 1. rewrite Nat2Z.id, list_lookup_middle by done.
  rewrite len_app. split; [done | lia].
Qed.

Lemma valid_at_cursor b :
  valid b → ∃ above left right below, b = at_cursor above left right below.
Proof.
  destruct b as [ls row col]. unfold valid. simpl.
  intros (_ & Hrow & line & Hline & Hcol).
  apply list_elem_of_split_length in Hline as (above & below & -> & Hlen).
  exists above, (take (Z.to_nat col) line), (drop (Z.to_nat col) line), below.
  unfold at_cursor. rewrite take_drop. f_equal.
  - unfold len in *. lia.
  - unfold len in *. rewrite length_take. lia.
Qed.

(** Typing a character other than the newline puts it left of the cursor. *)
Lemma type_character_at above left right below (c : ascii) :
  c ≠ newline →
  type_character c (at_cursor above left right below)
  = Returned (at_cursor above (left ++ [c]) right below).
Proof.
  intros Hc. unfold type_character, at_cursor. simpl.
  pose proof (len_nonneg below).
  destruct (Z.leb_spec (len (above ++ (left ++ right) :: below)) (len above)) as [H1|_].
  { rewrite len_app, len_cons in H1. lia. }
  cbn [lines cursor_row cursor_col]. rewrite getitem_middle. destruct (decide (c = newline)); [done |].
  rewrite slice_to_len, slice_from_len, insert_middle.
  rewrite len_app, <- app_assoc. reflexivity.
Qed.

(** Typing the newline splits the line at the cursor. *)
Lemma type_newline_at above left right below :
  type_character newline (at_cursor above left right below)
  = Returned (at_cursor (above ++ [left]) [] right below).
Proof.
  unfold type_character, at_cursor. simpl.
  pose proof (len_nonneg below).
  destruct (Z.leb_spec (len (above ++ (left ++ right) :: below)) (len above)) as [H1|_].
  { rewrite len_app, len_cons in H1. lia. }
  cbn [lines cursor_row cursor_col]. rewrite getitem_middle. destruct (decide (newline = newline)); [| done].
  rewrite slice_to_len, slice_from_len, insert_middle.
  replace (len above + 1) with (len (above ++ [left])) by (rewrite len_app; done).
  replace (above ++ left :: below) with ((above ++ [left]) ++ below)
    by (by rewrite <- app_assoc).
  by rewrite list_insert_len.
Qed.

(** Backspace after a character removes it. *)
Lemma backspace_char_at above left right below (c : ascii) :
  backspace (at_cursor above (left ++ [c]) right below)
  = Returned (at_cursor above left right below).
Proof.
  unfold backspace, at_cursor. simpl.
  pose proof (len_nonneg left).
  destruct (Z.ltb_spec 0 (len (left ++ [c]))) as [_|H1].
  2: { rewrite len_app, len_cons in H1. unfold len in H1 at 2. simpl in H1. lia. }
  rewrite getitem_middle, slice_from_len, insert_middle.
  replace (len (left ++ [c]) - 1) with (len left)
    by (rewrite len_app; unfold len at 3; simpl; lia).
  by rewrite <- app_assoc, slice_to_len.
Qed.

(** Backspace at the start of a line joins it to the line above. *)
Lemma backspace_join_at above (prev : str) right below :
  backspace (at_cursor (above ++ [prev]) [] right below)
  = Returned (at_cursor above prev right below).
Proof.
  unfold backspace, at_cursor. simpl.
  pose proof (len_nonneg above).
  assert (len (above ++ [prev]) = len above + 1) as Hl by (by rewrite len_app).
  rewrite Hl. destruct (Z.ltb_spec 0 (len above + 1)) as [_|]; [| lia].
  replace (len above + 1 - 1) with (len above) by lia.
  rewrite <- app_assoc. simpl. rewrite getitem_middle.
  rewrite <- Hl. replace (above ++ prev :: right :: below) with ((above ++ [prev]) ++ right :: below)
    by (by rewrite <- app_assoc).
  rewrite getitem_middle. rewrite <- app_assoc. simpl.
  rewrite insert_middle.
  replace (above ++ (prev ++ right) :: right :: below)
    with ((above ++ [prev ++ right]) ++ right :: below) by (by rewrite <- app_assoc).
  replace (length (above ++ [prev])) with (length (above ++ [prev ++ right]))
    by (by rewrite !length_app).
  rewrite delete_middle, <- app_assoc. simpl. reflexivity.
Qed.

(** Backspace at the start of the document changes nothing. *)
Lemma backspace_start_at right below :
  backspace (at_cursor [] [] right below) = Returned (at_cursor [] [] right below).
Proof. reflexivity. Qed.

End BufferFacts.

(** ** The buffer contract along the typing script *)

Section BufferContract.

Import Buffer Typing.

(** A call made on a buffer inside its contract returns, and the buffer is
    inside its contract afterwards. *)
Lemma run_call_valid (c : call) (b : Buffer.t) :
  valid b → ∃ b', run_call c b = Returned b' ∧ valid b'.
Proof.
  intros Hb. destruct (valid_at_cursor b Hb) as (above & left & right & below & ->).
  destruct c as [char | | d]; simpl.
  - destruct (decide (char = newline)) as [-> | Hc].
    + rewrite type_newline_at. eauto using at_cursor_valid.
    + rewrite type_character_at by done. eauto using at_cursor_valid.
  - destruct left as [| c left _] using rev_ind.
    + destruct above as [| prev above _] using rev_ind.
      * rewrite backspace_start_at. eauto using at_cursor_valid.
      * rewrite backspace_join_at. eauto using at_cursor_valid.
    + rewrite backspace_char_at. eauto using at_cursor_valid.
  - eauto.
Qed.

Lemma run_valid (cs : list call) (b : Buffer.t) :
  valid b → ∃ b', run cs b = Returned b' ∧ valid b'.
Proof.
  revert b. induction cs as [| c cs IH]; intros b Hb; simpl.
  - eauto.
  - destruct (run_call_valid c b Hb) as (b1 & -> & Hb1). simpl. by apply IH.
Qed.

Lemma initial_valid : valid initial.
Proof. apply (at_cursor_valid [] [] [] []). Qed.

(** C1. Whatever sequence of typed characters (the newline among them) and
    backspaces is applied to the initial buffer (one empty line, cursor at
    (0, 0)), with frames in between or not, every call returns, and the
    buffer then has at least one line, a cursor row that is a valid line
    index, and a cursor column that does not exceed the length of the
    cursor's line. *)
Theorem buffer_invariant (cs : list call) :
  ∃ b, run cs initial = Returned b ∧
       1 <= len (lines b) ∧
       0 <= cursor_row b < len (lines b) ∧
       ∃ line, lines b !! Z.to_nat (cursor_row b) = Some line ∧
               0 <= cursor_col b <= len line.
Proof. apply run_valid, initial_valid. Qed.

(** C9. On a buffer inside its contract, typing the newline and then
    pressing backspace gives back the buffer as it was: the same lines and
    the same cursor. *)
Theorem newline_backspace_roundtrip (b : Buffer.t) :
  valid b →
  and_then (type_character newline b) backspace = Returned b.
Proof.
  intros Hb. destruct (valid_at_cursor b Hb) as (above & left & right & below & ->).
  rewrite type_newline_at. simpl. apply backspace_join_at.
Qed.

Lemma newline_backspace_roundtrip_witness :
  valid (mk [s "hello"; s "world"] 1 2) ∧
  and_then (type_character newline (mk [s "hello"; s "world"] 1 2)) backspace
  = Returned (mk [s "hello"; s "world"] 1 2).
Proof.
  assert (valid (mk [s "hello"; s "world"] 1 2)) as Hb.
  { apply (at_cursor_valid [s "hello"] (s "wo") (s "rld") []). }
  split; [exact Hb | exact (newline_backspace_roundtrip _ Hb)].
Defined.

(** C8, as the spec states it, fails: with the cursor row equal to the
    number of lines (an edit on a line that does not exist),
    [_type_character] signals nothing; it appends an empty line and types
    into it. *)
Lemma type_character_past_end_returns :
  len (lines (mk [s "a"] 1 0)) <= cursor_row (mk [s "a"] 1 0) ∧
  type_character "x" (mk [s "a"] 1 0) = Returned (mk [s "a"; s "x"] 1 1).
Proof. split; [unfold len; simpl; lia | reflexivity]. Qed.

(** C8, amended. On a buffer whose cursor row is not below the number of
    lines: [_type_character] with the row beyond the number of lines
    appends an empty line and raises [IndexError]; with the row equal to
    the number of lines it appends an empty line and types into that line,
    without an error; [_backspace] raises [IndexError], leaving the buffer
    as it was, whenever the column or the row is positive. *)
Theorem edit_past_end (b : Buffer.t) :
  len (lines b) <= cursor_row b →
  (∀ c, len (lines b) < cursor_row b →
        type_character c b
        = Raised IndexError (mk (lines b ++ [[]]) (cursor_row b) (cursor_col b))) ∧
  (∀ c, cursor_row b = len (lines b) →
        type_character c b
        = Returned (if decide (c = newline)
                    then mk (lines b ++ [[]; []]) (cursor_row b + 1) 0
                    else mk (lines b ++ [[c]]) (cursor_row b) (cursor_col b + 1))) ∧
  (0 < cursor_col b ∨ 0 < cursor_row b → backspace b = Raised IndexError b).
Proof.
  destruct b as [ls row col]. simpl. intros Hrow.
  pose proof (len_nonneg ls) as Hls. repeat split.
  - intros c Hlt. unfold type_character. simpl.
    destruct (Z.leb_spec (len ls) row); [| lia]. simpl.
    rewrite getitem_out_of_range; [done |].
    rewrite len_app, len_cons. unfold len at 2. simpl. lia.
  - intros c ->. unfold type_character. simpl.
    destruct (Z.leb_spec (len ls) (len ls)); [| lia]. simpl.
    rewrite getitem_middle.
    assert (∀ k : Z, slice_to ([] : str) k = []) as Hto
        by (intros; unfold slice_to; apply take_nil).
    assert (∀ k : Z, slice_from ([] : str) k = []) as Hfrom
        by (intros; unfold slice_from; apply drop_nil).
    rewrite Hto, Hfrom.
    destruct (decide (c = newline)); rewrite insert_middle; [| done].
    replace (len ls + 1) with (len (ls ++ [[]])) by (by rewrite len_app).
    rewrite <- (app_nil_r (ls ++ [[]])) at 1.
    rewrite list_insert_len, <- app_assoc, len_app. reflexivity.
  - intros Hpos. unfold backspace. simpl.
    destruct (Z.ltb_spec 0 col).
    + by rewrite getitem_out_of_range.
    + destruct (Z.ltb_spec 0 row); [| lia].
      destruct (getitem ls (row - 1)) as [[rp prev_line] |]; [| done].
      by rewrite getitem_out_of_range.
Qed.

Lemma edit_past_end_witness :
  len (lines (mk [s "a"] 1 0)) <= cursor_row (mk [s "a"] 1 0) ∧
  type_character "x" (mk [s "a"] 1 0) = Returned (mk [s "a"; s "x"] 1 1) ∧
  backspace (mk [s "a"] 1 0) = Raised IndexError (mk [s "a"] 1 0).
Proof.
  assert (len (lines (mk [s "a"] 1 0)) <= cursor_row (mk [s "a"] 1 0)) as H
      by (unfold len; simpl; lia).
  destruct (edit_past_end _ H) as (_ & Heq & Hback).
  split; [exact H |]. split.
  - exact (Heq "x"%char eq_refl).
  - apply Hback. right. simpl. lia.
Defined.

End BufferContract.

(** ** Wrapping *)

Section Wrapping.

Import Layout.

Variable width : Z.
Hypothesis width_pos : 1 <= width.

Local Abbreviation fits := (Layout.fits width).

Lemma slice_to_fits (word : str) : len (slice_to word width) <= width.
Proof.
  unfold slice_to, len. rewrite slice_index_nonneg by lia. rewrite length_take. lia.
Qed.

Lemma slice_from_len_lt (word : str) :
  width < len word → len (slice_from word width) = len word - width.
Proof.
  unfold slice_from, len. rewrite slice_index_nonneg by lia. rewrite length_drop. lia.
Qed.

(** With a width of at least 1, [len(word)] iterations end the inner loop. *)
Lemma split_long_total (fuel : nat) (wrapped : list str) (word : str) :
  len word <= Z.of_nat fuel → fits wrapped →
  ∃ wrapped' rest,
    split_long fuel width wrapped word = Some (wrapped', rest) ∧
    fits wrapped' ∧ len rest <= width.
Proof.
  revert wrapped word. induction fuel as [| fuel IH]; intros wrapped word Hfuel Hw; simpl.
  - destruct (Z.ltb_spec width (len word)); [lia |]. eauto.
  - destruct (Z.ltb_spec width (len word)) as [Hlt |]; [| eauto].
    apply IH.
    + rewrite slice_from_len_lt by done. lia.
    + apply Forall_app. split; [done |]. apply Forall_singleton, slice_to_fits.
Qed.

Lemma wrap_word_fits (wrapped : list str) (current_line word : str) :
  fits wrapped → len current_line <= width →
  ∃ wrapped' current_line',
    wrap_word width (wrapped, current_line) word = Ok (wrapped', current_line') ∧
    fits wrapped' ∧ len current_line' <= width.
Proof.
  intros Hw Hc. unfold wrap_word.
  destruct (Z.leb_spec (len current_line + len word + 1) width) as [Hle | Hgt].
  - eexists _, _. split; [done |]. split; [done |].
    pose proof (len_nonneg current_line). pose proof (len_nonneg word).
    destruct current_line; simpl; [lia |].
    rewrite !len_cons, len_app, len_cons in *. lia.
  - assert (fits (if nonempty current_line then wrapped ++ [current_line] else wrapped))
      as Hw'.
    { destruct (nonempty current_line); [| done].
      apply Forall_app. split; [done |]. by apply Forall_singleton. }
    destruct (Z.ltb_spec width (len word)).
    + destruct (split_long_total (length word) _ word ltac:(unfold len; lia) Hw')
        as (w' & r & -> & ? & ?). eauto.
    + eauto.
Qed.

Lemma wrap_words_fits (words : list str) (wrapped : list str) (current_line : str) :
  fits wrapped → len current_line <= width →
  ∃ wrapped' current_line',
    wrap_words width (wrapped, current_line) words = Ok (wrapped', current_line') ∧
    fits wrapped' ∧ len current_line' <= width.
Proof.
  revert wrapped current_line.
  induction words as [| word words IH]; intros wrapped current_line Hw Hc;
    cbn [wrap_words].
  - eauto.
  - destruct (wrap_word_fits wrapped current_line word Hw Hc) as (w' & c' & -> & ? & ?).
    cbn [bind]. by apply IH.
Qed.

(** [_wrap_line] returns; its result has a line, and every line fits. *)
Lemma wrap_line_fits (text : str) :
  ∃ wrapped, wrap_line text width = Ok wrapped ∧ fits wrapped ∧ wrapped ≠ [].
Proof.
  unfold wrap_line. destruct (Z.leb_spec (len text) width).
  - eexists. split; [done |]. split; [by apply Forall_singleton | done].
  - destruct (wrap_words_fits (split space text) [] []) as (w & c & -> & Hw & Hc);
      [apply Forall_nil_2 | unfold len; simpl; lia |]. simpl.
    eexists. split; [done |].
    assert (fits (if nonempty c then w ++ [c] else w)) as Hw'.
    { destruct (nonempty c); [| done].
      apply Forall_app. split; [done |]. by apply Forall_singleton. }
    destruct (if nonempty c then w ++ [c] else w) eqn:E.
    + split; [| done]. apply Forall_singleton. unfold len. simpl. lia.
    + split; [done | done].
Qed.

(** A width below 1 that is exceeded once is exceeded for ever: the inner
    loop does not end, whatever the number of iterations. *)
Lemma split_long_diverges (w : Z) (fuel : nat) (wrapped : list str) (word : str) :
  w < 1 → w < len word → split_long fuel w wrapped word = None.
Proof.
  intros Hw. revert wrapped word.
  induction fuel as [| fuel IH]; intros wrapped word Hlt; simpl;
    destruct (Z.ltb_spec w (len word)); try lia; [done |].
  apply IH. destruct (decide (w = 0)) as [-> | ?].
  - by unfold slice_from, slice_index.
  - pose proof (len_nonneg (slice_from word w)). lia.
Qed.

Lemma wrap_line_short (text : str) (w : Z) :
  len text <= w → wrap_line text w = Ok [text].
Proof. intros H. unfold wrap_line. by destruct (Z.leb_spec (len text) w); [| lia]. Qed.

Lemma wrap_line_nonempty (text : str) (w : Z) (wrapped : list str) :
  wrap_line text w = Ok wrapped → wrapped ≠ [].
Proof.
  unfold wrap_line. destruct (len text <=? w); [by intros [= <-] |].
  destruct (wrap_words w ([], []) (split space text)) as [[ws c] | |]; simpl; try done.
  intros [= <-]. by destruct (if nonempty c then ws ++ [c] else ws).
Qed.

(** On a result of [_wrap_line] the cursor search does not raise. *)
Lemma locate_cursor_ok (wrapped : list str) (col base : Z) :
  wrapped ≠ [] → ∃ cur, locate_cursor wrapped col base = Ok cur.
Proof.
  intros Hne. unfold locate_cursor.
  destruct (find_cursor wrapped 0 0 col) as [[j c] |]; [eauto |].
  destruct (last wrapped) eqn:E; [eauto |]. by apply last_None in E.
Qed.

(** Whenever the loop over the lines returns, the display lines are the
    wrappings of the lines, one after the other. *)
Lemma layout_lines_display (columns row col : Z) (ls : list str) :
  ∀ (i : nat) (dl : list str) (cur : Z * Z) dls cur',
    layout_lines columns row col i ls dl cur = Ok (dls, cur') →
    ∃ wrappeds,
      Forall2 (λ line wrapped, wrap_line line (columns - 1) = Ok wrapped) ls wrappeds ∧
      dls = dl ++ concat wrappeds.
Proof.
  induction ls as [| line ls IH]; intros i dl cur dls cur' H; cbn [layout_lines] in H.
  - injection H as <- <-. exists []. split; [constructor | by rewrite app_nil_r].
  - destruct (Z.leb_spec (len line) (columns - 1)) as [Hle |].
    + apply IH in H as (ws & Hws & ->). exists ([line] :: ws). split.
      * constructor; [by apply wrap_line_short | done].
      * by rewrite <- app_assoc.
    + destruct (wrap_line line (columns - 1)) as [wrapped | |] eqn:Hwrap; try done.
      cbn [bind] in H.
      destruct (if Z.of_nat i =? row then _ else _) as [cur1 | |]; try done.
      cbn [bind] in H. apply IH in H as (ws & Hws & ->). exists (wrapped :: ws). split.
      * by constructor.
      * by rewrite <- app_assoc.
Qed.

(** With a width of at least 1 the loop over the lines returns, and every
    display line fits. *)
Lemma layout_lines_total (columns row col : Z) (ls : list str) :
  width = columns - 1 →
  ∀ (i : nat) (dl : list str) (cur : Z * Z),
    fits dl →
    ∃ dls cur', layout_lines columns row col i ls dl cur = Ok (dls, cur') ∧ fits dls.
Proof.
  intros Hw. induction ls as [| line ls IH]; intros i dl cur Hdl; cbn [layout_lines].
  - eauto.
  - rewrite <- Hw. destruct (Z.leb_spec (len line) width) as [Hle |].
    + apply IH. apply Forall_app. split; [done |]. by apply Forall_singleton.
    + destruct (wrap_line_fits line) as (wrapped & -> & Hfit & Hne). cbn [bind].
      assert (∃ cur1, (if Z.of_nat i =? row then locate_cursor wrapped col (len dl)
                       else Ok cur) = Ok cur1) as [cur1 ->].
      { destruct (Z.of_nat i =? row); [by apply locate_cursor_ok | eauto]. }
      cbn [bind]. apply IH. by apply Forall_app.
Qed.

Lemma layout_total (columns : Z) (b : Buffer.t) :
  width = columns - 1 →
  ∃ wrappeds cur,
    layout columns b = Ok (concat wrappeds, cur) ∧
    Forall2 (λ line wrapped, wrap_line line (columns - 1) = Ok wrapped)
            (Buffer.lines b) wrappeds ∧
    fits (concat wrappeds).
Proof.
  intros Hw. unfold layout.
  destruct (layout_lines_total columns (Buffer.cursor_row b) (Buffer.cursor_col b)
              (Buffer.lines b) Hw 0%nat [] (0, Buffer.cursor_col b))
    as (dls & cur & Heq & Hfit); [constructor |].
  destruct (layout_lines_display _ _ _ _ _ _ _ _ _ Heq) as (ws & Hws & ->).
  simpl in *. eauto.
Qed.

End Wrapping.

(** C2. For every logical line and every width [columns - 1] of at least 1,
    [_wrap_line] returns, its result is a function of the line and the width
    alone, and no display line is longer than the width: the display lines
    of [_draw_content] are these wrappings of the document's lines, one
    after the other, whatever the cursor. *)
Theorem wrapping_deterministic_and_bounded (columns : Z) (b : Buffer.t) :
  1 <= columns - 1 →
  ∃ wrappeds cur,
    Layout.layout columns b = Ok (concat wrappeds, cur) ∧
    Forall2 (λ line wrapped, Layout.wrap_line line (columns - 1) = Ok wrapped)
            (Buffer.lines b) wrappeds ∧
    Forall (λ dl, len dl <= columns - 1) (concat wrappeds).
Proof.
  intros Hw. exact (layout_total (columns - 1) Hw columns b eq_refl).
Qed.

Lemma wrapping_deterministic_and_bounded_witness :
  1 <= 11 - 1 ∧
  ∃ wrappeds cur,
    Layout.layout 11 (Buffer.mk [s "the quick brown fox"; s "jumps"] 0 19)
    = Ok (concat wrappeds, cur) ∧
    Forall2 (λ line wrapped, Layout.wrap_line line (11 - 1) = Ok wrapped)
            [s "the quick brown fox"; s "jumps"] wrappeds ∧
    Forall (λ dl, len dl <= 11 - 1) (concat wrappeds).
Proof.
  split; [lia |].
  exact (wrapping_deterministic_and_bounded 11
           (Buffer.mk [s "the quick brown fox"; s "jumps"] 0 19) ltac:(lia)).
Defined.

(** Word wrapping, a hard split, and a leading space that the wrapping drops. *)
Example wrap_words_example :
  Layout.wrap_line (s "the quick brown fox") 10 = Ok [s "the quick"; s "brown fox"].
Proof. reflexivity. Qed.

Example wrap_hard_split_example :
  Layout.wrap_line (s "0123456TODO89") 10 = Ok [s "0123456TOD"; s "O89"].
Proof. reflexivity. Qed.

Example wrap_leading_space_example :
  Layout.wrap_line (s " ab") 2 = Ok [s "ab"].
Proof. reflexivity. Qed.

(** With no room at all the inner loop of [_wrap_line] does not end. *)
Example wrap_no_width_example : Layout.wrap_line (s "ab") 0 = Loops.
Proof. reflexivity. Qed.

(** ** The cursor on the display *)

Section CursorMapping.

Import Layout.

(** The search stops at the first segment whose range, counted by
    [char_count], contains the column. *)
Lemma find_cursor_some (wrapped : list str) :
  ∀ (j0 : nat) (cc col : Z) (j : nat) (c : Z),
    cc <= col →
    find_cursor wrapped j0 cc col = Some (j, c) →
    ∃ (k : nat) (seg : str),
      j = (j0 + k)%nat ∧ wrapped !! k = Some seg ∧
      cc + char_count wrapped k <= col <= cc + char_count wrapped k + len seg ∧
      c = col - (cc + char_count wrapped k).
Proof.
  induction wrapped as [| w wrapped IH]; intros j0 cc col j c Hcc H; simpl in H; [done |].
  destruct (Z.leb_spec col (cc + len w)) as [Hle | Hgt].
  - injection H as <- <-. exists 0%nat, w. simpl. repeat split; lia.
  - apply IH in H as (k & seg & -> & Hk & Hrange & ->); [| lia].
    exists (S k), seg. simpl. repeat split; try done; lia.
Qed.

(** The search fails when the column is beyond the range of every segment. *)
Lemma find_cursor_none (wrapped : list str) :
  ∀ (j0 : nat) (cc col : Z),
    find_cursor wrapped j0 cc col = None →
    ∀ (k : nat) (seg : str),
      wrapped !! k = Some seg → cc + char_count wrapped k + len seg < col.
Proof.
  induction wrapped as [| w wrapped IH]; intros j0 cc col H k seg Hk; simpl in H; [done |].
  destruct (Z.leb_spec col (cc + len w)) as [Hle | Hgt]; [done |].
  destruct k as [| k]; simpl in *.
  - injection Hk as <-. lia.
  - specialize (IH _ _ _ H k seg Hk). lia.
Qed.

(** Below the cursor's line the cursor position is not assigned. *)
Lemma layout_lines_after (columns row col : Z) (ls : list str) :
  ∀ (i : nat) (dl : list str) (cur : Z * Z) dls cur',
    row < Z.of_nat i →
    layout_lines columns row col i ls dl cur = Ok (dls, cur') → cur' = cur.
Proof.
  induction ls as [| line ls IH]; intros i dl cur dls cur' Hi H; cbn [layout_lines] in H.
  - by injection H as <- <-.
  - destruct (Z.eqb_spec (Z.of_nat i) row) as [|_]; [lia |].
    destruct (len line <=? columns - 1).
    + eapply IH; [| exact H]. lia.
    + destruct (wrap_line line (columns - 1)); try done. cbn [bind] in H.
      eapply IH; [| exact H]. lia.
Qed.

(** The cursor position that the loop over the lines returns is the one
    located on the wrapping of the cursor's line. *)
Lemma layout_lines_cursor (columns col : Z) (line : str) (below : list str) :
  0 <= col <= len line →
  ∀ (above : list str) (i : nat) (dl : list str) (cur : Z * Z) dls cur',
    layout_lines columns (Z.of_nat (i + length above)) col i (above ++ line :: below) dl cur
    = Ok (dls, cur') →
    ∃ wrapped dl_above dl_below,
      wrap_line line (columns - 1) = Ok wrapped ∧
      dls = (dl ++ dl_above) ++ wrapped ++ dl_below ∧
      locate_cursor wrapped col (len (dl ++ dl_above)) = Ok cur'.
Proof.
  intros Hcol. induction above as [| a above IH]; intros i dl cur dls cur' H.
  - simpl in H. rewrite Nat.add_0_r in H. rewrite Z.eqb_refl in H.
    destruct (Z.leb_spec (len line) (columns - 1)) as [Hle | Hgt].
    + assert (cur' = (len dl, col)) as ->
        by (eapply layout_lines_after; [| exact H]; lia).
      apply layout_lines_display in H as (ws & _ & ->).
      exists [line], [], (concat ws). rewrite app_nil_r.
      split; [by apply wrap_line_short |]. split; [by rewrite <- app_assoc |].
      unfold locate_cursor. simpl.
      destruct (Z.leb_spec col (0 + len line)); [| lia].
      do 2 f_equal; lia.
    + destruct (wrap_line line (columns - 1)) as [wrapped | |]; try done. cbn [bind] in H.
      destruct (locate_cursor wrapped col (len dl)) as [cur1 | |] eqn:Hloc; try done.
      cbn [bind] in H.
      assert (cur' = cur1) as -> by (eapply layout_lines_after; [| exact H]; lia).
      apply layout_lines_display in H as (ws & _ & ->).
      exists wrapped, [], (concat ws). rewrite app_nil_r.
      split; [done |]. split; [by rewrite <- app_assoc | done].
  - cbn [app layout_lines] in H.
    destruct (Z.eqb_spec (Z.of_nat i) (Z.of_nat (i + length (a :: above)))) as [Hi |_].
    { simpl in Hi. lia. }
    replace (i + length (a :: above))%nat with (S i + length above)%nat in H
      by (simpl; lia).
    destruct (len a <=? columns - 1).
    + apply IH in H as (wrapped & da & db & Hw & -> & Hloc).
      exists wrapped, ([a] ++ da), db. by rewrite !app_assoc in *.
    + destruct (wrap_line a (columns - 1)) as [wa | |]; try done. cbn [bind] in H.
      apply IH in H as (wrapped & da & db & Hw & -> & Hloc).
      exists wrapped, (wa ++ da), db. by rewrite !app_assoc in *.
Qed.

End CursorMapping.

(** C4. The code misses the claim where the wrap cuts a long word:
    [char_count] adds one for a space in front of every display line, and
    a hard split consumes none. Typing [abcdefghijkl] leaves the cursor at
    the end of the line, column 12. At 5 columns the display lines are
    [abcd], [efgh], [ijkl]; 8 characters are consumed in front of the
    third, but the search reaches it with [char_count = 10] and places the
    cursor at column 12 - 10 = 2 of it. The cursor block is drawn on the
    [k], ten characters in front of it and [kl] behind, while all twelve
    characters of the document are in front of the cursor. *)
Theorem cursor_mapping_hard_split :
  Typing.run (Typing.TypeCharacter <$> s "abcdefghijkl") Buffer.initial
  = Returned (Buffer.mk [s "abcdefghijkl"] 0 12) ∧
  Layout.layout 5 (Buffer.mk [s "abcdefghijkl"] 0 12)
  = Ok ([s "abcd"; s "efgh"; s "ijkl"], (2, 2)) ∧
  Layout.char_count [s "abcd"; s "efgh"; s "ijkl"] 2 = 10 ∧
  len (concat (take 2 [s "abcd"; s "efgh"; s "ijkl"])) = 8 ∧
  View.shown_before [s "abcd"; s "efgh"; s "ijkl"] (2, 2) = s "abcdefghij" ∧
  Text.before_cursor (Buffer.mk [s "abcdefghijkl"] 0 12) = s "abcdefghijkl" ∧
  Layout.draw_content 5 160 16 [] Layout.INSERT (Buffer.mk [s "abcdefghijkl"] 0 12) 0
  = Ok (0, [Layout.draw_line_plain [] (s "abcd"); Layout.draw_line_plain [] (s "efgh");
            Layout.TextRow [Layout.mk_cell "i" Layout.ColorText false;
                            Layout.mk_cell "j" Layout.ColorText false;
                            Layout.mk_cell "k" Layout.ColorBg true;
                            Layout.mk_cell "l" Layout.ColorText false] false]).
Proof. repeat split; vm_compute; reflexivity. Qed.

(** The cursor in a range: column 12 of [the quick brown fox] at 11 columns
    is column 2 of the second display line. The cursor beyond every range:
    at the end of [ ab], wrapped to [ab], it stands at the end of [ab]. *)
Example cursor_in_range_example :
  Layout.layout 11 (Buffer.mk [s "the quick brown fox"] 0 12)
  = Ok ([s "the quick"; s "brown fox"], (1, 2)).
Proof. reflexivity. Qed.

Example cursor_beyond_ranges_example :
  Layout.layout 3 (Buffer.mk [s " ab"] 0 3) = Ok ([s "ab"], (0, 2)).
Proof. reflexivity. Qed.

(** ** Auto-scroll *)

Section AutoScroll.

Import Layout.

(** The rule itself: with a window of at least one row, the new offset
    puts the cursor's display row inside the window. *)
Lemma auto_scroll_window (cursor_display_row visible scroll_offset : Z) :
  1 <= visible →
  auto_scroll cursor_display_row visible scroll_offset <= cursor_display_row
  < auto_scroll cursor_display_row visible scroll_offset + visible.
Proof.
  intros Hv. unfold auto_scroll.
  destruct (Z.leb_spec (scroll_offset + visible) cursor_display_row); [lia |].
  destruct (Z.ltb_spec cursor_display_row scroll_offset); lia.
Qed.

(** An offset that is not negative stays so when the cursor's display row
    is not negative. *)
Lemma auto_scroll_nonneg (cursor_display_row visible scroll_offset : Z) :
  1 <= visible → 0 <= scroll_offset → 0 <= cursor_display_row →
  0 <= auto_scroll cursor_display_row visible scroll_offset.
Proof.
  intros Hv Hs Hc. unfold auto_scroll.
  destruct (Z.leb_spec (scroll_offset + visible) cursor_display_row); [lia |].
  destruct (Z.ltb_spec cursor_display_row scroll_offset); lia.
Qed.

Lemma locate_cursor_row_nonneg (wrapped : list str) (col base : Z) (cur : Z * Z) :
  0 <= base → locate_cursor wrapped col base = Ok cur → 0 <= cur.1.
Proof.
  intros Hbase. unfold locate_cursor.
  destruct (find_cursor wrapped 0 0 col) as [[j c] |].
  - intros [= <-]. simpl. lia.
  - destruct (last wrapped) eqn:E; [| done]. intros [= <-]. simpl.
    destruct wrapped; [done |]. rewrite len_cons. pose proof (len_nonneg wrapped). lia.
Qed.

(** The cursor's display row is never negative. *)
Lemma layout_lines_row_nonneg (columns row col : Z) (ls : list str) :
  ∀ (i : nat) (dl : list str) (cur : Z * Z) dls cur',
    0 <= cur.1 →
    layout_lines columns row col i ls dl cur = Ok (dls, cur') → 0 <= cur'.1.
Proof.
  induction ls as [| line ls IH]; intros i dl cur dls cur' Hcur H; cbn [layout_lines] in H.
  - by injection H as <- <-.
  - destruct (len line <=? columns - 1).
    + eapply IH; [| exact H]. destruct (Z.of_nat i =? row); [| done].
      simpl. apply len_nonneg.
    + destruct (wrap_line line (columns - 1)) as [wrapped | |]; try done. cbn [bind] in H.
      destruct (Z.of_nat i =? row).
      * destruct (locate_cursor wrapped col (len dl)) as [cur1 | |] eqn:Hloc; try done.
        cbn [bind] in H. eapply IH; [| exact H].
        eapply locate_cursor_row_nonneg; [| exact Hloc]. apply len_nonneg.
      * cbn [bind] in H. eapply IH; [| exact H]. done.
Qed.

(** With an offset that is not negative every screen row is drawn. *)
Lemma draw_rows_ok (patterns : list str) (m : mode) (dls : list str) (cur : Z * Z)
      (scroll_offset : Z) (rows : list nat) :
  0 <= scroll_offset → ∃ drawn, draw_rows patterns m dls cur scroll_offset rows = Ok drawn.
Proof.
  intros Hs. induction rows as [| r rows (drawn & IH)]; cbn [draw_rows]; [eauto |].
  assert (∃ x, draw_row patterns m dls cur scroll_offset r = Ok x) as [x ->].
  { unfold draw_row.
    destruct (Z.ltb_spec (Z.of_nat r + scroll_offset) (len dls)) as [Hlt |]; [| eauto].
    unfold getitem. rewrite index_in_range by lia. cbn [mbind option_bind].
    destruct (lookup_lt_is_Some_2 dls (Z.to_nat (Z.of_nat r + scroll_offset)))
      as [line ->]; [unfold len in Hlt; lia |].
    simpl. destruct m; [eauto |]. destruct (_ =? _); eauto. }
  rewrite IH. cbn [bind]. eauto.
Qed.

(** C3. With [visibleRows = floor((height - 100) / (char_height + 4))] at
    least 1 and a scroll offset that was not negative, whenever
    [_draw_content] returns (and it does for every width [columns - 1] of
    at least 1) the scroll offset it leaves is the one of the auto-scroll
    rule, it is not negative, and the cursor's display row lies in the
    window: [scroll_offset <= cursor_display_row < scroll_offset + visibleRows]. *)
Theorem cursor_in_viewport (columns height char_height : Z) (patterns : list str)
        (m : mode) (b : Buffer.t) (scroll_offset : Z) :
  1 <= (height - 100) / (char_height + 4) →
  0 <= scroll_offset →
  (1 <= columns - 1 →
   ∃ r, draw_content columns height char_height patterns m b scroll_offset = Ok r) ∧
  ∀ scroll_offset' drawn,
    draw_content columns height char_height patterns m b scroll_offset
    = Ok (scroll_offset', drawn) →
    ∃ display_lines cursor_display_row cursor_display_col,
      layout columns b = Ok (display_lines, (cursor_display_row, cursor_display_col)) ∧
      scroll_offset'
      = auto_scroll cursor_display_row ((height - 100) / (char_height + 4)) scroll_offset ∧
      0 <= scroll_offset' ∧
      scroll_offset' <= cursor_display_row
      < scroll_offset' + (height - 100) / (char_height + 4).
Proof.
  intros Hv Hs.
  assert (visible_rows height char_height = Ok ((height - 100) / (char_height + 4)))
    as Hvis.
  { unfold visible_rows. destruct (Z.eqb_spec (char_height + 4) 0) as [E |]; [| done].
    rewrite E, Z.div_0_r in Hv. lia. }
  assert (∀ dls cur, layout columns b = Ok (dls, cur) → 0 <= cur.1) as Hrow.
  { intros dls cur H. eapply layout_lines_row_nonneg; [| exact H]. simpl. lia. }
  unfold draw_content. split.
  - intros Hw. destruct (layout_total (columns - 1) Hw columns b eq_refl)
      as (ws & cur & Hlay & _).
    rewrite Hlay, Hvis. cbn [bind].
    destruct (draw_rows_ok patterns m (concat ws) cur
                (auto_scroll cur.1 ((height - 100) / (char_height + 4)) scroll_offset)
                (seq 0 (Z.to_nat ((height - 100) / (char_height + 4)))))
      as (drawn & ->); [| cbn [bind]; eauto].
    apply auto_scroll_nonneg; eauto.
  - intros so' drawn H.
    destruct (layout columns b) as [[dls [drow dcol]] | |] eqn:Hlay; try done.
    rewrite Hvis in H. cbn [bind] in H.
    destruct (draw_rows _ _ _ _ _ _) as [rows | |]; try done. cbn [bind] in H.
    injection H as <- <-. exists dls, drow, dcol. simpl.
    split; [done |]. split; [done |]. split.
    + apply auto_scroll_nonneg; [done | done |]. by apply (Hrow dls (drow, dcol)).
    + by apply auto_scroll_window.
Qed.

Lemma cursor_in_viewport_witness :
  1 <= (720 - 100) / (16 + 4) ∧ 0 <= 0 ∧
  ∃ display_lines cursor_display_row cursor_display_col,
    layout 80 (Buffer.mk (replicate 40 (s "line")) 39 4)
    = Ok (display_lines, (cursor_display_row, cursor_display_col)) ∧
    9 = auto_scroll cursor_display_row ((720 - 100) / (16 + 4)) 0 ∧
    0 <= 9 ∧
    9 <= cursor_display_row < 9 + (720 - 100) / (16 + 4).
Proof.
  assert (1 <= (720 - 100) / (16 + 4)) as Hv by (vm_compute; discriminate).
  split; [exact Hv |]. split; [lia |].
  destruct (cursor_in_viewport 80 720 16 [] INSERT
              (Buffer.mk (replicate 40 (s "line")) 39 4) 0 Hv ltac:(lia)) as [Htot H].
  destruct Htot as [[so' drawn] Hdraw]; [lia |].
  assert (so' = 9) as ->.
  { vm_compute in Hdraw. by injection Hdraw as <- _. }
  exact (H 9 drawn Hdraw).
Defined.

End AutoScroll.

(** ** Frames per hold duration *)

Section FrameCount.

Import Frames.

(** C5, as the spec states it, fails: [_add_frame] truncates where the
    spec rounds. The backspace frames of [_type_special_sequence] are held
    for [0.06] seconds; at 30 frames per second the product is
    [1.7999999999999998], for which one frame is written, while
    [max(1, round(...))] is 2. *)
Lemma add_frame_truncates :
  add_frame 30 () Typing.f0_06 = Ok [()] ∧
  ticks_spec 30 Typing.f0_06 = Ok 2.
Proof. split; vm_compute; reflexivity. Qed.

(** C5, amended. For a hold duration and a frame rate whose product (in
    binary64) is finite and not negative, [_add_frame] writes
    [max(1, n)] frames, [n] being the integer part of the product: the
    product is truncated, not rounded. *)
Theorem add_frame_count {F} (fps : Z) (frame : F) (duration f : float) (n : Z) :
  float_of_int fps = Ok f →
  integer_part (Prim2SF (duration * f)) n →
  ∃ frames, add_frame fps frame duration = Ok frames ∧ len frames = Z.max 1 n.
Proof.
  intros Hf Hn. unfold add_frame, num_frames. rewrite Hf. cbn [bind].
  assert (int_of_float (duration * f) = Ok n) as ->.
  { unfold int_of_float. unfold integer_part in Hn.
    destruct (Prim2SF (duration * f)) as [sg | sg | | sg m e]; try done.
    - by rewrite Hn.
    - destruct sg; [done |]. destruct Hn as [Hpos Hneg]. f_equal. unfold truncate.
      destruct (Z.leb_spec 0 e) as [He | He]; [by rewrite Hpos |].
      specialize (Hneg He). symmetry.
      apply (Z.div_unique _ _ _ (Z.pos m - n * 2 ^ (- e))); lia. }
  cbn [bind]. eexists. split; [done |].
  unfold len. rewrite length_replicate. lia.
Qed.

Lemma add_frame_count_witness :
  float_of_int 30 = Ok 30%float ∧
  integer_part (Prim2SF (Typing.f0_06 * 30)) 1 ∧
  ∃ frames, add_frame 30 () Typing.f0_06 = Ok frames ∧ len frames = Z.max 1 1.
Proof.
  assert (float_of_int 30 = Ok 30%float) as Hf by (vm_compute; reflexivity).
  assert (integer_part (Prim2SF (Typing.f0_06 * 30)) 1) as Hn.
  { replace (Prim2SF (Typing.f0_06 * 30)) with (S754_finite false 8106479329266892 (-52))
      by (vm_compute; reflexivity).
    cbv [integer_part]. split; intros H; [lia |].
    change (2 ^ (- -52)) with 4503599627370496. lia. }
  split; [exact Hf |]. split; [exact Hn |].
  exact (add_frame_count 30 () Typing.f0_06 30%float 1 Hf Hn).
Defined.

End FrameCount.

(** ** Highlighting *)

Section Highlighting.

Import Layout.

(** [find] returns the first occurrence. *)
Lemma find_from_head (t p : str) :
  ∀ i, find_from t p i = head (occurrences_from t p i).
Proof.
  induction t as [| c t IH]; intros i; cbn [find_from occurrences_from].
  - by destruct (startswith [] p).
  - destruct (startswith (c :: t) p); [done |]. apply IH.
Qed.

Lemma find_once (t p : str) (start : nat) :
  occurrences t p = [start] → find t p = Some start.
Proof. intros H. unfold find. rewrite find_from_head. fold (occurrences t p). by rewrite H. Qed.

(** A character is highlighted exactly when it lies in the first occurrence
    of a configured pattern in the line it is drawn from. *)
Lemma get_char_color_highlight (patterns : list str) (dl : str) (col : nat) :
  get_char_color patterns dl col = ColorHighlight
  ↔ ∃ p st, p ∈ patterns ∧ find dl p = Some st ∧ (st <= col < st + length p)%nat.
Proof.
  induction patterns as [| pattern patterns IH]; simpl.
  - split; [done |]. intros (p & st & Hp & _). by apply elem_of_nil in Hp.
  - assert ((∃ p st, p ∈ pattern :: patterns ∧ find dl p = Some st ∧
                     (st <= col < st + length p)%nat)
            ↔ (∃ st, find dl pattern = Some st ∧ (st <= col < st + length pattern)%nat) ∨
              (∃ p st, p ∈ patterns ∧ find dl p = Some st ∧
                       (st <= col < st + length p)%nat)) as ->.
    { split.
      - intros (p & st & Hp & Hfind & Hspan). apply elem_of_cons in Hp as [-> | Hp]; eauto 6.
      - intros [(st & Hfind & Hspan) | (p & st & Hp & Hfind & Hspan)].
        + exists pattern, st. split; [apply list_elem_of_here | done].
        + exists p, st. split; [by apply list_elem_of_further | done]. }
    rewrite <- IH. destruct (find dl pattern) as [start |].
    + destruct (Nat.leb_spec start col); destruct (Nat.ltb_spec col (start + length pattern));
        simpl; split; eauto; try (intros [(st & [= <-] & ?) | ?]; [lia | done]);
        intros _; left; exists start; (split; [done | lia]).
    + split; [eauto |]. by intros [(st & ? & _) | ?].
Qed.

(** C7, as the spec states it, fails: the pattern is searched in each
    display line, after the wrapping. In the line [0123456TODO89] the
    pattern [TODO] occurs once, at position 7. With 80 columns the line is
    one display line and the characters 7 to 10 are highlighted; with 11
    columns the wrapping cuts it into [0123456TOD] and [O89], and no
    character is highlighted. And in insert mode the character under the
    cursor block is drawn in the background colour, a character of the
    pattern too: with the cursor at column 7 the [T] is not highlighted. *)
Lemma highlight_lost_by_wrap :
  occurrences (s "0123456TODO89") (s "TODO") = [7%nat] ∧
  match draw_content 80 140 16 [s "TODO"] INSERT (Buffer.mk [s "0123456TODO89"] 0 7) 0 with
  | Ok (_, drawn) => fills <$> drawn
  | _ => []
  end
  = [replicate 7 ColorText ++ [ColorBg] ++ replicate 3 ColorHighlight ++ replicate 2 ColorText;
     []] ∧
  match draw_content 80 140 16 [s "TODO"] NORMAL (Buffer.mk [s "0123456TODO89"] 0 0) 0 with
  | Ok (_, drawn) => fills <$> drawn
  | _ => []
  end
  = [replicate 7 ColorText ++ replicate 4 ColorHighlight ++ replicate 2 ColorText; []] ∧
  match draw_content 11 140 16 [s "TODO"] NORMAL (Buffer.mk [s "0123456TODO89"] 0 0) 0 with
  | Ok (_, drawn) => fills <$> drawn
  | _ => []
  end
  = [replicate 10 ColorText; replicate 3 ColorText].
Proof. repeat split; vm_compute; reflexivity. Qed.

End Highlighting.

(** ** Special sequences *)

Section SpecialSequences.

Import Buffer Typing.

Lemma run_app (cs1 cs2 : list call) (b : Buffer.t) :
  run (cs1 ++ cs2) b = and_then (run cs1 b) (run cs2).
Proof.
  revert b. induction cs1 as [| c cs1 IH]; intros b; simpl; [done |].
  destruct (run_call c b); simpl; [apply IH | done].
Qed.

(** Frames do not act on the buffer. *)
Lemma run_keys (cs : list call) (b : Buffer.t) : run cs b = run (keys cs) b.
Proof.
  revert b. induction cs as [| c cs IH]; intros b; [done |].
  destruct c as [char | | d]; simpl; [| | apply IH].
  - destruct (type_character char b); simpl; auto.
  - destruct (backspace b); simpl; auto.
Qed.

Lemma keys_app (cs1 cs2 : list call) : keys (cs1 ++ cs2) = keys cs1 ++ keys cs2.
Proof.
  induction cs1 as [| c cs1 IH]; [done |]. destruct c; simpl; by rewrite ?IH.
Qed.

Lemma keys_type_each (t : str) (d : float) : keys (type_each t d) = TypeCharacter <$> t.
Proof. induction t as [| c t IH]; [done |]. simpl. by rewrite IH. Qed.

Lemma keys_backspaces (k : nat) (d : float) :
  keys (concat (replicate k [Backspace; AddFrame d])) = replicate k Backspace.
Proof. induction k as [| k IH]; [done |]. simpl. by rewrite IH. Qed.

(** The keystrokes of [_type_special_sequence]: the typo, then one
    backspace for each character of the typo after the common prefix, then
    the rest of the correct text. *)
Lemma keys_type_special_sequence (cfg : Config) (typo correct : str) :
  keys (type_special_sequence cfg typo correct)
  = (TypeCharacter <$> typo) ++
    replicate (length typo - length (commonprefix typo correct)) Backspace ++
    (TypeCharacter <$> drop (length (commonprefix typo correct)) correct).
Proof.
  unfold type_special_sequence. rewrite !keys_app, !keys_type_each, keys_backspaces.
  simpl. unfold slice_from. rewrite slice_index_nonneg by apply len_nonneg.
  unfold len. rewrite Nat2Z.id. do 3 f_equal. lia.
Qed.

Lemma commonprefix_split (a b : str) :
  ∃ ra rb, a = commonprefix a b ++ ra ∧ b = commonprefix a b ++ rb.
Proof.
  revert b. induction a as [| x a IH]; intros [| y b]; simpl; eauto.
  destruct (decide (x = y)) as [-> |]; simpl; [| eauto].
  destruct (IH b) as (ra & rb & Ha & Hb). exists ra, rb. by rewrite <- Ha, <- Hb.
Qed.

(** A backspace undoes the character typed just before, the newline too. *)
Lemma type_then_backspace (c : ascii) (b : Buffer.t) :
  valid b → and_then (type_character c b) backspace = Returned b.
Proof.
  intros Hb. destruct (valid_at_cursor b Hb) as (above & left & right & below & ->).
  destruct (decide (c = newline)) as [-> | Hc].
  - rewrite type_newline_at. simpl. apply backspace_join_at.
  - rewrite type_character_at by done. simpl. apply backspace_char_at.
Qed.

(** Typing [t] and pressing backspace [k] times is typing [t] without its
    last [k] characters. *)
Lemma erase_keys (k : nat) :
  ∀ (t : str) (b : Buffer.t),
    valid b → (k <= length t)%nat →
    run ((TypeCharacter <$> t) ++ replicate k Backspace) b
    = run (TypeCharacter <$> take (length t - k) t) b.
Proof.
  induction k as [| k IH]; intros t b Hb Hk.
  - by rewrite Nat.sub_0_r, firstn_all, app_nil_r.
  - destruct t as [| c t _] using rev_ind; [simpl in Hk; lia |].
    rewrite length_app in *. simpl in *.
    replace (length t + 1 - S k)%nat with (length t - k)%nat by lia.
    rewrite take_app_le by lia. rewrite <- IH by (done || lia).
    rewrite fmap_app, <- app_assoc, !run_app. simpl.
    destruct (run_valid (TypeCharacter <$> t) b Hb) as (b1 & -> & Hb1). simpl.
    pose proof (type_then_backspace c b1 Hb1) as Hundo.
    destruct (type_character c b1) as [b2 | e b2]; simpl in *; [| done].
    by rewrite Hundo.
Qed.

(** The buffer after [_type_special_sequence(typo, correct)] is the buffer
    after typing [correct]. *)
Lemma run_type_special_sequence (cfg : Config) (typo correct : str) (b : Buffer.t) :
  valid b →
  run (type_special_sequence cfg typo correct) b = run (TypeCharacter <$> correct) b.
Proof.
  intros Hb. rewrite run_keys, keys_type_special_sequence.
  destruct (commonprefix_split typo correct) as (rt & rc & Ht & Hc).
  set (cp := commonprefix typo correct) in *.
  rewrite app_assoc, run_app, erase_keys by (done || lia).
  rewrite <- run_app, <- fmap_app. f_equal. f_equal.
  clearbody cp. subst typo correct.
  rewrite length_app, drop_app_length.
  replace (length cp + length rt - (length cp + length rt - length cp))%nat
    with (length cp) by lia.
  by rewrite take_app_length.
Qed.

(** Typing a text without a newline puts it left of the cursor. *)
Lemma run_typed (t : str) :
  ∀ above left right below,
    newline ∉ t →
    run (TypeCharacter <$> t) (at_cursor above left right below)
    = Returned (at_cursor above (left ++ t) right below).
Proof.
  induction t as [| c t IH]; intros above left right below Hnl; simpl.
  - by rewrite app_nil_r.
  - apply not_elem_of_cons in Hnl as [Hc Ht].
    rewrite type_character_at by done. simpl. rewrite IH by done.
    by rewrite <- app_assoc.
Qed.

Lemma startswith_prefix (t p : str) : startswith t p = true → ∃ r, t = p ++ r.
Proof.
  revert t. induction p as [| a p IH]; intros t H; [by exists t |].
  destruct t as [| c t]; [done |]. simpl in H.
  apply andb_true_iff in H as [Hac Hp]. apply bool_decide_eq_true in Hac as ->.
  destruct (IH t Hp) as [r ->]. by exists r.
Qed.

Lemma match_special_startswith (table : list (str * sequence)) (rest pattern : str)
      (sq : sequence) :
  match_special table rest = Some (pattern, sq) → startswith rest pattern = true.
Proof.
  induction table as [| [p q] table IH]; [done |]. simpl.
  destruct (startswith rest p) eqn:E; [| done]. by intros [= <- <-].
Qed.

(** C6, as the spec states it, fails: a pair is expanded only where its key
    is matched, and the scan of [_type_text] takes the first entry, in
    configured order, whose key the rest of the line starts with, then goes
    on behind the matched key. With the entries [ab -> (ax, AB)] and
    [bc -> (bx, BC)] the key [bc] occurs in the input [abc], but [ab] is
    matched at position 0 and the scan goes on at [c]: the document is
    [ABc], without the correct text [BC]. With the entry [t -> (t, T)] in
    front of [teh -> (teh, the)], the spec's input [I see teh cat] gives
    [I see Teh caT]: the key [teh] occurs in it and [the] is not typed. *)
Lemma special_sequence_unmatched :
  ((s "bc", Pair (s "bx") (s "BC")) ∈ special_sequences Samples.config_overlap ∧
   find (s "abc") (s "bc") = Some 1%nat ∧
   (∃ cs g, type_text Samples.config_overlap (s "abc") example_rng = Ok (cs, g) ∧
            run cs initial = Returned (mk [s "ABc"] 0 3)) ∧
   find (s "ABc") (s "BC") = None) ∧
  ((s "teh", Pair (s "teh") (s "the")) ∈ special_sequences Samples.config_shadow ∧
   find (s "I see teh cat") (s "teh") = Some 6%nat ∧
   (∃ cs g, type_text Samples.config_shadow (s "I see teh cat") example_rng = Ok (cs, g) ∧
            run cs initial = Returned (mk [s "I see Teh caT"] 0 13)) ∧
   find (s "I see Teh caT") (s "the") = None).
Proof.
  split; (split; [apply list_elem_of_further, list_elem_of_here |]);
    (split; [vm_compute; reflexivity |]);
    (split; [eexists _, _; split; vm_compute; reflexivity | vm_compute; reflexivity]).
Qed.

(** C6, amended. When, at a position of the input line, the first entry of
    [special_sequences] whose key the rest of the line starts with is a
    pair [(typo, correct)], the step of [_type_text] makes the calls of
    [_type_special_sequence(typo, correct)] and advances the source
    position by the length of the key, without a random draw. The
    keystrokes are the typo, then one backspace for each character of the
    typo after the common prefix of typo and correct, then the rest of
    correct; on a buffer inside its contract they leave what typing
    [correct] alone leaves, which for a [correct] without a newline is the
    text [correct] left of the cursor, nothing of the typo remaining. *)
Theorem special_sequence_expansion (cfg : Config) (line : str) (char_idx : nat)
        (char : ascii) (g : rng) (pattern typo correct : str)
        (above : list str) (left right : str) (below : list str) :
  match_special (special_sequences cfg) (drop char_idx line)
  = Some (pattern, Pair typo correct) →
  ∃ cs,
    type_step cfg line char_idx char g = (cs, (char_idx + length pattern)%nat, g) ∧
    keys cs
    = (TypeCharacter <$> typo) ++
      replicate (length typo - length (commonprefix typo correct)) Backspace ++
      (TypeCharacter <$> drop (length (commonprefix typo correct)) correct) ∧
    run cs (at_cursor above left right below)
    = run (TypeCharacter <$> correct) (at_cursor above left right below) ∧
    (newline ∉ correct →
     run cs (at_cursor above left right below)
     = Returned (at_cursor above (left ++ correct) right below)).
Proof.
  intros Hmatch. exists (type_special_sequence cfg typo correct).
  unfold type_step. rewrite Hmatch. simpl.
  split; [done |]. split; [apply keys_type_special_sequence |].
  pose proof (run_type_special_sequence cfg typo correct _
                (at_cursor_valid above left right below)) as Hrun.
  split; [done |]. intros Hnl. rewrite Hrun. by apply run_typed.
Qed.

(** C10. When the first entry of [special_sequences] whose key the rest of
    the line starts with is a plain string, the string is typed as the
    typo and the key is the correct text: on a line without a newline (as
    the lines of [text.split('\n')] are) the step leaves the key itself
    left of the cursor, and advances the source position by the length of
    the key. *)
Theorem plain_string_entry (cfg : Config) (line : str) (char_idx : nat)
        (char : ascii) (g : rng) (pattern typo : str)
        (above : list str) (left right : str) (below : list str) :
  newline ∉ line →
  match_special (special_sequences cfg) (drop char_idx line) = Some (pattern, Plain typo) →
  ∃ cs,
    type_step cfg line char_idx char g = (cs, (char_idx + length pattern)%nat, g) ∧
    cs = type_special_sequence cfg typo pattern ∧
    run cs (at_cursor above left right below)
    = Returned (at_cursor above (left ++ pattern) right below).
Proof.
  intros Hline Hmatch. exists (type_special_sequence cfg typo pattern).
  unfold type_step. rewrite Hmatch. simpl.
  split; [done |]. split; [done |].
  rewrite run_type_special_sequence by apply at_cursor_valid.
  apply run_typed. intros Hin. apply Hline.
  apply match_special_startswith, startswith_prefix in Hmatch as [r Hr].
  rewrite <- (take_drop char_idx line), Hr, !elem_of_app. auto.
Qed.

Lemma special_sequence_expansion_witness :
  match_special (special_sequences example_config) (drop 6 (s "I see teh cat"))
  = Some (s "teh", Pair (s "teh") (s "the")) ∧
  ∃ cs,
    type_step example_config (s "I see teh cat") 6 "t" example_rng
    = (cs, (6 + length (s "teh"))%nat, example_rng) ∧
    keys cs
    = (TypeCharacter <$> s "teh") ++
      replicate (length (s "teh") - length (commonprefix (s "teh") (s "the"))) Backspace ++
      (TypeCharacter <$> drop (length (commonprefix (s "teh") (s "the"))) (s "the")) ∧
    run cs (at_cursor [] (s "I see ") [] [])
    = run (TypeCharacter <$> s "the") (at_cursor [] (s "I see ") [] []) ∧
    (newline ∉ s "the" →
     run cs (at_cursor [] (s "I see ") [] [])
     = Returned (at_cursor [] (s "I see " ++ s "the") [] [])).
Proof.
  split; [reflexivity |].
  exact (special_sequence_expansion example_config (s "I see teh cat") 6 "t" example_rng
           (s "teh") (s "teh") (s "the") [] (s "I see ") [] [] eq_refl).
Defined.

Lemma plain_string_entry_witness :
  (newline ∉ s "open teh door") ∧
  match_special (special_sequences example_config_plain) (drop 5 (s "open teh door"))
  = Some (s "teh", Plain (s "hte")) ∧
  ∃ cs,
    type_step example_config_plain (s "open teh door") 5 "t" example_rng
    = (cs, (5 + length (s "teh"))%nat, example_rng) ∧
    cs = type_special_sequence example_config_plain (s "hte") (s "teh") ∧
    run cs (at_cursor [] (s "open ") [] [])
    = Returned (at_cursor [] (s "open " ++ s "teh") [] []).
Proof.
  assert (newline ∉ s "open teh door") as Hnl.
  { apply (bool_decide_unpack _). vm_compute. exact I. }
  split; [exact Hnl |]. split; [reflexivity |].
  exact (plain_string_entry example_config_plain (s "open teh door") 5 "t" example_rng
           (s "teh") (s "hte") [] (s "open ") [] [] Hnl eq_refl).
Defined.

(** The spec's example: with the entry [teh -> (teh, the)], typing the
    input [I see teh cat] leaves the one line [I see the cat], the cursor
    at its end. *)
Example type_text_teh :
  ∃ cs g,
    type_text example_config (s "I see teh cat") example_rng = Ok (cs, g) ∧
    run cs initial = Returned (mk [s "I see the cat"] 0 13).
Proof. eexists _, _. split; vm_compute; reflexivity. Qed.

End SpecialSequences.

(** ** The fuel of the typing loop *)

Section TypingLoop.

Import Typing.

(** An iteration that matches an empty key makes its calls and leaves the
    position and the random source as they were: the loop does not end. *)
Lemma type_line_stuck (cfg : Config) (line : str) (char_idx : nat) (g : rng)
      (sq : sequence) :
  is_Some (line !! char_idx) →
  match_special (special_sequences cfg) (drop char_idx line) = Some ([], sq) →
  ∀ fuel, type_line fuel cfg line char_idx g = Loops.
Proof.
  intros [char Hchar] Hmatch fuel. induction fuel as [| fuel IH]; simpl; rewrite Hchar.
  - done.
  - unfold type_step. rewrite Hmatch. destruct (typo_correct [] sq) as [typo correct].
    simpl. rewrite Nat.add_0_r, IH. done.
Qed.

(** An iteration advances, unless it matches an empty key. *)
Lemma type_step_advances (cfg : Config) (line : str) (char_idx : nat) (char : ascii)
      (g : rng) cs char_idx' g' :
  type_step cfg line char_idx char g = (cs, char_idx', g') →
  (char_idx < char_idx')%nat ∨
  ∃ sq, match_special (special_sequences cfg) (drop char_idx line) = Some ([], sq).
Proof.
  unfold type_step.
  destruct (match_special _ _) as [[pattern sq] |].
  - destruct (typo_correct pattern sq) as [typo correct]. intros [= <- <- <-].
    destruct pattern; [right; eauto | left; simpl; lia].
  - destruct (calculate_pause cfg char g) as [pause g1].
    destruct (random_random g1) as [u g2].
    destruct (_ && _); [destruct (make_mistake cfg g2) |]; intros [= <- <- <-]; left; lia.
Qed.

(** [len(line)] iterations decide the loop: more iterations give the same
    result, the calls made or [Loops]. *)
Lemma type_line_fuel (cfg : Config) (line : str) (fuel : nat) :
  ∀ (char_idx : nat) (g : rng) (fuel' : nat),
    (length line <= char_idx + fuel)%nat → (fuel <= fuel')%nat →
    type_line fuel' cfg line char_idx g = type_line fuel cfg line char_idx g.
Proof.
  induction fuel as [| fuel IH]; intros char_idx g fuel' Hlen Hfuel.
  - assert (line !! char_idx = None) as Hnone by (apply lookup_ge_None; lia).
    destruct fuel'; simpl; by rewrite Hnone.
  - destruct fuel' as [| fuel']; [lia |]. simpl.
    destruct (line !! char_idx) as [char |] eqn:Hchar; [| done].
    destruct (type_step cfg line char_idx char g) as [[cs char_idx'] g'] eqn:Hstep.
    destruct (type_step_advances _ _ _ _ _ _ _ _ Hstep) as [Hadv | [sq Hmatch]].
    + by rewrite (IH char_idx' g' fuel') by lia.
    + assert (char_idx' = char_idx ∧ g' = g) as [-> ->].
      { unfold type_step in Hstep. rewrite Hmatch in Hstep.
        destruct (typo_correct [] sq). injection Hstep as <- <- <-. split; [simpl; lia | done]. }
      by rewrite !(type_line_stuck cfg line char_idx g sq) by eauto.
Qed.

(** When no key is empty, the loop over a line ends. *)
Lemma type_line_total (cfg : Config) (line : str) :
  (∀ pattern sq, (pattern, sq) ∈ special_sequences cfg → pattern ≠ []) →
  ∀ (fuel char_idx : nat) (g : rng),
    (length line <= char_idx + fuel)%nat →
    ∃ r, type_line fuel cfg line char_idx g = Ok r.
Proof.
  intros Hkeys. induction fuel as [| fuel IH]; intros char_idx g Hlen.
  - assert (line !! char_idx = None) as Hnone by (apply lookup_ge_None; lia).
    simpl. rewrite Hnone. eauto.
  - simpl. destruct (line !! char_idx) as [char |] eqn:Hchar; [| eauto].
    destruct (type_step cfg line char_idx char g) as [[cs char_idx'] g'] eqn:Hstep.
    destruct (type_step_advances _ _ _ _ _ _ _ _ Hstep) as [Hadv | [sq Hmatch]].
    + destruct (IH char_idx' g') as [[cs' g''] ->]; [lia |]. simpl. eauto.
    + exfalso. apply (Hkeys [] sq); [| done].
      clear -Hmatch. induction (special_sequences cfg) as [| [p q] table IHt]; [done |].
      simpl in Hmatch. destruct (startswith (drop char_idx line) p).
      * injection Hmatch as -> ->. apply list_elem_of_here.
      * apply list_elem_of_further. by apply IHt.
Qed.

(** Whatever the random source, a mistake is undone by its backspace and a
    special sequence leaves its correct text: the calls of the loop over a
    line leave on the buffer what typing the expansion of the line leaves. *)
Lemma type_line_leaves_expansion (cfg : Config) (line : str) (fuel : nat) :
  ∀ (char_idx : nat) (g : rng) cs g' (b : Buffer.t),
    Buffer.valid b →
    type_line fuel cfg line char_idx g = Ok (cs, g') →
    run cs b = run (TypeCharacter <$> expand fuel (special_sequences cfg) line char_idx) b.
Proof.
  induction fuel as [| fuel IH]; intros char_idx g cs g' b Hb H; simpl in *.
  - destruct (line !! char_idx); [done |]. by injection H as <- <-.
  - destruct (line !! char_idx) as [char |] eqn:Hchar; [| by injection H as <- <-].
    unfold type_step in H.
    destruct (match_special _ _) as [[pattern sq] |] eqn:Hmatch.
    + destruct (typo_correct pattern sq) as [typo correct]. cbn [snd].
      destruct (type_line fuel cfg line _ g) as [[cs' g''] | |] eqn:Hrest; try done.
      simpl in H. injection H as <- <-.
      rewrite fmap_app, !run_app, run_type_special_sequence by done.
      destruct (run_valid (TypeCharacter <$> correct) b Hb) as (b1 & -> & Hb1). simpl.
      by eapply IH.
    + destruct (calculate_pause cfg char g) as [pause g1].
      destruct (random_random g1) as [u g2].
      destruct (run_call_valid (TypeCharacter char) b Hb) as (b1 & Hb1 & Hv1).
      simpl in Hb1.
      destruct ((u <? mistake_rate cfg)%float && (5 <? char_idx)%nat).
      * destruct (make_mistake cfg g2) as [mistake g3] eqn:Hmistake.
        unfold make_mistake in Hmistake.
        destruct (random_choice (s "qwertyuiop") g2) as [wrong_char g4].
        injection Hmistake as <- <-.
        destruct (type_line fuel cfg line _ g4) as [[cs' g''] | |] eqn:Hrest; try done.
        simpl in H. injection H as <- <-. simpl. rewrite Hb1. simpl.
        pose proof (type_then_backspace wrong_char b1 Hv1) as Hundo.
        destruct (Buffer.type_character wrong_char b1) as [b2 | e b2]; simpl in *; [| done].
        rewrite Hundo. simpl. by eapply IH.
      * destruct (type_line fuel cfg line _ g2) as [[cs' g''] | |] eqn:Hrest; try done.
        simpl in H. injection H as <- <-. simpl. rewrite Hb1. simpl. by eapply IH.
Qed.

(** The same for [_type_text]: whenever it returns, its calls leave on the
    buffer what typing the expansion of the text leaves. *)
Lemma type_text_leaves_expansion (cfg : Config) (text : str) (g : rng) cs g' (b : Buffer.t) :
  Buffer.valid b →
  type_text cfg text g = Ok (cs, g') →
  run cs b
  = run (TypeCharacter <$> expand_lines (special_sequences cfg) (split newline text)) b.
Proof.
  unfold type_text. revert g cs g' b.
  induction (split newline text) as [| line lines IH]; intros g cs g' b Hb H; simpl in H.
  - by injection H as <- <-.
  - destruct (type_line (length line) cfg line 0 g) as [[cs1 g1] | |] eqn:Hline; try done.
    simpl in H.
    destruct (type_lines cfg lines g1) as [[cs2 g2] | |] eqn:Hlines; try done.
    simpl in H. injection H as <- <-. cbn [expand_lines].
    rewrite fmap_app, !run_app.
    rewrite (type_line_leaves_expansion _ _ _ _ _ _ _ _ Hb Hline).
    destruct (run_valid (TypeCharacter <$> expand (length line) (special_sequences cfg) line 0)
                b Hb) as (b1 & -> & Hb1).
    simpl. destruct lines as [| line' lines].
    + simpl in Hlines. by injection Hlines as <- <-.
    + rewrite run_app. cbn [run fmap list_fmap run_call].
      destruct (run_call_valid (TypeCharacter newline) b1 Hb1) as (b2 & Hb2 & Hv2).
      simpl in Hb2. rewrite Hb2. simpl. by eapply IH.
Qed.

End TypingLoop.

(** ** The buffer as a text with a cursor *)

Section TextView.

Import Buffer Typing Text.

Implicit Types above below : list str.
Implicit Types left right : str.

Lemma before_at_cursor above left right below :
  before_cursor (at_cursor above left right below)
  = concat ((λ line, line ++ [newline]) <$> above) ++ left.
Proof.
  unfold before_cursor, at_cursor. simpl. unfold len. rewrite !Nat2Z.id.
  rewrite take_app_length, list_lookup_middle by done. simpl.
  by rewrite take_app_length.
Qed.

Lemma after_at_cursor above left right below :
  after_cursor (at_cursor above left right below)
  = right ++ concat ((λ line, newline :: line) <$> below).
Proof.
  unfold after_cursor, at_cursor. simpl. unfold len. rewrite !Nat2Z.id.
  rewrite list_lookup_middle by done. simpl. rewrite drop_app_length.
  replace (above ++ (left ++ right) :: below) with ((above ++ [left ++ right]) ++ below)
    by (by rewrite <- app_assoc).
  replace (S (length above)) with (length (above ++ [left ++ right]))
    by (rewrite length_app; simpl; lia).
  by rewrite drop_app_length.
Qed.

Lemma clean_at_cursor above left right below :
  clean (at_cursor above left right below)
  ↔ Forall (λ line, newline ∉ line) above ∧ (newline ∉ left) ∧ (newline ∉ right) ∧
    Forall (λ line, newline ∉ line) below.
Proof.
  unfold clean, at_cursor. simpl. rewrite Forall_app, Forall_cons, elem_of_app. tauto.
Qed.

(** One call on a buffer inside its contract, in the text view: a typed
    character goes to the end of the text in front of the cursor, a
    backspace removes the last character of that text, a frame changes
    nothing; the text behind the cursor stays, and no newline gets into a
    line. *)
Lemma run_call_text (c : call) (b : Buffer.t) :
  valid b →
  ∃ b', run_call c b = Returned b' ∧ valid b' ∧
        before_cursor b'
        = match c with
          | TypeCharacter char => before_cursor b ++ [char]
          | Backspace => removelast (before_cursor b)
          | AddFrame _ => before_cursor b
          end ∧
        after_cursor b' = after_cursor b ∧
        (clean b → clean b').
Proof.
  intros Hb. destruct (valid_at_cursor b Hb) as (above & left & right & below & ->).
  destruct c as [char | | d]; simpl.
  - destruct (decide (char = newline)) as [-> | Hc].
    + rewrite type_newline_at. eexists. split; [done |].
      split; [apply at_cursor_valid |].
      rewrite !before_at_cursor, !after_at_cursor, fmap_app, concat_app. simpl.
      rewrite !app_nil_r. split; [by rewrite <- app_assoc |]. split; [done |].
      rewrite !clean_at_cursor, Forall_app, Forall_singleton.
      intros (? & ? & ? & ?). repeat split; try done. apply not_elem_of_nil.
    + rewrite type_character_at by done. eexists. split; [done |].
      split; [apply at_cursor_valid |].
      rewrite !before_at_cursor, !after_at_cursor. split; [by rewrite app_assoc |].
      split; [done |]. rewrite !clean_at_cursor, elem_of_app, list_elem_of_singleton.
      intros (? & ? & ? & ?). repeat split; try done. intros [? | ?]; congruence.
  - destruct left as [| c left _] using rev_ind.
    + destruct above as [| prev above _] using rev_ind.
      * rewrite backspace_start_at. eexists. split; [done |].
        split; [apply at_cursor_valid |]. by rewrite !before_at_cursor.
      * rewrite backspace_join_at. eexists. split; [done |].
        split; [apply at_cursor_valid |].
        rewrite !before_at_cursor, !after_at_cursor, fmap_app, concat_app. simpl.
        rewrite !app_nil_r, app_assoc, removelast_last.
        split; [done |]. split; [done |].
        rewrite !clean_at_cursor, Forall_app, Forall_singleton. tauto.
    + rewrite backspace_char_at. eexists. split; [done |].
      split; [apply at_cursor_valid |].
      rewrite !before_at_cursor, !after_at_cursor, app_assoc, removelast_last.
      split; [done |]. split; [done |].
      rewrite !clean_at_cursor, elem_of_app. tauto.
  - eauto 6.
Qed.

(** X1. On a buffer inside its contract, a backspace right after a typed
    character (the newline too) gives back the buffer as it was. *)
Theorem backspace_undoes_typing (c : ascii) (b : Buffer.t) :
  valid b → and_then (type_character c b) backspace = Returned b.
Proof. apply type_then_backspace. Qed.

Lemma backspace_undoes_typing_witness :
  valid (mk [s "ab"; s "cd"] 1 1) ∧
  and_then (type_character "x" (mk [s "ab"; s "cd"] 1 1)) backspace
  = Returned (mk [s "ab"; s "cd"] 1 1).
Proof.
  assert (valid (mk [s "ab"; s "cd"] 1 1)) as Hb
      by apply (at_cursor_valid [s "ab"] (s "c") (s "d") []).
  split; [exact Hb | exact (backspace_undoes_typing "x" _ Hb)].
Defined.

(** X2. On a buffer inside its contract the two edit methods act on the
    document as on one text with a cursor: [_type_character] appends its
    character (the newline too) to the text in front of the cursor,
    [_backspace] removes the last character of that text (nothing when it is
    empty), and neither changes the text behind the cursor. *)
Theorem edits_on_the_text (b : Buffer.t) :
  valid b →
  (∀ char, ∃ b', type_character char b = Returned b' ∧
                 before_cursor b' = before_cursor b ++ [char] ∧
                 after_cursor b' = after_cursor b) ∧
  (∃ b', backspace b = Returned b' ∧
         before_cursor b' = removelast (before_cursor b) ∧
         after_cursor b' = after_cursor b).
Proof.
  intros Hb. split.
  - intros char. destruct (run_call_text (TypeCharacter char) b Hb)
      as (b' & Hrun & _ & Hbefore & Hafter & _). eauto.
  - destruct (run_call_text Backspace b Hb) as (b' & Hrun & _ & Hbefore & Hafter & _). eauto.
Qed.

Lemma edits_on_the_text_witness :
  valid (mk [s "ab"; s "cd"] 1 0) ∧
  ∃ b', backspace (mk [s "ab"; s "cd"] 1 0) = Returned b' ∧
        before_cursor b' = removelast (before_cursor (mk [s "ab"; s "cd"] 1 0)) ∧
        after_cursor b' = after_cursor (mk [s "ab"; s "cd"] 1 0).
Proof.
  assert (valid (mk [s "ab"; s "cd"] 1 0)) as Hb
      by apply (at_cursor_valid [s "ab"] [] (s "cd") []).
  split; [exact Hb | exact (proj2 (edits_on_the_text _ Hb))].
Defined.

(** A sequence of calls, in the text view. *)
Lemma run_text (cs : list call) :
  ∀ b, valid b →
       ∃ b', run cs b = Returned b' ∧ valid b' ∧
             after_cursor b' = after_cursor b ∧ (clean b → clean b').
Proof.
  induction cs as [| c cs IH]; intros b Hb; simpl; [eauto |].
  destruct (run_call_text c b Hb) as (b1 & -> & Hb1 & _ & Hafter & Hclean). simpl.
  destruct (IH b1 Hb1) as (b' & -> & Hb' & Hafter' & Hclean').
  exists b'. split; [done |]. split; [done |]. split; [congruence | auto].
Qed.

Lemma run_typed_text (t : str) :
  ∀ b, valid b →
       ∃ b', run (TypeCharacter <$> t) b = Returned b' ∧ valid b' ∧
             before_cursor b' = before_cursor b ++ t ∧
             after_cursor b' = after_cursor b ∧ (clean b → clean b').
Proof.
  induction t as [| c t IH]; intros b Hb; simpl.
  - exists b. by rewrite app_nil_r.
  - destruct (run_call_text (TypeCharacter c) b Hb) as (b1 & Hrun & Hb1 & Hbefore & Hafter & Hclean).
    simpl in Hrun. rewrite Hrun. simpl.
    destruct (IH b1 Hb1) as (b' & Hrun' & Hb' & Hbefore' & Hafter' & Hclean').
    exists b'. split; [exact Hrun' |]. split; [done |].
    split; [by rewrite Hbefore', Hbefore, <- app_assoc |]. split; [congruence | auto].
Qed.

Lemma clean_initial : clean initial.
Proof. apply Forall_singleton, not_elem_of_nil. Qed.

Lemma split_clean (w : str) : newline ∉ w → split newline w = [w].
Proof.
  induction w as [| c w IH]; [done |]. intros Hnl.
  apply not_elem_of_cons in Hnl as [Hc Hw]. simpl.
  destruct (decide (c = newline)); [congruence |]. by rewrite IH.
Qed.

Lemma split_app_newline (w t : str) :
  newline ∉ w → split newline (w ++ newline :: t) = w :: split newline t.
Proof.
  induction w as [| c w IH]; intros Hnl; simpl.
  - by destruct (decide (newline = newline)).
  - apply not_elem_of_cons in Hnl as [Hc Hw].
    destruct (decide (c = newline)); [congruence |]. by rewrite IH.
Qed.

Lemma split_before above left :
  Forall (λ line, newline ∉ line) above → newline ∉ left →
  split newline (concat ((λ line, line ++ [newline]) <$> above) ++ left) = above ++ [left].
Proof.
  intros Habove Hleft. induction Habove as [| line above Hline _ IH].
  - by apply split_clean.
  - rewrite fmap_cons. cbn [concat]. rewrite <- !app_assoc. cbn [app].
    by rewrite split_app_newline, IH.
Qed.

(** A clean buffer with nothing behind the cursor is the split of the text
    in front of the cursor, the cursor at its end. *)
Lemma at_end_of_text (b : Buffer.t) :
  valid b → clean b → after_cursor b = [] →
  b = at_end (split newline (before_cursor b)).
Proof.
  intros Hb Hclean Hafter.
  destruct (valid_at_cursor b Hb) as (above & left & right & below & ->).
  rewrite after_at_cursor in Hafter. apply app_eq_nil in Hafter as [-> Hbelow].
  destruct below; [| done]. apply clean_at_cursor in Hclean as (Habove & Hleft & _ & _).
  rewrite before_at_cursor, split_before by done.
  unfold at_end, at_cursor. rewrite last_snoc, app_nil_r. simpl. f_equal.
  rewrite len_app. unfold len at 3. simpl. lia.
Qed.

Lemma run_typed_initial (t : str) :
  run (TypeCharacter <$> t) initial = Returned (at_end (split newline t)).
Proof.
  destruct (run_typed_text t initial initial_valid)
    as (b & -> & Hb & Hbefore & Hafter & Hclean).
  f_equal. rewrite (at_end_of_text b Hb (Hclean clean_initial) Hafter).
  by rewrite Hbefore.
Qed.

(** X4. Typing the characters of a text one after the other into the
    initial buffer leaves the lines [text.split('\n')], the cursor at the
    end of the last line. *)
Theorem typing_gives_split (t : str) :
  run (TypeCharacter <$> t) initial = Returned (at_end (split newline t)).
Proof. apply run_typed_initial. Qed.

End TextView.

(** ** The typing script as a whole *)

Section TypingScript.

Import Buffer Typing Text.

Lemma type_lines_total (cfg : Config) (ls : list str) :
  (∀ pattern sq, (pattern, sq) ∈ special_sequences cfg → pattern ≠ []) →
  ∀ g, ∃ r, type_lines cfg ls g = Ok r.
Proof.
  intros Hkeys. induction ls as [| line ls IH]; intros g; simpl; [eauto |].
  destruct (type_line_total cfg line Hkeys (length line) 0 g) as [[cs g1] ->]; [lia |].
  simpl. destruct (IH g1) as [[cs' g2] ->]. simpl. eauto.
Qed.

Lemma type_lines_loops (cfg : Config) (sq : sequence) (rest : list (str * sequence))
      (ls : list str) :
  special_sequences cfg = ([], sq) :: rest →
  (∃ line, line ∈ ls ∧ line ≠ []) →
  ∀ g, type_lines cfg ls g = Loops.
Proof.
  intros Htable. induction ls as [| line ls IH]; intros (l & Hin & Hne) g.
  - by apply elem_of_nil in Hin.
  - cbn [type_lines]. destruct line as [| c line].
    + simpl. rewrite IH; [done |]. apply elem_of_cons in Hin as [-> | Hin]; [done | eauto].
    + rewrite (type_line_stuck cfg (c :: line) 0 g sq); [done | by eexists |].
      by rewrite Htable.
Qed.

Lemma expand_plain (line : str) (fuel : nat) :
  ∀ char_idx, (length line <= char_idx + fuel)%nat →
              expand fuel [] line char_idx = drop char_idx line.
Proof.
  induction fuel as [| fuel IH]; intros char_idx Hlen; simpl.
  - rewrite drop_ge by lia. by destruct (line !! char_idx).
  - destruct (line !! char_idx) as [char |] eqn:Hchar.
    + rewrite IH by lia. by rewrite (drop_S _ _ _ Hchar).
    + apply lookup_ge_None in Hchar. by rewrite drop_ge.
Qed.

Lemma expand_lines_split (t : str) : expand_lines [] (split newline t) = t.
Proof.
  induction t as [| c t IH]; [done |]. cbn [split].
  destruct (decide (c = newline)) as [-> |].
  - cbn [expand_lines]. rewrite expand_plain by lia. simpl.
    destruct (split newline t) eqn:E; [by destruct t; simpl in E; repeat case_match |].
    by rewrite IH.
  - destruct (split newline t) as [| w ws] eqn:E.
    { by destruct t; simpl in E; repeat case_match. }
    cbn [expand_lines] in *. rewrite expand_plain in * by lia. simpl in *.
    by f_equal.
Qed.

(** X8. Whenever [_type_text] returns, started on the initial buffer, the
    document is the text with every matched key replaced by the correct
    text of its entry, split at its newlines, and the cursor is at the end
    of the last line: injected mistakes and typos leave nothing behind,
    whatever the random source. *)
Theorem type_text_leaves_expanded_text (cfg : Config) (text : str) (g : rng)
        (cs : list call) (g' : rng) :
  type_text cfg text g = Ok (cs, g') →
  run cs initial
  = Returned (at_end (split newline
                        (expand_lines (special_sequences cfg) (split newline text)))).
Proof.
  intros H. rewrite (type_text_leaves_expansion cfg text g cs g' initial initial_valid H).
  apply run_typed_initial.
Qed.

Lemma type_text_leaves_expanded_text_witness :
  ∃ cs g',
    type_text example_config (s "I see teh cat") example_rng = Ok (cs, g') ∧
    run cs initial
    = Returned (at_end (split newline
                          (expand_lines (special_sequences example_config)
                                        (split newline (s "I see teh cat"))))).
Proof.
  destruct (type_text example_config (s "I see teh cat") example_rng)
    as [[cs g'] | |] eqn:H; [| vm_compute in H; discriminate H | vm_compute in H; discriminate H].
  exists cs, g'. split; [reflexivity |].
  exact (type_text_leaves_expanded_text _ _ _ _ _ H).
Defined.

End TypingScript.

(** ** What the wrapping keeps *)

Section WrappingContent.

Import Layout View.

Lemma split_nonempty (sep : ascii) (t : str) : split sep t ≠ [].
Proof. destruct t as [| c t]; simpl; [done |]. by repeat case_match. Qed.

Lemma split_has_word (sep c : ascii) (t : str) :
  c ∈ t → c ≠ sep → ∃ w, w ∈ split sep t ∧ w ≠ [].
Proof.
  intros Hin Hc. induction t as [| a t IH]; [by apply elem_of_nil in Hin |].
  simpl. destruct (decide (a = sep)) as [-> | Ha].
  - apply elem_of_cons in Hin as [-> | Hin]; [done |].
    destruct (IH Hin) as (w & Hw & Hne). exists w. split; [by apply list_elem_of_further | done].
  - destruct (split sep t) as [| w ws]; eexists; (split; [apply list_elem_of_here | done]).
Qed.

(** With a width below 1 no word is taken onto the current line, and a word
    longer than the width is never split to the end. *)
Lemma wrap_words_loops (width : Z) (words : list str) :
  width < 1 →
  (∃ w, w ∈ words ∧ width < len w) →
  ∀ acc, wrap_words width acc words = Loops.
Proof.
  intros Hwidth. induction words as [| word words IH]; intros (w & Hin & Hw) [wrapped cur].
  - by apply elem_of_nil in Hin.
  - cbn [wrap_words]. unfold wrap_word.
    pose proof (len_nonneg cur). pose proof (len_nonneg word).
    destruct (Z.leb_spec (len cur + len word + 1) width); [lia |].
    destruct (Z.ltb_spec width (len word)) as [Hlt | Hge].
    + by rewrite split_long_diverges.
    + cbn [bind]. apply IH. apply elem_of_cons in Hin as [-> | Hin]; [lia | eauto].
Qed.

(** X10. With a width below 1 (one column or none), [_wrap_line] never
    returns on a text that is longer than the width and holds a character
    other than a space; with a negative width it never returns at all. *)
Theorem wrap_line_loops (text : str) (width : Z) :
  width < 1 →
  width < 0 ∨ (∃ c, c ∈ text ∧ c ≠ space) →
  wrap_line text width = Loops.
Proof.
  intros Hwidth Hcase. unfold wrap_line.
  assert (∃ w, w ∈ split space text ∧ width < len w) as Hword.
  { destruct Hcase as [Hneg | (c & Hin & Hc)].
    - pose proof (split_nonempty space text).
      destruct (split space text) as [| w ws]; [done |].
      exists w. split; [apply list_elem_of_here |]. pose proof (len_nonneg w). lia.
    - destruct (split_has_word space c text Hin Hc) as (w & Hw & Hne).
      exists w. split; [done |]. destruct w; [done |]. rewrite len_cons.
      pose proof (len_nonneg w). lia. }
  destruct (Z.leb_spec (len text) width) as [Hle |].
  - exfalso. destruct Hcase as [Hneg | (c & Hin & Hc)].
    + pose proof (len_nonneg text). lia.
    + destruct text; [by apply elem_of_nil in Hin |]. rewrite len_cons in Hle.
      pose proof (len_nonneg text). lia.
  - by rewrite wrap_words_loops.
Qed.

Lemma wrap_line_loops_witness :
  0 < 1 ∧ (0 < 0 ∨ (∃ c, c ∈ s "a b" ∧ c ≠ space)) ∧ wrap_line (s "a b") 0 = Loops.
Proof.
  assert (0 < 0 ∨ (∃ c, c ∈ s "a b" ∧ c ≠ space)) as Hcase.
  { right. exists "a"%char. split; [apply list_elem_of_here | done]. }
  split; [lia |]. split; [exact Hcase |].
  exact (wrap_line_loops (s "a b") 0 ltac:(lia) Hcase).
Defined.

Lemma nonspace_app (t u : str) : nonspace (t ++ u) = nonspace t ++ nonspace u.
Proof. apply filter_app. Qed.

Lemma nonspace_space (t : str) : nonspace (space :: t) = nonspace t.
Proof. unfold nonspace. by rewrite filter_cons_False by (by intros H; apply H). Qed.

Lemma nonspace_split (t : str) : nonspace (concat (split space t)) = nonspace t.
Proof.
  induction t as [| c t IH]; [done |]. simpl.
  destruct (decide (c = space)) as [-> | Hc].
  - simpl. by rewrite nonspace_space.
  - pose proof (split_nonempty space t). destruct (split space t) as [| w ws]; [done |].
    simpl in *. unfold nonspace in *. by rewrite !filter_cons_True, IH by done.
Qed.

(** The inner loop only cuts: its chunks and the rest give the word back. *)
Lemma split_long_concat (fuel : nat) (width : Z) :
  ∀ (wrapped : list str) (word : str) wrapped' rest,
    split_long fuel width wrapped word = Some (wrapped', rest) →
    concat wrapped' ++ rest = concat wrapped ++ word.
Proof.
  induction fuel as [| fuel IH]; intros wrapped word wrapped' rest H; simpl in H.
  - destruct (width <? len word); [done |]. by injection H as <- <-.
  - destruct (width <? len word); [| by injection H as <- <-].
    apply IH in H. rewrite H, concat_app. simpl.
    rewrite app_nil_r, <- app_assoc. f_equal. unfold slice_to, slice_from. apply take_drop.
Qed.

Lemma wrap_word_content (width : Z) (wrapped : list str) (cur word : str) wrapped' cur' :
  wrap_word width (wrapped, cur) word = Ok (wrapped', cur') →
  nonspace (concat wrapped' ++ cur') = nonspace (concat wrapped ++ cur) ++ nonspace word.
Proof.
  unfold wrap_word. destruct (len cur + len word + 1 <=? width).
  - intros [= <- <-]. destruct cur; simpl.
    + by rewrite app_nil_r, !nonspace_app.
    + rewrite !nonspace_app. rewrite <- !app_assoc. f_equal.
      change (nonspace ((a :: cur) ++ space :: word) = nonspace (a :: cur) ++ nonspace word).
      by rewrite nonspace_app, nonspace_space.
  - assert (concat (if nonempty cur then wrapped ++ [cur] else wrapped) = concat wrapped ++ cur)
      as Hflush.
    { destruct cur; simpl; [by rewrite app_nil_r |]. rewrite concat_app. simpl.
      by rewrite app_nil_r. }
    destruct (width <? len word).
    + destruct (split_long _ _ _ _) as [[w r] |] eqn:Hsplit; [| done].
      intros [= <- <-]. apply split_long_concat in Hsplit.
      by rewrite Hsplit, Hflush, nonspace_app.
    + intros [= <- <-]. by rewrite Hflush, nonspace_app.
Qed.

Lemma wrap_words_content (width : Z) (words : list str) :
  ∀ (wrapped : list str) (cur : str) wrapped' cur',
    wrap_words width (wrapped, cur) words = Ok (wrapped', cur') →
    nonspace (concat wrapped' ++ cur')
    = nonspace (concat wrapped ++ cur) ++ nonspace (concat words).
Proof.
  induction words as [| word words IH]; intros wrapped cur wrapped' cur' H;
    cbn [wrap_words] in H.
  - injection H as <- <-. by rewrite app_nil_r.
  - destruct (wrap_word width (wrapped, cur) word) as [[w1 c1] | |] eqn:Hword; try done.
    cbn [bind] in H. apply IH in H. apply wrap_word_content in Hword.
    rewrite H, Hword. cbn [concat]. by rewrite (nonspace_app word), <- app_assoc.
Qed.

Lemma wrap_line_content (text : str) (width : Z) (wrapped : list str) :
  wrap_line text width = Ok wrapped → nonspace (concat wrapped) = nonspace text.
Proof.
  unfold wrap_line. destruct (len text <=? width).
  - intros [= <-]. simpl. by rewrite app_nil_r.
  - destruct (wrap_words width ([], []) (split space text)) as [[w c] | |] eqn:Hwords;
      try done.
    cbn [bind]. intros [= <-]. apply wrap_words_content in Hwords.
    rewrite nonspace_split in Hwords. simpl in Hwords. rewrite <- Hwords.
    destruct c as [| a c]; simpl.
    + rewrite app_nil_r. by destruct w.
    + destruct (w ++ [a :: c]) eqn:E; [by destruct w |].
      rewrite <- E, concat_app. simpl. by rewrite app_nil_r.
Qed.

(** X11. For a width of at least 1, [_wrap_line] returns display lines that
    hold every character of the text other than a space, in the order of
    the text: the wrapping drops and moves nothing but spaces. *)
Theorem wrap_line_keeps_characters (text : str) (width : Z) :
  1 <= width →
  ∃ wrapped, wrap_line text width = Ok wrapped ∧
             nonspace (concat wrapped) = nonspace text.
Proof.
  intros Hwidth. destruct (wrap_line_fits width Hwidth text) as (wrapped & H & _).
  exists wrapped. split; [done | exact (wrap_line_content text width wrapped H)].
Qed.

Lemma wrap_line_keeps_characters_witness :
  1 <= 5 ∧
  ∃ wrapped, wrap_line (s " one  two three") 5 = Ok wrapped ∧
             nonspace (concat wrapped) = nonspace (s " one  two three").
Proof.
  split; [lia | exact (wrap_line_keeps_characters (s " one  two three") 5 ltac:(lia))].
Defined.

Lemma split_one_word (sep : ascii) (w : str) : sep ∉ w → split sep w = [w].
Proof.
  induction w as [| c w IH]; [done |]. intros Hsep.
  apply not_elem_of_cons in Hsep as [Hc Hw]. simpl.
  destruct (decide (c = sep)); [congruence |]. by rewrite IH.
Qed.

(** The inner loop cuts chunks of exactly the width and leaves a rest that
    is not empty. *)
Lemma split_long_chunks (width : Z) (fuel : nat) :
  1 <= width →
  ∀ (wrapped : list str) (word : str),
    len word <= Z.of_nat fuel → 1 <= len word →
    Forall (λ dl, len dl = width) wrapped →
    ∃ wrapped' rest,
      split_long fuel width wrapped word = Some (wrapped', rest) ∧
      Forall (λ dl, len dl = width) wrapped' ∧ 1 <= len rest <= width.
Proof.
  intros Hwidth. induction fuel as [| fuel IH]; intros wrapped word Hfuel Hword Hw; simpl.
  - lia.
  - destruct (Z.ltb_spec width (len word)) as [Hlt |].
    2: { exists wrapped, word. split; [done |]. split; [done | lia]. }
    apply IH.
    + rewrite (slice_from_len_lt width) by done. lia.
    + rewrite (slice_from_len_lt width) by done. lia.
    + apply Forall_app. split; [done |]. apply Forall_singleton.
      unfold slice_to, len in *. rewrite slice_index_nonneg by lia. rewrite length_take. lia.
Qed.

(** X12. A text without a space that is longer than the width (at least 1)
    is cut into chunks of exactly [width] characters followed by a rest of 1
    to [width] characters; the chunks and the rest, put together, are the
    text. *)
Theorem wrap_line_hard_split (text : str) (width : Z) :
  1 <= width → width < len text → space ∉ text →
  ∃ chunks rest,
    wrap_line text width = Ok (chunks ++ [rest]) ∧
    Forall (λ dl, len dl = width) chunks ∧
    1 <= len rest <= width ∧
    concat chunks ++ rest = text.
Proof.
  intros Hwidth Hlong Hspace. unfold wrap_line.
  destruct (Z.leb_spec (len text) width); [lia |].
  rewrite split_one_word by done. cbn [wrap_words]. unfold wrap_word.
  destruct (Z.leb_spec (len ([] : str) + len text + 1) width) as [Hle |].
  { unfold len at 1 in Hle. simpl in Hle. lia. }
  destruct (Z.ltb_spec width (len text)); [| lia]. cbn [nonempty].
  destruct (split_long_chunks width (length text) Hwidth [] text)
    as (chunks & rest & Hsplit & Hchunks & Hrest); [unfold len; lia | lia | done |].
  rewrite Hsplit. cbn [bind]. exists chunks, rest.
  apply split_long_concat in Hsplit. simpl in Hsplit.
  destruct rest as [| a rest]; [unfold len in Hrest; simpl in Hrest; lia |].
  cbn [nonempty]. split; [by destruct (chunks ++ [a :: rest]) eqn:E; [destruct chunks |] |].
  done.
Qed.

Lemma wrap_line_hard_split_witness :
  1 <= 4 ∧ 4 < len (s "0123456789") ∧ (space ∉ s "0123456789") ∧
  ∃ chunks rest,
    wrap_line (s "0123456789") 4 = Ok (chunks ++ [rest]) ∧
    Forall (λ dl, len dl = 4) chunks ∧
    1 <= len rest <= 4 ∧
    concat chunks ++ rest = s "0123456789".
Proof.
  assert (4 < len (s "0123456789")) as Hlong by (unfold len; simpl; lia).
  assert (space ∉ s "0123456789") as Hspace
      by (apply (bool_decide_unpack _); vm_compute; exact I).
  split; [lia |]. split; [exact Hlong |]. split; [exact Hspace |].
  exact (wrap_line_hard_split (s "0123456789") 4 ltac:(lia) Hlong Hspace).
Defined.

Lemma join_split (sep : ascii) (t : str) : join sep (split sep t) = t.
Proof.
  induction t as [| c t IH]; [done |]. cbn [split].
  pose proof (split_nonempty sep t) as Hne.
  destruct (decide (c = sep)) as [-> |].
  - cbn [join]. destruct (split sep t); [done |]. by rewrite IH.
  - destruct (split sep t) as [| w ws]; [done |]. cbn [join] in *.
    destruct ws; simpl; by rewrite <- IH.
Qed.

Lemma join_cons_concat (sep : ascii) (w : str) (ws : list str) :
  join sep (w :: ws) = w ++ concat ((λ x, sep :: x) <$> ws).
Proof.
  revert w. induction ws as [| x ws IH]; intros w; [by rewrite app_nil_r |].
  change (join sep (w :: x :: ws)) with (w ++ sep :: join sep (x :: ws)).
  by rewrite IH.
Qed.

Lemma join_snoc (sep : ascii) (ls : list str) (cur w : str) :
  join sep (ls ++ [cur; w]) = join sep (ls ++ [cur]) ++ sep :: w.
Proof.
  destruct ls as [| l ls]; [done |].
  rewrite <- !app_comm_cons, !join_cons_concat, !fmap_app, !concat_app. simpl.
  by rewrite !app_nil_r, <- !app_assoc.
Qed.

Lemma join_grow (sep : ascii) (ls : list str) (cur w : str) :
  join sep (ls ++ [cur ++ sep :: w]) = join sep (ls ++ [cur]) ++ sep :: w.
Proof.
  destruct ls as [| l ls]; [done |].
  rewrite <- !app_comm_cons, !join_cons_concat, !fmap_app, !concat_app. simpl.
  by rewrite !app_nil_r, <- !app_assoc.
Qed.

(** Words that are not empty and fit the width go onto the display lines
    whole, a space or a line break between two of them. *)
Lemma wrap_words_join (width : Z) (words : list str) :
  Forall (λ w, 1 <= len w <= width) words →
  ∀ (wrapped : list str) (cur : str),
    cur ≠ [] →
    ∃ wrapped' cur',
      wrap_words width (wrapped, cur) words = Ok (wrapped', cur') ∧ cur' ≠ [] ∧
      join space (wrapped' ++ [cur'])
      = join space (wrapped ++ [cur]) ++ concat ((λ w, space :: w) <$> words).
Proof.
  induction 1 as [| word words Hword _ IH]; intros wrapped cur Hcur; cbn [wrap_words].
  - exists wrapped, cur. by rewrite app_nil_r.
  - unfold wrap_word. destruct cur as [| a cur]; [done |]. cbn [nonempty].
    assert (word ≠ []) as Hne by (intros ->; unfold len in Hword; simpl in Hword; lia).
    destruct (len (a :: cur) + len word + 1 <=? width).
    + cbn [bind].
      destruct (IH wrapped ((a :: cur) ++ space :: word)) as (w' & c' & Hrun & ? & Hjoin);
        [done |].
      exists w', c'. split; [done |]. split; [done |].
      rewrite Hjoin, join_grow, fmap_cons. cbn [concat]. by rewrite <- app_assoc.
    + destruct (Z.ltb_spec width (len word)); [lia |]. cbn [bind].
      destruct (IH (wrapped ++ [a :: cur]) word Hne) as (w' & c' & Hrun & ? & Hjoin).
      exists w', c'. split; [done |]. split; [done |].
      rewrite Hjoin, <- (app_assoc wrapped). cbn [app].
      rewrite join_snoc, fmap_cons. cbn [concat]. by rewrite <- app_assoc.
Qed.

Lemma wrap_line_join (text : str) (width : Z) :
  1 <= width →
  Forall (λ w, 1 <= len w <= width) (split space text) →
  ∃ wrapped, wrap_line text width = Ok wrapped ∧ join space wrapped = text.
Proof.
  intros Hwidth Hwords. unfold wrap_line. destruct (len text <=? width); [by exists [text] |].
  pose proof (join_split space text) as Hjs. pose proof (split_nonempty space text).
  destruct (split space text) as [| w1 words]; [done |].
  apply Forall_cons in Hwords as [Hw1 Hwords]. cbn [wrap_words].
  assert (w1 ≠ []) as Hne by (intros ->; unfold len in Hw1; simpl in Hw1; lia).
  assert (wrap_word width ([], []) w1 = Ok ([], w1)) as ->.
  { unfold wrap_word. cbn [nonempty]. destruct (_ <=? _); [done |].
    by destruct (Z.ltb_spec width (len w1)); [lia |]. }
  cbn [bind].
  destruct (wrap_words_join width words Hwords [] w1 Hne) as (w' & c' & -> & Hc & Hjoin).
  cbn [bind]. destruct c' as [| a c']; [done |]. cbn [nonempty].
  exists (w' ++ [a :: c']). split; [by destruct (w' ++ [a :: c']) eqn:E; [destruct w' |] |].
  by rewrite Hjoin, <- Hjs, join_cons_concat.
Qed.

(** X13. A text whose words (the fields between single spaces) are not
    empty and not longer than the width (at least 1) is wrapped without
    loss: joining the display lines with single spaces gives the text back,
    so the wrapping only turns spaces into line breaks. *)
Theorem wrap_line_whole_words (text : str) (width : Z) :
  1 <= width →
  Forall (λ w, 1 <= len w <= width) (split space text) →
  ∃ wrapped, wrap_line text width = Ok wrapped ∧ join space wrapped = text.
Proof. apply wrap_line_join. Qed.

Lemma wrap_line_whole_words_witness :
  1 <= 10 ∧
  Forall (λ w, 1 <= len w <= 10) (split space (s "the quick brown fox jumps")) ∧
  ∃ wrapped, wrap_line (s "the quick brown fox jumps") 10 = Ok wrapped ∧
             join space wrapped = s "the quick brown fox jumps".
Proof.
  assert (Forall (λ w, 1 <= len w <= 10) (split space (s "the quick brown fox jumps")))
    as Hwords by (apply (bool_decide_unpack _); vm_compute; exact I).
  split; [lia |]. split; [exact Hwords |].
  exact (wrap_line_whole_words _ 10 ltac:(lia) Hwords).
Defined.

End WrappingContent.

(** ** Highlighting and the wrapping *)

Section HighlightSource.

Import Layout View.

Lemma laid_app (t1 t2 : str) (segs1 segs2 : list str) :
  laid t1 segs1 → laid t2 segs2 → laid (t1 ++ t2) (segs1 ++ segs2).
Proof.
  intros H1 H2. induction H1 as [gap Hgap | gap seg t segs Hgap _ IH]; simpl.
  - destruct H2 as [gap2 Hgap2 | gap2 seg t segs Hgap2 H2].
    + constructor. by apply Forall_app.
    + rewrite app_assoc. constructor; [by apply Forall_app | done].
  - rewrite <- !app_assoc. by constructor.
Qed.

Lemma laid_gap (t gap : str) (segs : list str) :
  laid t segs → Forall (λ c, c = space) gap → laid (t ++ gap) segs.
Proof.
  intros H Hgap. rewrite <- (app_nil_r segs). apply laid_app; [done | by constructor].
Qed.

Lemma laid_then (seg gap : str) :
  Forall (λ c, c = space) gap → laid (seg ++ gap) [seg].
Proof. intros Hgap. apply (laid_seg [] seg gap []); by constructor. Qed.

Lemma laid_one (seg : str) : laid seg [seg].
Proof. rewrite <- (app_nil_r seg) at 1. by apply laid_then. Qed.

Lemma laid_chunks (chunks : list str) : laid (concat chunks) chunks.
Proof.
  induction chunks as [| c chunks IH]; simpl; [by constructor |].
  apply (laid_seg [] c); [constructor | done].
Qed.

(** Every display line is a piece of the text. *)
Lemma laid_lookup (t : str) (segs : list str) :
  laid t segs →
  ∀ (j : nat) (seg : str), segs !! j = Some seg → ∃ front back, t = front ++ seg ++ back.
Proof.
  induction 1 as [gap Hgap | gap seg0 t segs Hgap _ IH]; intros j seg Hj; [done |].
  destruct j as [| j]; simpl in Hj.
  - injection Hj as ->. by exists gap, t.
  - destruct (IH j seg Hj) as (front & back & ->).
    exists (gap ++ seg0 ++ front), back. by rewrite <- !app_assoc.
Qed.

(** Two display lines do not overlap: the earlier one ends before the later
    one begins. *)
Lemma laid_apart (t : str) (segs : list str) :
  laid t segs →
  ∀ (j1 j2 : nat) (s1 s2 : str),
    (j1 < j2)%nat → segs !! j1 = Some s1 → segs !! j2 = Some s2 →
    ∃ front mid back, t = front ++ s1 ++ mid ++ s2 ++ back.
Proof.
  induction 1 as [gap Hgap | gap seg0 t segs Hgap Hlaid IH]; intros j1 j2 s1 s2 Hlt H1 H2;
    [done |].
  destruct j2 as [| j2]; [lia |]. simpl in H2. destruct j1 as [| j1]; simpl in H1.
  - injection H1 as ->. destruct (laid_lookup t segs Hlaid j2 s2 H2) as (mid & back & ->).
    by exists gap, mid, back.
  - destruct (IH j1 j2 s1 s2 ltac:(lia) H1 H2) as (front & mid & back & ->).
    exists (gap ++ seg0 ++ front), mid, back. by rewrite <- !app_assoc.
Qed.

(** The inner loop appends its chunks, and the chunks and the rest are the
    word. *)
Lemma split_long_app (fuel : nat) (width : Z) :
  ∀ (wrapped : list str) (word : str) wrapped' rest,
    split_long fuel width wrapped word = Some (wrapped', rest) →
    ∃ chunks, wrapped' = wrapped ++ chunks ∧ concat chunks ++ rest = word.
Proof.
  induction fuel as [| fuel IH]; intros wrapped word wrapped' rest H; simpl in H.
  - destruct (width <? len word); [done |]. injection H as <- <-.
    exists []. by rewrite app_nil_r.
  - destruct (width <? len word).
    + apply IH in H as (chunks & -> & Hc). exists (slice_to word width :: chunks).
      split; [by rewrite <- app_assoc |]. simpl. rewrite <- app_assoc, Hc.
      unfold slice_to, slice_from. apply take_drop.
    + injection H as <- <-. exists []. by rewrite app_nil_r.
Qed.

(** One word of the loop of [_wrap_line]: when the display lines so far lie
    in [front] and the current line follows them, they still do after the
    word, the word coming behind a gap of spaces (one space behind a
    current line that is not empty). *)
Lemma wrap_word_laid (width : Z) (wrapped : list str) (cur word gap front : str) wrapped' cur' :
  laid front wrapped →
  Forall (λ c, c = space) gap →
  (cur ≠ [] → gap = [space]) →
  wrap_word width (wrapped, cur) word = Ok (wrapped', cur') →
  ∃ front', front ++ cur ++ gap ++ word = front' ++ cur' ∧ laid front' wrapped'.
Proof.
  intros Hlaid Hgap Hcur. unfold wrap_word.
  destruct (len cur + len word + 1 <=? width).
  - intros [= <- <-]. destruct cur as [| a cur]; cbn [nonempty].
    + exists (front ++ gap). split; [by rewrite <- app_assoc | by apply laid_gap].
    + rewrite Hcur by done. by exists front.
  - assert (laid (front ++ cur ++ gap) (if nonempty cur then wrapped ++ [cur] else wrapped))
      as Hflush.
    { destruct cur as [| a cur]; cbn [nonempty]; [by apply laid_gap |].
      apply laid_app; [done |]. by apply laid_then. }
    destruct (width <? len word).
    + destruct (split_long _ _ _ _) as [[w r] |] eqn:Hsplit; [| done].
      intros [= <- <-]. apply split_long_app in Hsplit as (chunks & -> & Hword).
      exists ((front ++ cur ++ gap) ++ concat chunks). split.
      * by rewrite <- Hword, <- !app_assoc.
      * apply laid_app; [done | apply laid_chunks].
    + intros [= <- <-]. exists (front ++ cur ++ gap). split; [| done].
      by rewrite <- !app_assoc.
Qed.

Lemma wrap_words_laid (width : Z) (words : list str) :
  ∀ (wrapped : list str) (cur front : str) wrapped' cur',
    laid front wrapped →
    wrap_words width (wrapped, cur) words = Ok (wrapped', cur') →
    ∃ front',
      front ++ cur ++ concat ((λ w, space :: w) <$> words) = front' ++ cur' ∧
      laid front' wrapped'.
Proof.
  induction words as [| word words IH]; intros wrapped cur front wrapped' cur' Hlaid H;
    cbn [wrap_words] in H.
  - injection H as <- <-. exists front. by rewrite app_nil_r.
  - destruct (wrap_word width (wrapped, cur) word) as [[w1 c1] | |] eqn:Hword; try done.
    cbn [bind] in H.
    destruct (wrap_word_laid width wrapped cur word [space] front w1 c1 Hlaid)
      as (front1 & Heq1 & Hlaid1); [by repeat constructor | done | done |].
    destruct (IH w1 c1 front1 wrapped' cur' Hlaid1 H) as (front' & Heq & Hlaid').
    exists front'. split; [| done]. rewrite <- Heq, fmap_cons. cbn [concat].
    rewrite !app_assoc. f_equal. rewrite <- !app_assoc. exact Heq1.
Qed.

(** The display lines of [_wrap_line] lie in the text in order: the
    wrapping cuts the text and drops spaces at the cuts, nothing else. *)
Lemma wrap_line_laid (text : str) (width : Z) (wrapped : list str) :
  wrap_line text width = Ok wrapped → laid text wrapped.
Proof.
  unfold wrap_line. destruct (len text <=? width).
  { intros [= <-]. apply laid_one. }
  pose proof (join_split space text) as Hjs. pose proof (split_nonempty space text).
  destruct (split space text) as [| w1 words]; [done |]. cbn [wrap_words].
  destruct (wrap_word width ([], []) w1) as [[wr1 c1] | |] eqn:Hfirst; try done.
  cbn [bind].
  destruct (wrap_words width (wr1, c1) words) as [[w c] | |] eqn:Hwords; try done.
  cbn [bind]. intros [= <-].
  destruct (wrap_word_laid width [] [] w1 [] [] wr1 c1) as (front1 & Heq1 & Hlaid1);
    [by constructor | constructor | done | done |].
  destruct (wrap_words_laid width words wr1 c1 front1 w c Hlaid1 Hwords)
    as (front' & Heq & Hlaid').
  assert (text = front' ++ c) as ->.
  { rewrite <- Heq, <- Hjs, join_cons_concat. simpl in Heq1. rewrite Heq1.
    by rewrite <- app_assoc. }
  assert (laid (front' ++ c) (if nonempty c then w ++ [c] else w)) as Hall.
  { destruct c as [| a c]; cbn [nonempty]; [by rewrite app_nil_r |].
    apply laid_app; [done | apply laid_one]. }
  destruct (if nonempty c then w ++ [c] else w) as [| x xs] eqn:E; [| done].
  inversion Hall as [gap Hgap |]; subst.
  pose proof (laid_seg (front' ++ c) [] [] [] Hgap (laid_end [] ltac:(constructor))) as Hempty.
  by rewrite app_nil_r in Hempty.
Qed.

(** [find] gives a position at which the pattern stands. *)
Lemma find_from_some (t p : str) :
  ∀ (i q : nat),
    find_from t p i = Some q → ∃ pre post, t = pre ++ p ++ post ∧ q = (i + length pre)%nat.
Proof.
  induction t as [| c t IH]; intros i q H; cbn [find_from] in H.
  - destruct (startswith [] p) eqn:E; [| done]. injection H as <-.
    apply startswith_prefix in E as [r ->]. exists [], r. simpl. split; [done | lia].
  - destruct (startswith (c :: t) p) eqn:E.
    + injection H as <-. apply startswith_prefix in E as [r ->].
      exists [], r. simpl. split; [done | lia].
    + apply IH in H as (pre & post & -> & ->). exists (c :: pre), post.
      simpl. split; [done | lia].
Qed.

Lemma startswith_app (p r : str) : startswith (p ++ r) p = true.
Proof.
  induction p as [| a p IH]; [by destruct r |]. simpl. rewrite IH.
  by rewrite bool_decide_eq_true_2.
Qed.

(** Every position at which the pattern stands is among its occurrences. *)
Lemma occurrences_from_app (p post : str) (pre : str) :
  ∀ i : nat, (i + length pre)%nat ∈ occurrences_from (pre ++ p ++ post) p i.
Proof.
  induction pre as [| c pre IH]; intros i.
  - simpl. destruct p as [| a p]; simpl.
    + rewrite Nat.add_0_r. destruct post; simpl; apply list_elem_of_here.
    + rewrite startswith_app, bool_decide_eq_true_2 by done. simpl.
      rewrite Nat.add_0_r. apply list_elem_of_here.
  - cbn [app occurrences_from]. apply elem_of_app. right.
    replace (i + length (c :: pre))%nat with (S i + length pre)%nat by (simpl; lia).
    apply IH.
Qed.

Lemma occurrence_unique (t p pre post : str) (start : nat) :
  occurrences t p = [start] → t = pre ++ p ++ post → length pre = start.
Proof.
  intros Hocc ->. pose proof (occurrences_from_app p post pre 0) as Hin.
  fold (occurrences (pre ++ p ++ post) p) in Hin. rewrite Hocc in Hin.
  by apply list_elem_of_singleton in Hin.
Qed.

Lemma pattern_at_true (pattern line : str) (col : nat) :
  pattern_at pattern line col = true
  ↔ ∃ st, find line pattern = Some st ∧ (st <= col < st + length pattern)%nat.
Proof.
  unfold pattern_at. destruct (find line pattern) as [start |].
  - rewrite andb_true_iff, Nat.leb_le, Nat.ltb_lt. split.
    + intros ?. by exists start.
    + by intros (st & [= <-] & ?).
  - split; [done | by intros (st & ? & _)].
Qed.

(** [_get_char_color] gives the highlight colour exactly where one of the
    configured patterns passes its test. *)
Lemma get_char_color_pattern_at (patterns : list str) (dl : str) (col : nat) :
  get_char_color patterns dl col = ColorHighlight
  ↔ ∃ p, p ∈ patterns ∧ pattern_at p dl col = true.
Proof.
  rewrite get_char_color_highlight. split.
  - intros (p & st & Hp & Hfind & Hspan). exists p. split; [done |].
    apply pattern_at_true. eauto.
  - intros (p & Hp & Hat). apply pattern_at_true in Hat as (st & Hfind & Hspan). eauto.
Qed.

(** A pattern that stands once in the line and whole on one display line
    passes its test on that display line exactly at its positions in the
    line, and on no other display line. *)
Lemma pattern_at_source (pattern line : str) (start : nat) (wrapped : list str) :
  occurrences line pattern = [start] →
  laid line wrapped →
  (∃ dl, dl ∈ wrapped ∧ is_Some (find dl pattern)) →
  ∃ (j : nat) (front dl back : str),
    wrapped !! j = Some dl ∧ line = front ++ dl ++ back ∧
    (length front <= start ∧ start + length pattern <= length front + length dl)%nat ∧
    (∀ col, pattern_at pattern dl col = true
            ↔ (start <= length front + col < start + length pattern)%nat) ∧
    (∀ j' dl' col, wrapped !! j' = Some dl' → j' ≠ j → pattern_at pattern dl' col = false).
Proof.
  intros Hocc Hlaid (dl & Hdl & [q Hq]).
  apply list_elem_of_lookup in Hdl as [j Hj].
  destruct (laid_lookup line wrapped Hlaid j dl Hj) as (front & back & Hline).
  destruct (find_from_some dl pattern 0 q Hq) as (pre & post & Hdl & Hpre). simpl in Hpre.
  assert (length (front ++ pre) = start) as Hstart.
  { apply (occurrence_unique line pattern _ (post ++ back)); [done |].
    rewrite Hline, Hdl. by rewrite <- !app_assoc. }
  rewrite length_app in Hstart.
  assert (length dl = (q + length pattern + length post)%nat) as Hlen.
  { rewrite Hdl, !length_app. lia. }
  exists j, front, dl, back. split; [done |]. split; [done |]. split; [lia |]. split.
  - intros col. rewrite pattern_at_true. split.
    + intros (st & Hst & Hspan). rewrite Hq in Hst. injection Hst as <-. lia.
    + intros Hspan. exists q. split; [done | lia].
  - intros j' dl' col Hj' Hne. destruct (pattern_at pattern dl' col) eqn:Hat; [| done].
    exfalso. apply pattern_at_true in Hat as (q' & Hq' & Hspan).
    destruct (find_from_some dl' pattern 0 q' Hq') as (pre' & post' & Hdl' & Hpre').
    simpl in Hpre'.
    assert (length dl' = (q' + length pattern + length post')%nat) as Hlen'.
    { rewrite Hdl', !length_app. lia. }
    destruct (Nat.lt_total j' j) as [Hlt | [-> | Hlt]]; [| done |].
    + destruct (laid_apart line wrapped Hlaid j' j dl' dl Hlt Hj' Hj)
        as (f & mid & b & Hboth).
      assert (length (f ++ pre') = start) as H1.
      { apply (occurrence_unique line pattern _ (post' ++ mid ++ dl ++ b)); [done |].
        rewrite Hboth, Hdl' at 1. by rewrite <- !app_assoc. }
      assert (length (f ++ dl' ++ mid ++ pre) = start) as H2.
      { apply (occurrence_unique line pattern _ (post ++ b)); [done |].
        rewrite Hboth, Hdl at 1. by rewrite <- !app_assoc. }
      rewrite !length_app in H1. rewrite !length_app in H2. lia.
    + destruct (laid_apart line wrapped Hlaid j j' dl dl' Hlt Hj Hj')
        as (f & mid & b & Hboth).
      assert (length (f ++ pre) = start) as H1.
      { apply (occurrence_unique line pattern _ (post ++ mid ++ dl' ++ b)); [done |].
        rewrite Hboth, Hdl at 1. by rewrite <- !app_assoc. }
      assert (length (f ++ dl ++ mid ++ pre') = start) as H2.
      { apply (occurrence_unique line pattern _ (post' ++ b)); [done |].
        rewrite Hboth, Hdl' at 1. by rewrite <- !app_assoc. }
      rewrite !length_app in H1. rewrite !length_app in H2. lia.
Qed.

Lemma pattern_at_lt (pattern line : str) (col : nat) :
  pattern_at pattern line col = true → (col < length line)%nat.
Proof.
  intros H. apply pattern_at_true in H as (st & Hfind & Hspan).
  apply find_from_some in Hfind as (pre & post & -> & ->). rewrite !length_app. simpl. lia.
Qed.

(** The colours that the two drawing methods give: the highlight colour
    exactly where a configured pattern passes its test, the character under
    the cursor block apart. *)
Lemma fills_plain_highlight (patterns : list str) (dl : str) (col : nat) :
  fills (draw_line_plain patterns dl) !! col = Some ColorHighlight
  ↔ ∃ p, p ∈ patterns ∧ pattern_at p dl col = true.
Proof.
  unfold fills. cbn [draw_line_plain cells_of].
  rewrite list_lookup_fmap, list_lookup_imap, <- get_char_color_pattern_at.
  destruct (dl !! col) as [c |] eqn:E; simpl.
  - split; [by intros [= ->] | by intros ->].
  - split; [done |]. intros H. exfalso.
    apply get_char_color_pattern_at in H as (p & _ & Hat). apply pattern_at_lt in Hat.
    apply lookup_ge_None in E. lia.
Qed.

Lemma fills_with_cursor_highlight (patterns : list str) (dl : str) (cursor_col : Z)
      (col : nat) :
  Z.of_nat col ≠ cursor_col →
  fills (draw_line_with_cursor patterns dl cursor_col) !! col = Some ColorHighlight
  ↔ ∃ p, p ∈ patterns ∧ pattern_at p dl col = true.
Proof.
  intros Hcol. rewrite <- fills_plain_highlight. unfold fills.
  cbn [draw_line_with_cursor draw_line_plain cells_of].
  rewrite !list_lookup_fmap, !list_lookup_imap.
  destruct (dl !! col) as [c |]; simpl; [| done].
  by destruct (Z.eqb_spec (Z.of_nat col) cursor_col).
Qed.

(** The display lines of a line of the document are in the layout as
    [_wrap_line] returns them. *)
Lemma layout_holds_wrapping (columns : Z) (b : Buffer.t) (line : str)
      (wrapped display_lines : list str) (cur : Z * Z) :
  line ∈ Buffer.lines b →
  wrap_line line (columns - 1) = Ok wrapped →
  layout columns b = Ok (display_lines, cur) →
  ∃ above below, display_lines = above ++ wrapped ++ below.
Proof.
  intros Hline Hwrap Hlay. unfold layout in Hlay.
  apply layout_lines_display in Hlay as (ws & Hws & ->).
  apply list_elem_of_lookup in Hline as [i Hi].
  destruct (Forall2_lookup_l _ _ _ _ _ Hws Hi) as (w & Hw & Hwrap').
  rewrite Hwrap in Hwrap'. injection Hwrap' as <-.
  exists (concat (take i ws)), (concat (drop (S i) ws)).
  rewrite <- (take_drop_middle ws i wrapped Hw) at 1. by rewrite concat_app.
Qed.

(** C7, amended. A configured highlight pattern that occurs exactly once in
    a logical line, and whole on one of the display lines the line is
    wrapped into, is highlighted at its source positions, whatever the
    width. The display line [dl] that holds the occurrence is a piece of
    the line, [line = front ++ dl ++ back]; the character at column [col] of
    it is the character at position [len(front) + col] of the line, and it
    is drawn in the highlight colour exactly when that position is one of
    the pattern's, or another configured pattern passes its test there. On
    the other display lines of the line a character is highlighted only by
    another configured pattern. The character under the cursor block is
    drawn in the background colour instead. The pattern is searched in
    each display line, after the wrapping; the display lines are those of
    [_draw_content]. *)
Theorem highlight_at_source_positions (columns : Z) (patterns : list str)
        (pattern line : str) (start : nat) (wrapped : list str) :
  pattern ∈ patterns →
  occurrences line pattern = [start] →
  wrap_line line (columns - 1) = Ok wrapped →
  (∃ dl, dl ∈ wrapped ∧ is_Some (find dl pattern)) →
  ∃ (j : nat) (front dl back : str),
    wrapped !! j = Some dl ∧ line = front ++ dl ++ back ∧
    (length front <= start ∧ start + length pattern <= length front + length dl)%nat ∧
    (∀ col,
       (fills (draw_line_plain patterns dl) !! col = Some ColorHighlight
        ↔ (start <= length front + col < start + length pattern)%nat ∨
          ∃ p, p ∈ patterns ∧ p ≠ pattern ∧ pattern_at p dl col = true) ∧
       ∀ cursor_col,
         Z.of_nat col ≠ cursor_col →
         fills (draw_line_with_cursor patterns dl cursor_col) !! col = Some ColorHighlight
         ↔ (start <= length front + col < start + length pattern)%nat ∨
           ∃ p, p ∈ patterns ∧ p ≠ pattern ∧ pattern_at p dl col = true) ∧
    (∀ j' dl' col,
       wrapped !! j' = Some dl' → j' ≠ j →
       (fills (draw_line_plain patterns dl') !! col = Some ColorHighlight
        ↔ ∃ p, p ∈ patterns ∧ p ≠ pattern ∧ pattern_at p dl' col = true) ∧
       ∀ cursor_col,
         Z.of_nat col ≠ cursor_col →
         fills (draw_line_with_cursor patterns dl' cursor_col) !! col = Some ColorHighlight
         ↔ ∃ p, p ∈ patterns ∧ p ≠ pattern ∧ pattern_at p dl' col = true) ∧
    (∀ b display_lines cur,
       line ∈ Buffer.lines b →
       layout columns b = Ok (display_lines, cur) →
       ∃ above below, display_lines = above ++ wrapped ++ below).
Proof.
  intros Hin Hocc Hwrap Hwhole.
  destruct (pattern_at_source pattern line start wrapped Hocc (wrap_line_laid _ _ _ Hwrap)
              Hwhole) as (j & front & dl & back & Hj & Hline & Hrange & Hhere & Hothers).
  exists j, front, dl, back. split; [done |]. split; [done |]. split; [done |].
  assert (∀ col,
            (∃ p, p ∈ patterns ∧ pattern_at p dl col = true)
            ↔ (start <= length front + col < start + length pattern)%nat ∨
              ∃ p, p ∈ patterns ∧ p ≠ pattern ∧ pattern_at p dl col = true) as Hon.
  { intros col. split.
    - intros (p & Hp & Hat). destruct (decide (p = pattern)) as [-> | Hne].
      + left. by apply Hhere.
      + right. by exists p.
    - intros [Hspan | (p & Hp & _ & Hat)]; [| by exists p].
      exists pattern. split; [done |]. by apply Hhere. }
  assert (∀ j' dl' col,
            wrapped !! j' = Some dl' → j' ≠ j →
            (∃ p, p ∈ patterns ∧ pattern_at p dl' col = true)
            ↔ ∃ p, p ∈ patterns ∧ p ≠ pattern ∧ pattern_at p dl' col = true) as Hoff.
  { intros j' dl' col Hj' Hne. split.
    - intros (p & Hp & Hat). exists p. split; [done |]. split; [| done].
      intros ->. by rewrite (Hothers j' dl' col Hj' Hne) in Hat.
    - intros (p & Hp & _ & Hat). by exists p. }
  split; [| split].
  - intros col. split.
    + by rewrite fills_plain_highlight.
    + intros cursor_col Hcol. by rewrite fills_with_cursor_highlight.
  - intros j' dl' col Hj' Hne. split.
    + rewrite fills_plain_highlight. by apply (Hoff j').
    + intros cursor_col Hcol. rewrite fills_with_cursor_highlight by done.
      by apply (Hoff j').
  - intros b display_lines cur Hb Hlay. by eapply layout_holds_wrapping.
Qed.

Lemma highlight_at_source_positions_witness :
  s "TODO" ∈ [s "FIXME"; s "TODO"] ∧
  occurrences (s "stop then TODO now") (s "TODO") = [10%nat] ∧
  wrap_line (s "stop then TODO now") (11 - 1) = Ok [s "stop then"; s "TODO now"] ∧
  (∃ dl, dl ∈ [s "stop then"; s "TODO now"] ∧ is_Some (find dl (s "TODO"))) ∧
  ∃ (j : nat) (front dl back : str),
    [s "stop then"; s "TODO now"] !! j = Some dl ∧
    s "stop then TODO now" = front ++ dl ++ back ∧
    (length front <= 10 ∧ 10 + length (s "TODO") <= length front + length dl)%nat ∧
    ∀ col,
      fills (draw_line_plain [s "FIXME"; s "TODO"] dl) !! col = Some ColorHighlight
      ↔ (10 <= length front + col < 10 + length (s "TODO"))%nat ∨
        ∃ p, p ∈ [s "FIXME"; s "TODO"] ∧ p ≠ s "TODO" ∧ pattern_at p dl col = true.
Proof.
  assert (s "TODO" ∈ [s "FIXME"; s "TODO"]) as Hin
      by apply list_elem_of_further, list_elem_of_here.
  assert (occurrences (s "stop then TODO now") (s "TODO") = [10%nat]) as Hocc
      by (vm_compute; reflexivity).
  assert (wrap_line (s "stop then TODO now") (11 - 1) = Ok [s "stop then"; s "TODO now"])
    as Hwrap by (vm_compute; reflexivity).
  assert (∃ dl, dl ∈ [s "stop then"; s "TODO now"] ∧ is_Some (find dl (s "TODO"))) as Hwhole.
  { exists (s "TODO now"). split; [apply list_elem_of_further, list_elem_of_here |].
    exists 0%nat. vm_compute. reflexivity. }
  split; [exact Hin |]. split; [exact Hocc |]. split; [exact Hwrap |].
  split; [exact Hwhole |].
  destruct (highlight_at_source_positions 11 _ _ _ _ _ Hin Hocc Hwrap Hwhole)
    as (j & front & dl & back & Hj & Hline & Hrange & Hon & _).
  exists j, front, dl, back. split; [exact Hj |]. split; [exact Hline |].
  split; [exact Hrange |]. intros col. exact (proj1 (Hon col)).
Defined.

End HighlightSource.

(** ** The cursor and the character it stands at *)

Section CursorExact.

Import Layout View.

(** [char_count] in front of a segment is the length of what the segments
    joined with single spaces hold in front of it. *)
Lemma char_count_join (wrapped : list str) :
  ∀ (j : nat) (seg : str),
    wrapped !! j = Some seg →
    ∃ front,
      len front = char_count wrapped j ∧
      join space wrapped
      = front ++ seg ++ concat ((λ x, space :: x) <$> drop (S j) wrapped) ∧
      ∀ x, join space (take j wrapped ++ [x]) = front ++ x.
Proof.
  induction wrapped as [| w wrapped IH]; intros j seg Hj; [done |].
  destruct j as [| j].
  - injection Hj as ->. exists []. split; [done |]. split; [| done].
    by rewrite join_cons_concat.
  - simpl in Hj. destruct (IH j seg Hj) as (front & Hlen & Hjoin & Htake).
    exists (w ++ space :: front). split; [| split].
    + rewrite len_app, len_cons. simpl. lia.
    + destruct wrapped as [| y ys]; [done |].
      change (join space (w :: y :: ys)) with (w ++ space :: join space (y :: ys)).
      rewrite Hjoin. cbn [drop]. by rewrite <- app_assoc.
    + intros x. cbn [take].
      change ((w :: take j wrapped) ++ [x]) with (w :: (take j wrapped ++ [x])).
      destruct (take j wrapped ++ [x]) as [| y ys] eqn:E; [by destruct (take j wrapped) |].
      change (join space (w :: y :: ys)) with (w ++ space :: join space (y :: ys)).
      rewrite <- E, Htake. by rewrite <- app_assoc.
Qed.

(** Either way the cursor is put on a segment of the wrapping, at a column
    between 0 and the length of that segment. *)
Lemma locate_cursor_on_segment (wrapped : list str) (col base drow dcol : Z) :
  0 <= col →
  locate_cursor wrapped col base = Ok (drow, dcol) →
  ∃ (j : nat) (seg : str),
    wrapped !! j = Some seg ∧ drow = base + Z.of_nat j ∧ 0 <= dcol <= len seg.
Proof.
  intros Hcol. unfold locate_cursor.
  destruct (find_cursor wrapped 0 0 col) as [[j c] |] eqn:Hfind.
  - intros [= <- <-].
    apply find_cursor_some in Hfind as (k & seg & -> & Hk & Hrange & ->); [| lia].
    exists k, seg. simpl. repeat split; try done; lia.
  - destruct (last wrapped) as [seg |] eqn:Hlast; [| done]. intros [= <- <-].
    rewrite last_lookup in Hlast. exists (pred (length wrapped)), seg.
    pose proof (len_nonneg seg). apply lookup_lt_Some in Hlast as Hlt.
    repeat split; try done; unfold len; lia.
Qed.

Lemma layout_at_cursor (columns : Z) above (left right : str) below dls cur :
  layout columns (Buffer.at_cursor above left right below) = Ok (dls, cur) →
  ∃ wrapped da db,
    wrap_line (left ++ right) (columns - 1) = Ok wrapped ∧
    dls = da ++ wrapped ++ db ∧
    locate_cursor wrapped (len left) (len da) = Ok cur.
Proof.
  intros H. unfold layout, Buffer.at_cursor in H. simpl in H.
  pose proof (len_nonneg left). pose proof (len_nonneg right).
  unfold len at 1 in H.
  apply (layout_lines_cursor columns (len left) (left ++ right) below
           ltac:(rewrite len_app; lia) above 0%nat [] _ _ _) in H
    as (wrapped & da & db & Hwrap & -> & Hloc).
  by exists wrapped, da, db.
Qed.

(** X14. On a line whose words (the fields between single spaces) are not
    empty and not longer than the width [columns - 1] (at least 1), the
    cursor is displayed at its character: the display lines of the line in
    front of the cursor's display line, and that display line up to the
    cursor's display column, joined with single spaces, are the text of the
    line left of the cursor. *)
Theorem cursor_on_its_character (columns : Z) (above : list str) (left right : str)
        (below : list str) :
  1 <= columns - 1 →
  Forall (λ w, 1 <= len w <= columns - 1) (split space (left ++ right)) →
  ∃ dls drow dcol da wrapped db (j : nat) (seg : str),
    layout columns (Buffer.at_cursor above left right below) = Ok (dls, (drow, dcol)) ∧
    wrap_line (left ++ right) (columns - 1) = Ok wrapped ∧
    dls = da ++ wrapped ++ db ∧
    drow = len da + Z.of_nat j ∧ wrapped !! j = Some seg ∧ 0 <= dcol <= len seg ∧
    join space (take j wrapped ++ [take (Z.to_nat dcol) seg]) = left.
Proof.
  intros Hwidth Hwords.
  destruct (layout_total (columns - 1) Hwidth columns
              (Buffer.at_cursor above left right below) eq_refl)
    as (ws & [drow dcol] & Hlay & _).
  destruct (layout_at_cursor _ _ _ _ _ _ _ Hlay) as (wrapped & da & db & Hwrap & Hdls & Hloc).
  destruct (wrap_line_join (left ++ right) (columns - 1) Hwidth Hwords)
    as (wrapped' & Hwrap' & Hjoin).
  rewrite Hwrap in Hwrap'. injection Hwrap' as <-.
  pose proof (len_nonneg left) as Hleft.
  exists (concat ws), drow, dcol, da, wrapped, db.
  unfold locate_cursor in Hloc.
  assert (len (left ++ right) = len left + len right) as Hlen by apply len_app.
  pose proof (len_nonneg right) as Hright.
  destruct (find_cursor wrapped 0 0 (len left)) as [[j c] |] eqn:Hfind.
  - injection Hloc as <- <-.
    apply find_cursor_some in Hfind as (k & seg & -> & Hk & Hrange & ->); [| lia].
    simpl in *. exists k, seg.
    split; [done |]. split; [done |]. split; [done |]. split; [done |]. split; [done |].
    split; [lia |].
    destruct (char_count_join wrapped k seg Hk) as (front & Hfront & Hjoined & Htake).
    rewrite Htake. rewrite Hjoin in Hjoined.
    assert (left = take (length left) (left ++ right)) as Hl by (by rewrite take_app_length).
    rewrite Hl at 2. rewrite Hjoined.
    unfold len in *. rewrite take_app_ge by lia. f_equal.
    rewrite take_app_le by lia. f_equal. lia.
  - exfalso. destruct (last wrapped) as [seg |] eqn:Hlast; [| done].
    pose proof (find_cursor_none _ _ _ _ Hfind) as Hnone.
    rewrite last_lookup in Hlast. specialize (Hnone _ _ Hlast).
    destruct (char_count_join wrapped _ seg Hlast) as (front & Hfront & Hjoined & _).
    apply lookup_lt_Some in Hlast as Hlt.
    rewrite drop_ge in Hjoined by lia. simpl in Hjoined. rewrite app_nil_r, Hjoin in Hjoined.
    apply (f_equal len) in Hjoined. rewrite Hlen, len_app in Hjoined. lia.
Qed.

Lemma cursor_on_its_character_witness :
  1 <= 11 - 1 ∧
  Forall (λ w, 1 <= len w <= 11 - 1) (split space (s "the quick br" ++ s "own fox")) ∧
  ∃ dls drow dcol da wrapped db (j : nat) (seg : str),
    layout 11 (Buffer.at_cursor [] (s "the quick br") (s "own fox") []) = Ok (dls, (drow, dcol)) ∧
    wrap_line (s "the quick br" ++ s "own fox") (11 - 1) = Ok wrapped ∧
    dls = da ++ wrapped ++ db ∧
    drow = len da + Z.of_nat j ∧ wrapped !! j = Some seg ∧ 0 <= dcol <= len seg ∧
    join space (take j wrapped ++ [take (Z.to_nat dcol) seg]) = s "the quick br".
Proof.
  assert (Forall (λ w, 1 <= len w <= 11 - 1) (split space (s "the quick br" ++ s "own fox")))
    as Hwords by (apply (bool_decide_unpack _); vm_compute; exact I).
  split; [lia |]. split; [exact Hwords |].
  exact (cursor_on_its_character 11 [] (s "the quick br") (s "own fox") [] ltac:(lia) Hwords).
Defined.

End CursorExact.

(** ** The rows that are drawn *)

Section DrawnRows.

Import Layout View.

Lemma auto_scroll_stable (cursor_display_row visible scroll_offset : Z) :
  scroll_offset <= cursor_display_row < scroll_offset + visible →
  auto_scroll cursor_display_row visible scroll_offset = scroll_offset.
Proof.
  intros H. unfold auto_scroll.
  destruct (Z.leb_spec (scroll_offset + visible) cursor_display_row); [lia |].
  by destruct (Z.ltb_spec cursor_display_row scroll_offset); [lia |].
Qed.

Lemma visible_rows_ok (height char_height : Z) :
  1 <= (height - 100) / (char_height + 4) →
  visible_rows height char_height = Ok ((height - 100) / (char_height + 4)).
Proof.
  intros Hv. unfold visible_rows. destruct (Z.eqb_spec (char_height + 4) 0) as [E |]; [| done].
  rewrite E, Z.div_0_r in Hv. lia.
Qed.

(** X15. With at least one visible row, [_draw_content] run again on the
    same state repeats itself: started from the scroll offset it left, it
    leaves that offset and draws the same rows. The frames of one hold show
    one picture, and the scroll position does not drift. *)
Theorem draw_content_repeats (columns height char_height : Z) (patterns : list str)
        (m : mode) (b : Buffer.t) (scroll_offset scroll_offset' : Z)
        (drawn : list drawn_row) :
  1 <= (height - 100) / (char_height + 4) →
  draw_content columns height char_height patterns m b scroll_offset
  = Ok (scroll_offset', drawn) →
  draw_content columns height char_height patterns m b scroll_offset'
  = Ok (scroll_offset', drawn).
Proof.
  intros Hv H. unfold draw_content in *.
  destruct (layout columns b) as [[dls cur] | |]; try done. cbn [bind] in *.
  rewrite visible_rows_ok in * by done. cbn [bind] in *.
  destruct (draw_rows patterns m dls cur (auto_scroll cur.1 _ scroll_offset) _)
    as [rows | |] eqn:Hrows; try done.
  cbn [bind] in H. injection H as <- <-.
  rewrite auto_scroll_stable by (by apply auto_scroll_window).
  by rewrite Hrows.
Qed.

Lemma draw_content_repeats_witness :
  1 <= (720 - 100) / (16 + 4) ∧
  draw_content 80 720 16 [] INSERT (Buffer.mk (replicate 40 (s "line")) 39 4) 9
  = draw_content 80 720 16 [] INSERT (Buffer.mk (replicate 40 (s "line")) 39 4) 0.
Proof.
  assert (1 <= (720 - 100) / (16 + 4)) as Hv by (vm_compute; discriminate).
  split; [exact Hv |].
  destruct (draw_content 80 720 16 [] INSERT (Buffer.mk (replicate 40 (s "line")) 39 4) 0)
    as [[so' drawn] | |] eqn:H;
    [| vm_compute in H; discriminate H | vm_compute in H; discriminate H].
  assert (so' = 9) as -> by (vm_compute in H; by injection H as <- _).
  exact (draw_content_repeats 80 720 16 [] INSERT _ 0 9 drawn Hv H).
Defined.

Lemma glyphs_plain (patterns : list str) (line : str) :
  glyphs (draw_line_plain patterns line) = line.
Proof.
  unfold glyphs, draw_line_plain. cbn [cells_of]. rewrite fmap_imap.
  rewrite (imap_ext _ (const id)) by done. by rewrite imap_const, list_fmap_id.
Qed.

Lemma glyphs_with_cursor (patterns : list str) (line : str) (cursor_col : Z) :
  glyphs (draw_line_with_cursor patterns line cursor_col) = line.
Proof.
  unfold glyphs, draw_line_with_cursor. cbn [cells_of]. rewrite fmap_imap.
  rewrite (imap_ext _ (const id)); [by rewrite imap_const, list_fmap_id |].
  intros i x _. simpl. by destruct (Z.of_nat i =? cursor_col).
Qed.

(** A drawn row shows the display line at its position in the window, or
    the tilde past the last display line. *)
Lemma draw_row_window (patterns : list str) (m : mode) (dls : list str) (cur : Z * Z)
      (scroll_offset : Z) (r : nat) (row : drawn_row) :
  0 <= scroll_offset →
  draw_row patterns m dls cur scroll_offset r = Ok row →
  match dls !! (r + Z.to_nat scroll_offset)%nat with
  | Some line => glyphs row = line
  | None => row = TildeRow
  end.
Proof.
  intros Hs. unfold draw_row.
  destruct (Z.ltb_spec (Z.of_nat r + scroll_offset) (len dls)) as [Hlt | Hge].
  - unfold getitem. rewrite index_in_range by lia. cbn [mbind option_bind].
    replace (Z.to_nat (Z.of_nat r + scroll_offset)) with (r + Z.to_nat scroll_offset)%nat by lia.
    destruct (dls !! (r + Z.to_nat scroll_offset)%nat) as [line |]; [| done]. simpl.
    destruct m; [intros [= <-]; apply glyphs_plain |].
    destruct (_ =? _); intros [= <-]; [apply glyphs_with_cursor | apply glyphs_plain].
  - intros [= <-]. rewrite lookup_ge_None_2; [done |]. unfold len in Hge. lia.
Qed.

Lemma draw_rows_window (patterns : list str) (m : mode) (dls : list str) (cur : Z * Z)
      (scroll_offset : Z) (rows : list nat) :
  0 <= scroll_offset →
  ∀ drawn,
    draw_rows patterns m dls cur scroll_offset rows = Ok drawn →
    length drawn = length rows ∧
    ∀ (k r : nat) (row : drawn_row),
      rows !! k = Some r → drawn !! k = Some row →
      match dls !! (r + Z.to_nat scroll_offset)%nat with
      | Some line => glyphs row = line
      | None => row = TildeRow
      end.
Proof.
  intros Hs. induction rows as [| r0 rows IH]; intros drawn H; cbn [draw_rows] in H.
  - injection H as <-. split; [done |]. by intros [| k] r row.
  - destruct (draw_row patterns m dls cur scroll_offset r0) as [x | |] eqn:Hrow; try done.
    cbn [bind] in H.
    destruct (draw_rows patterns m dls cur scroll_offset rows) as [xs | |]; try done.
    cbn [bind] in H. injection H as <-. destruct (IH xs eq_refl) as [Hlen Hrows].
    split; [simpl; by rewrite Hlen |].
    intros [| k] r row Hr Hk; simpl in *.
    + injection Hr as <-. injection Hk as <-. by apply draw_row_window in Hrow.
    + by eapply Hrows.
Qed.

(** X16. Started with a scroll offset that is not negative, whenever
    [_draw_content] returns it has drawn one row for each visible row, and
    the [k]-th row shows the display line [k + scroll_offset] of the layout
    (with the scroll offset it leaves), or the tilde when the layout has no
    such display line. *)
Theorem drawn_rows_are_the_window (columns height char_height : Z) (patterns : list str)
        (m : mode) (b : Buffer.t) (scroll_offset scroll_offset' : Z)
        (drawn : list drawn_row) :
  0 <= scroll_offset →
  draw_content columns height char_height patterns m b scroll_offset
  = Ok (scroll_offset', drawn) →
  ∃ display_lines cur,
    layout columns b = Ok (display_lines, cur) ∧
    len drawn = Z.max 0 ((height - 100) / (char_height + 4)) ∧
    ∀ (k : nat) (row : drawn_row),
      drawn !! k = Some row →
      match display_lines !! (k + Z.to_nat scroll_offset')%nat with
      | Some line => glyphs row = line
      | None => row = TildeRow
      end.
Proof.
  intros Hs H. unfold draw_content in H.
  destruct (layout columns b) as [[dls cur] | |] eqn:Hlay; try done. cbn [bind] in H.
  unfold visible_rows in H. destruct (char_height + 4 =? 0); [done |]. cbn [bind] in H.
  set (visible := (height - 100) / (char_height + 4)) in *.
  destruct (draw_rows _ _ _ _ _ _) as [rows | |] eqn:Hrows; try done.
  cbn [bind] in H. injection H as <- <-. exists dls, cur. split; [done |].
  destruct (Z.le_gt_cases visible 0) as [Hnone | Hsome].
  - replace (Z.to_nat visible) with 0%nat in Hrows by lia. simpl in Hrows.
    injection Hrows as <-. split; [unfold len; simpl; lia | by intros [| k] row].
  - assert (0 <= auto_scroll cur.1 visible scroll_offset) as Hs'.
    { apply auto_scroll_nonneg; [lia | done |].
      eapply layout_lines_row_nonneg; [| exact Hlay]. simpl. lia. }
    destruct (draw_rows_window _ _ _ _ _ _ Hs' _ Hrows) as [Hlen Hwin].
    rewrite length_seq in Hlen. split; [unfold len; lia |].
    intros k row Hk. apply (Hwin k k row); [| done].
    apply lookup_seq_lt. apply lookup_lt_Some in Hk. lia.
Qed.

Lemma drawn_rows_are_the_window_witness :
  0 <= 0 ∧
  ∃ scroll_offset' drawn display_lines cur,
    draw_content 11 140 16 [] NORMAL (Buffer.mk [s "the quick brown fox"] 0 0) 0
    = Ok (scroll_offset', drawn) ∧
    layout 11 (Buffer.mk [s "the quick brown fox"] 0 0) = Ok (display_lines, cur) ∧
    len drawn = Z.max 0 ((140 - 100) / (16 + 4)) ∧
    ∀ (k : nat) (row : drawn_row),
      drawn !! k = Some row →
      match display_lines !! (k + Z.to_nat scroll_offset')%nat with
      | Some line => glyphs row = line
      | None => row = TildeRow
      end.
Proof.
  split; [lia |].
  destruct (draw_content 11 140 16 [] NORMAL (Buffer.mk [s "the quick brown fox"] 0 0) 0)
    as [[so' drawn] | |] eqn:H;
    [| vm_compute in H; discriminate H | vm_compute in H; discriminate H].
  exists so', drawn.
  destruct (drawn_rows_are_the_window 11 140 16 [] NORMAL _ 0 so' drawn ltac:(lia) H)
    as (dls & cur & Hlay & Hrest).
  exists dls, cur. split; [reflexivity |]. split; [exact Hlay | exact Hrest].
Defined.

End DrawnRows.

(** ** The cursor block *)

Section CursorBlock.

Import Layout View.

Lemma cursor_marks_plain (patterns : list str) (line : str) :
  cursor_marks (draw_line_plain patterns line) = 0%nat.
Proof.
  unfold draw_line_plain. cbn [cursor_marks]. rewrite Nat.add_0_r.
  assert (∀ (l : str) (f : nat → ascii → cell),
            (∀ i x, on_cursor (f i x) = false) →
            filter (λ c, on_cursor c = true) (imap f l) = []) as Hnone.
  { induction l as [| c l IH]; intros f Hf; [done |]. simpl.
    rewrite filter_cons_False by (rewrite Hf; discriminate). apply IH. intros i x. apply Hf. }
  by rewrite Hnone.
Qed.

(** A line drawn with the cursor holds one cursor block: on the character at
    the cursor column, or after the last character. *)
Lemma cursor_marks_with_cursor (patterns : list str) (line : str) (cursor_col : Z) :
  0 <= cursor_col <= len line →
  cursor_marks (draw_line_with_cursor patterns line cursor_col) = 1%nat.
Proof.
  intros Hcol. unfold draw_line_with_cursor. cbn [cursor_marks].
  assert (∀ l : str,
            length (filter (λ c, on_cursor c = true)
                      (imap (λ col char,
                               if Z.of_nat col =? cursor_col then mk_cell char ColorBg true
                               else mk_cell char (get_char_color patterns line col) false) l))
            = if decide (cursor_col < len l) then 1%nat else 0%nat) as Hcount.
  { induction l as [| c l IH] using rev_ind.
    - simpl. destruct (decide (cursor_col < len [])); [unfold len in *; simpl in *; lia | done].
    - rewrite imap_app, filter_app, length_app, IH, len_app. change (len [c]) with 1.
      cbn [imap]. rewrite Nat.add_0_r.
      destruct (Z.eqb_spec (Z.of_nat (length l)) cursor_col) as [E | E].
      + rewrite filter_cons_True by done. simpl length.
        repeat case_decide; unfold len in *; lia.
      + rewrite filter_cons_False by (simpl; discriminate). simpl length.
        repeat case_decide; unfold len in *; lia. }
  rewrite Hcount.
  destruct (decide (cursor_col < len line)), (Z.leb_spec (len line) cursor_col); lia.
Qed.

(** In insert mode the rows drawn hold as many cursor blocks as there are
    screen rows that show the cursor's display line. *)
Lemma draw_rows_marks (patterns : list str) (dls : list str) (drow dcol : Z) (chosen : str)
      (scroll_offset : Z) (rows : list nat) :
  0 <= scroll_offset → 0 <= drow →
  dls !! Z.to_nat drow = Some chosen → 0 <= dcol <= len chosen →
  ∀ drawn,
    draw_rows patterns INSERT dls (drow, dcol) scroll_offset rows = Ok drawn →
    sum_list (cursor_marks <$> drawn)
    = length (filter (λ r, Z.of_nat r + scroll_offset = drow) rows).
Proof.
  intros Hs Hdrow Hchosen Hdcol.
  induction rows as [| r rows IH]; intros drawn H; cbn [draw_rows] in H.
  - by injection H as <-.
  - destruct (draw_row patterns INSERT dls (drow, dcol) scroll_offset r) as [x | |] eqn:Hrow;
      try done.
    cbn [bind] in H.
    destruct (draw_rows patterns INSERT dls (drow, dcol) scroll_offset rows) as [xs | |];
      try done.
    cbn [bind] in H. injection H as <-. rewrite fmap_cons. cbn [sum_list sum_list_with].
    rewrite (IH xs eq_refl). unfold draw_row in Hrow. cbn [fst snd] in Hrow.
    destruct (Z.ltb_spec (Z.of_nat r + scroll_offset) (len dls)) as [Hlt | Hge].
    + unfold getitem in Hrow. rewrite index_in_range in Hrow by lia.
      cbn [mbind option_bind] in Hrow.
      destruct (Z.eqb_spec (Z.of_nat r + scroll_offset) drow) as [E | E].
      * rewrite E, Hchosen in Hrow. simpl in Hrow. injection Hrow as <-.
        rewrite cursor_marks_with_cursor by done.
        by rewrite filter_cons_True by done.
      * destruct (dls !! Z.to_nat (Z.of_nat r + scroll_offset)) as [line |]; [| done].
        simpl in Hrow. injection Hrow as <-.
        rewrite cursor_marks_plain. by rewrite filter_cons_False by done.
    + injection Hrow as <-. cbn [cursor_marks]. rewrite filter_cons_False; [done |].
      apply lookup_lt_Some in Hchosen. unfold len in Hge. lia.
Qed.

Lemma draw_rows_no_marks (patterns : list str) (dls : list str) (cur : Z * Z)
      (scroll_offset : Z) (rows : list nat) :
  ∀ drawn,
    draw_rows patterns NORMAL dls cur scroll_offset rows = Ok drawn →
    sum_list (cursor_marks <$> drawn) = 0%nat.
Proof.
  induction rows as [| r rows IH]; intros drawn H; cbn [draw_rows] in H.
  - by injection H as <-.
  - destruct (draw_row patterns NORMAL dls cur scroll_offset r) as [x | |] eqn:Hrow; try done.
    cbn [bind] in H.
    destruct (draw_rows patterns NORMAL dls cur scroll_offset rows) as [xs | |]; try done.
    cbn [bind] in H. injection H as <-. rewrite fmap_cons. cbn [sum_list sum_list_with].
    rewrite (IH xs eq_refl). unfold draw_row in Hrow.
    destruct (_ <? _); [| by injection Hrow as <-].
    destruct (getitem dls _) as [[i line] |]; [| done].
    injection Hrow as <-. by rewrite cursor_marks_plain.
Qed.

Lemma count_in_seq (n : nat) (offset target : Z) :
  offset <= target < offset + Z.of_nat n →
  length (filter (λ r, Z.of_nat r + offset = target) (seq 0 n)) = 1%nat.
Proof.
  intros Hin.
  assert (∀ m, length (filter (λ r, Z.of_nat r + offset = target) (seq 0 m))
               = if decide (target < offset + Z.of_nat m) then 1%nat else 0%nat) as Hcount.
  { induction m as [| m IH].
    - simpl. case_decide; [lia | done].
    - rewrite seq_S, filter_app, length_app, IH. cbn [Nat.add].
      destruct (decide (Z.of_nat m + offset = target)).
      + rewrite filter_cons_True by done. simpl length. repeat case_decide; lia.
      + rewrite filter_cons_False by done. simpl length. repeat case_decide; lia. }
  rewrite Hcount. case_decide; [done | lia].
Qed.

(** X17. On a buffer inside its contract, with at least one visible row and
    a scroll offset that was not negative, whenever [_draw_content] returns
    the rows it has drawn hold exactly one cursor block in insert mode and
    none in normal mode. *)
Theorem cursor_drawn_once (columns height char_height : Z) (patterns : list str)
        (m : mode) (b : Buffer.t) (scroll_offset scroll_offset' : Z)
        (drawn : list drawn_row) :
  Buffer.valid b →
  1 <= (height - 100) / (char_height + 4) →
  0 <= scroll_offset →
  draw_content columns height char_height patterns m b scroll_offset
  = Ok (scroll_offset', drawn) →
  sum_list (cursor_marks <$> drawn) = match m with INSERT => 1%nat | NORMAL => 0%nat end.
Proof.
  intros Hb Hv Hs H. unfold draw_content in H.
  destruct (layout columns b) as [[dls [drow dcol]] | |] eqn:Hlay; try done.
  cbn [bind] in H. rewrite visible_rows_ok in H by done. cbn [bind fst] in H.
  set (visible := (height - 100) / (char_height + 4)) in *.
  destruct (draw_rows _ _ _ _ _ _) as [rows | |] eqn:Hrows; try done.
  cbn [bind] in H. injection H as <- <-.
  destruct m; [by eapply draw_rows_no_marks |].
  destruct (valid_at_cursor b Hb) as (above & left & right & below & ->).
  destruct (layout_at_cursor _ _ _ _ _ _ _ Hlay) as (wrapped & da & db & Hwrap & -> & Hloc).
  apply locate_cursor_on_segment in Hloc as (j & seg & Hj & -> & Hdcol);
    [| apply len_nonneg].
  pose proof (len_nonneg da) as Hda.
  assert ((da ++ wrapped ++ db) !! Z.to_nat (len da + Z.of_nat j) = Some seg) as Hchosen.
  { replace (Z.to_nat (len da + Z.of_nat j)) with (length da + j)%nat by (unfold len; lia).
    by rewrite lookup_app_r, Nat.add_comm, Nat.add_sub, lookup_app_l
      by (try apply lookup_lt_Some in Hj; lia). }
  pose proof (auto_scroll_window (len da + Z.of_nat j) visible scroll_offset Hv) as Hwin.
  assert (0 <= auto_scroll (len da + Z.of_nat j) visible scroll_offset) as Hs'
      by (apply auto_scroll_nonneg; lia).
  assert (0 <= len da + Z.of_nat j) as Hrow by lia.
  rewrite (draw_rows_marks _ _ _ _ seg _ _ Hs' Hrow Hchosen Hdcol _ Hrows).
  apply count_in_seq. lia.
Qed.

Lemma cursor_drawn_once_witness :
  Buffer.valid (Buffer.mk [s "the quick brown fox"] 0 12) ∧
  1 <= (140 - 100) / (16 + 4) ∧ 0 <= 0 ∧
  ∃ scroll_offset' drawn,
    draw_content 11 140 16 [] INSERT (Buffer.mk [s "the quick brown fox"] 0 12) 0
    = Ok (scroll_offset', drawn) ∧
    sum_list (cursor_marks <$> drawn) = 1%nat.
Proof.
  assert (Buffer.valid (Buffer.mk [s "the quick brown fox"] 0 12)) as Hb
      by apply (at_cursor_valid [] (s "the quick br") (s "own fox") []).
  assert (1 <= (140 - 100) / (16 + 4)) as Hv by (vm_compute; discriminate).
  split; [exact Hb |]. split; [exact Hv |]. split; [lia |].
  destruct (draw_content 11 140 16 [] INSERT (Buffer.mk [s "the quick brown fox"] 0 12) 0)
    as [[so' drawn] | |] eqn:H;
    [| vm_compute in H; discriminate H | vm_compute in H; discriminate H].
  exists so', drawn. split; [reflexivity |].
  exact (cursor_drawn_once 11 140 16 [] INSERT _ 0 so' drawn Hb Hv ltac:(lia) H).
Defined.

End CursorBlock.

(** ** Hold durations at the edges *)

Section FrameEdges.

Import Frames.

Lemma truncate_nonneg (m : positive) (e : Z) : 0 <= truncate m e.
Proof.
  unfold truncate. destruct (Z.leb_spec 0 e).
  - apply Z.mul_nonneg_nonneg; [lia | apply Z.pow_nonneg; lia].
  - apply Z.div_pos; [lia | apply Z.pow_pos_nonneg; lia].
Qed.

(** X18. For a frame rate that converts to a float, [_add_frame] depends on
    the product [duration * fps] as follows: a NaN raises [ValueError], an
    infinity raises [OverflowError], a zero or a negative product writes the
    frame once, and a positive product writes it at least once; every frame
    written is the one rendered. *)
Theorem add_frame_edges {F} (fps : Z) (frame : F) (duration f : float) :
  float_of_int fps = Ok f →
  match Prim2SF (duration * f) with
  | S754_nan => add_frame fps frame duration = Raise ValueError
  | S754_infinity _ => add_frame fps frame duration = Raise OverflowError
  | S754_zero _ | S754_finite true _ _ => add_frame fps frame duration = Ok [frame]
  | S754_finite false _ _ =>
      ∃ n, 1 <= n ∧ add_frame fps frame duration = Ok (replicate (Z.to_nat n) frame)
  end.
Proof.
  intros Hf. unfold add_frame, num_frames, int_of_float. rewrite Hf. cbn [bind].
  destruct (Prim2SF (duration * f)) as [sg | sg | | sg m e]; cbn [bind]; try done.
  destruct sg; cbn [bind].
  - pose proof (truncate_nonneg m e). by replace (Z.max 1 (- truncate m e)) with 1 by lia.
  - exists (Z.max 1 (truncate m e)). split; [lia | done].
Qed.

Lemma add_frame_edges_witness :
  float_of_int 30 = Ok 30%float ∧
  add_frame 30 () (-1)%float = Ok [()] ∧
  add_frame 30 () nan = Raise ValueError ∧
  add_frame 30 () infinity = Raise OverflowError.
Proof.
  assert (float_of_int 30 = Ok 30%float) as Hf by (vm_compute; reflexivity).
  split; [exact Hf |]. split; [| split].
  - pose proof (add_frame_edges 30 () (-1)%float 30%float Hf) as H.
    replace (Prim2SF (-1 * 30)) with (S754_finite true 8444249301319680 (-48)) in H
      by (vm_compute; reflexivity).
    exact H.
  - pose proof (add_frame_edges 30 () nan 30%float Hf) as H.
    replace (Prim2SF (nan * 30)) with S754_nan in H by (vm_compute; reflexivity).
    exact H.
  - pose proof (add_frame_edges 30 () infinity 30%float Hf) as H.
    replace (Prim2SF (infinity * 30)) with (S754_infinity false) in H
      by (vm_compute; reflexivity).
    exact H.
Defined.

End FrameEdges.

(** ** Where the picture is drawn *)

Section PixelBounds.

Import Layout Pixels.

Lemma char_xs_position (char_width : Z) (line : str) :
  ∀ (x_pos x : Z),
    x ∈ char_xs char_width x_pos line →
    ∃ k : nat, (k < length line)%nat ∧ x = x_pos + Z.of_nat k * char_width.
Proof.
  induction line as [| c line IH]; intros x_pos x Hx; simpl in Hx.
  - by apply elem_of_nil in Hx.
  - apply elem_of_cons in Hx as [-> | Hx].
    + exists 0%nat. simpl. split; lia.
    + destruct (IH _ _ Hx) as (k & Hk & ->). exists (S k). simpl. split; lia.
Qed.

Lemma char_xs_with_cursor_position (char_width cursor_col : Z) (line : str) :
  ∀ (col : nat) (x_pos x : Z),
    x ∈ char_xs_with_cursor char_width cursor_col col x_pos line →
    ∃ k : nat, (k < length line)%nat ∧
               x_pos + Z.of_nat k * char_width <= x <= x_pos + Z.of_nat k * char_width + 1.
Proof.
  induction line as [| c line IH]; intros col x_pos x Hx; simpl in Hx.
  - by apply elem_of_nil in Hx.
  - apply elem_of_cons in Hx as [-> | Hx].
    + exists 0%nat. simpl. destruct (Z.of_nat col =? cursor_col); split; lia.
    + destruct (IH _ _ _ Hx) as (k & Hk & Hx'). exists (S k). simpl. split; lia.
Qed.

Lemma cursor_rects_position (char_width char_height cursor_col y_pos : Z) (line : str) :
  ∀ (col : nat) (x_pos : Z) (x0 y0 x1 y1 : Z),
    (x0, y0, x1, y1) ∈ cursor_rects char_width char_height cursor_col y_pos col x_pos line →
    ∃ k : nat, (k <= length line)%nat ∧ x0 = x_pos + Z.of_nat k * char_width ∧
               x1 = x0 + char_width + 2 ∧ y0 = y_pos - 2 ∧ y1 = y_pos + char_height + 2.
Proof.
  induction line as [| c line IH]; intros col x_pos x0 y0 x1 y1 Hin; simpl in Hin.
  - destruct (Z.of_nat col <=? cursor_col); [| by apply elem_of_nil in Hin].
    apply list_elem_of_singleton in Hin. injection Hin as -> -> -> ->.
    exists 0%nat. simpl. repeat split; lia.
  - apply elem_of_app in Hin as [Hin | Hin].
    + destruct (Z.of_nat col =? cursor_col); [| by apply elem_of_nil in Hin].
      apply list_elem_of_singleton in Hin. injection Hin as -> -> -> ->.
      exists 0%nat. simpl. repeat split; lia.
    + destruct (IH _ _ _ _ _ _ Hin) as (k & Hk & -> & -> & -> & ->).
      exists (S k). simpl. repeat split; lia.
Qed.

(** X19. After the auto-adjustment of the width in [__init__], with
    [columns - 1] at least 1 and a character width that is not negative,
    the layout returns and no display line is drawn past the right edge:
    every character starts at 25 or right of it and ends within the width,
    drawn by [_draw_line_plain] or by [_draw_line_with_cursor] (which
    draws the character under the cursor one pixel to the right), and so
    does the cursor rectangle, wherever the cursor is on the line. *)
Theorem text_within_width (width columns char_width : Z) (b : Buffer.t) :
  1 <= columns - 1 → 0 <= char_width →
  ∃ display_lines cur,
    layout columns b = Ok (display_lines, cur) ∧
    ∀ dl, dl ∈ display_lines →
      (∀ x, x ∈ char_xs char_width 25 dl →
            25 <= x ∧ x + char_width <= adjusted_width width columns char_width) ∧
      (∀ cursor_col x,
         x ∈ char_xs_with_cursor char_width cursor_col 0 25 dl →
         25 <= x ∧ x + char_width <= adjusted_width width columns char_width) ∧
      (∀ char_height cursor_col y_pos x0 y0 x1 y1,
         (x0, y0, x1, y1) ∈ cursor_rects char_width char_height cursor_col y_pos 0 25 dl →
         25 <= x0 ∧ x1 <= adjusted_width width columns char_width).
Proof.
  intros Hcolumns Hcw.
  destruct (layout_total (columns - 1) Hcolumns columns b eq_refl) as (ws & cur & Hlay & _ & Hfits).
  exists (concat ws), cur. split; [done |]. intros dl Hdl.
  unfold fits in Hfits. rewrite Forall_forall in Hfits. specialize (Hfits dl Hdl).
  assert (columns * char_width + 100 <= adjusted_width width columns char_width) as Hwidth.
  { unfold adjusted_width. destruct (Z.ltb_spec width (columns * char_width + 100)); lia. }
  unfold len in Hfits. split; [| split].
  - intros x Hx. apply char_xs_position in Hx as (k & Hk & ->). split; [nia |].
    assert ((Z.of_nat k + 1) * char_width <= (columns - 1) * char_width) by nia. nia.
  - intros cursor_col x Hx. apply char_xs_with_cursor_position in Hx as (k & Hk & Hx).
    split; [nia |].
    assert ((Z.of_nat k + 1) * char_width <= (columns - 1) * char_width) by nia. nia.
  - intros char_height cursor_col y_pos x0 y0 x1 y1 Hin.
    apply cursor_rects_position in Hin as (k & Hk & -> & -> & _). split; [nia |].
    assert (Z.of_nat k * char_width <= (columns - 1) * char_width) by nia. nia.
Qed.

Lemma text_within_width_witness :
  1 <= 11 - 1 ∧ 0 <= 14 ∧
  ∃ display_lines cur,
    layout 11 (Buffer.mk [s "the quick brown fox"] 0 12) = Ok (display_lines, cur) ∧
    ∀ dl, dl ∈ display_lines →
      (∀ x, x ∈ char_xs 14 25 dl → 25 <= x ∧ x + 14 <= adjusted_width 200 11 14) ∧
      (∀ cursor_col x,
         x ∈ char_xs_with_cursor 14 cursor_col 0 25 dl →
         25 <= x ∧ x + 14 <= adjusted_width 200 11 14) ∧
      (∀ char_height cursor_col y_pos x0 y0 x1 y1,
         (x0, y0, x1, y1) ∈ cursor_rects 14 char_height cursor_col y_pos 0 25 dl →
         25 <= x0 ∧ x1 <= adjusted_width 200 11 14).
Proof.
  split; [lia |]. split; [lia |].
  exact (text_within_width 200 11 14 (Buffer.mk [s "the quick brown fox"] 0 12)
           ltac:(lia) ltac:(lia)).
Defined.

Lemma row_ys_position (char_height : Z) (n : nat) :
  ∀ (y_pos y : Z),
    y ∈ row_ys char_height y_pos n →
    ∃ k : nat, (k < n)%nat ∧ y = y_pos + Z.of_nat k * (char_height + 4).
Proof.
  induction n as [| n IH]; intros y_pos y Hy; simpl in Hy.
  - by apply elem_of_nil in Hy.
  - apply elem_of_cons in Hy as [-> | Hy].
    + exists 0%nat. split; lia.
    + destruct (IH _ _ Hy) as (k & Hk & ->). exists (S k). split; lia.
Qed.

(** X20. With a positive row height [char_height + 4], every screen row of
    [_draw_content] lies above the status bar of [_draw_status]: a row
    starts at 30 or below it, and the cursor rectangle of the row, which
    reaches 2 pixels below the characters, ends above [status_y]. *)
Theorem rows_above_status (height char_height visible : Z) :
  0 < char_height + 4 →
  visible_rows height char_height = Ok visible →
  ∀ y, y ∈ row_ys char_height 30 (Z.to_nat visible) →
       30 <= y ∧ y + char_height + 2 < status_y height.
Proof.
  intros Hrow Hvisible y Hy. unfold visible_rows in Hvisible.
  destruct (char_height + 4 =? 0); [done |]. injection Hvisible as <-.
  apply row_ys_position in Hy as (k & Hk & ->). unfold status_y.
  pose proof (Z.mul_div_le (height - 100) (char_height + 4) Hrow) as Hdiv.
  set (visible := (height - 100) / (char_height + 4)) in *. split; [nia |].
  assert ((Z.of_nat k + 1) * (char_height + 4) <= visible * (char_height + 4)) by nia. nia.
Qed.

Lemma rows_above_status_witness :
  0 < 16 + 4 ∧ visible_rows 720 16 = Ok 31 ∧
  ∀ y, y ∈ row_ys 16 30 (Z.to_nat 31) → 30 <= y ∧ y + 16 + 2 < status_y 720.
Proof.
  assert (visible_rows 720 16 = Ok 31) as Hv by reflexivity.
  split; [lia |]. split; [exact Hv |].
  exact (rows_above_status 720 16 31 ltac:(lia) Hv).
Defined.

Lemma greeting_rows_position (width char_width char_height : Z) (welcome_lines : list str) :
  ∀ (y_pos : Z) (j : nat) (y : Z) (x : option Z),
    greeting_rows width char_width char_height y_pos welcome_lines !! j = Some (y, x) →
    y = y_pos + Z.of_nat j * (char_height + 4) ∧
    ∃ line, welcome_lines !! j = Some line ∧
            x = if nonempty line then Some ((width - len line * char_width) / 2) else None.
Proof.
  induction welcome_lines as [| line rest IH]; intros y_pos j y x H; [done |].
  destruct j as [| j]; simpl in H.
  - injection H as <- <-. split; [lia | eauto].
  - destruct (IH _ _ _ _ H) as (-> & l & Hl & ->). split; [lia | eauto].
Qed.

(** X21. When the greeting has no more lines than there are visible rows,
    [_draw_greeting] centres it: the block of greeting lines starts on a
    visible row, ends on one, and has as many free rows below it as above
    it, or one more; each line that is not empty has as many free pixels
    right of its text as left of it, or one more. *)
Theorem greeting_centred (width height char_width char_height visible : Z)
        (welcome_lines : list str) :
  visible_rows height char_height = Ok visible →
  len welcome_lines <= visible →
  ∃ rows start_row,
    draw_greeting width height char_width char_height welcome_lines = Ok rows ∧
    0 <= start_row ∧ start_row + len welcome_lines <= visible ∧
    0 <= (visible - len welcome_lines - start_row) - start_row <= 1 ∧
    ∀ (j : nat) (y : Z) (x : option Z),
      rows !! j = Some (y, x) →
      y = 30 + (start_row + Z.of_nat j) * (char_height + 4) ∧
      ∀ x_center, x = Some x_center →
        ∃ line, welcome_lines !! j = Some line ∧
                0 <= (width - len line * char_width - x_center) - x_center <= 1.
Proof.
  intros Hvisible Hfit. unfold draw_greeting. rewrite Hvisible. cbn [bind].
  set (free := visible - len welcome_lines) in *.
  exists (greeting_rows width char_width char_height (30 + free / 2 * (char_height + 4))
            welcome_lines), (free / 2).
  pose proof (Z.div_mod free 2 ltac:(lia)) as Hdm.
  pose proof (Z.mod_pos_bound free 2 ltac:(lia)) as Hmod.
  split; [done |]. split; [lia |]. split; [lia |]. split; [lia |].
  intros j y x Hj. apply greeting_rows_position in Hj as (-> & line & Hline & ->).
  split; [lia |]. intros x_center Hx. exists line. split; [done |].
  destruct (nonempty line); [| done]. injection Hx as <-.
  set (room := width - len line * char_width).
  pose proof (Z.div_mod room 2 ltac:(lia)). pose proof (Z.mod_pos_bound room 2 ltac:(lia)).
  lia.
Qed.

Lemma greeting_centred_witness :
  visible_rows 720 16 = Ok 31 ∧
  len [s "VIM - Vi IMproved"; []; s "version 9.0"] <= 31 ∧
  ∃ rows start_row,
    draw_greeting 1280 720 14 16 [s "VIM - Vi IMproved"; []; s "version 9.0"] = Ok rows ∧
    0 <= start_row ∧ start_row + len [s "VIM - Vi IMproved"; []; s "version 9.0"] <= 31 ∧
    0 <= (31 - len [s "VIM - Vi IMproved"; []; s "version 9.0"] - start_row) - start_row <= 1 ∧
    ∀ (j : nat) (y : Z) (x : option Z),
      rows !! j = Some (y, x) →
      y = 30 + (start_row + Z.of_nat j) * (16 + 4) ∧
      ∀ x_center, x = Some x_center →
        ∃ line, [s "VIM - Vi IMproved"; []; s "version 9.0"] !! j = Some line ∧
                0 <= (1280 - len line * 14 - x_center) - x_center <= 1.
Proof.
  assert (visible_rows 720 16 = Ok 31) as Hv by reflexivity.
  assert (len [s "VIM - Vi IMproved"; []; s "version 9.0"] <= 31) as Hfit
      by (unfold len; simpl; lia).
  split; [exact Hv |]. split; [exact Hfit |].
  exact (greeting_centred 1280 720 14 16 31 _ Hv Hfit).
Defined.

End PixelBounds.

(** ** The simulation from the first frame to the last *)

Section Simulation.

Import Layout Typing Driver Text.

Lemma exec_app (xs ys : list step) :
  ∀ st frames,
    exec (xs ++ ys) st frames
    = match exec xs st frames with
      | Returned (st', frames') => exec ys st' frames'
      | Raised e r => Raised e r
      end.
Proof.
  induction xs as [| x xs IH]; intros st frames; simpl; [done |].
  destruct (exec_step x st frames) as [[st' frames'] | e r]; [apply IH | done].
Qed.

(** The calls of the typing script act on the buffer alone, and each of
    their frames is rendered in the mode the script runs in. *)
Lemma exec_calls (cs : list call) :
  ∀ b m cmd b',
    run cs b = Returned b' →
    ∃ typing,
      (∀ frames, exec (Call <$> cs) (mk_sim b m cmd) frames
                 = Returned (mk_sim b' m cmd, frames ++ typing)) ∧
      Forall (λ f, mode (shown f) = m ∧ greeting f = shows_greeting (shown f)) typing.
Proof.
  induction cs as [| c cs IH]; intros b m cmd b' Hrun; simpl in Hrun.
  - injection Hrun as <-. exists []. split; [| done]. intros frames. by rewrite app_nil_r.
  - destruct c as [char | | d].
    + cbn [run_call] in Hrun.
      destruct (Buffer.type_character char b) as [b1 | e b1] eqn:E; [| done]. simpl in Hrun.
      destruct (IH b1 m cmd b' Hrun) as (typing & Hexec & Hall).
      exists typing. split; [| done]. intros frames. rewrite fmap_cons.
      cbn [exec exec_step run_call buffer mode command_buffer]. rewrite E. apply Hexec.
    + cbn [run_call] in Hrun.
      destruct (Buffer.backspace b) as [b1 | e b1] eqn:E; [| done]. simpl in Hrun.
      destruct (IH b1 m cmd b' Hrun) as (typing & Hexec & Hall).
      exists typing. split; [| done]. intros frames. rewrite fmap_cons.
      cbn [exec exec_step run_call buffer mode command_buffer]. rewrite E. apply Hexec.
    + simpl in Hrun. destruct (IH b m cmd b' Hrun) as (typing & Hexec & Hall).
      exists (mk_frame d (shows_greeting (mk_sim b m cmd)) (mk_sim b m cmd) :: typing).
      split; [| by constructor]. intros frames. rewrite fmap_cons.
      cbn [exec exec_step]. rewrite Hexec. by rewrite <- app_assoc.
Qed.

Lemma split_empty (t : str) : split newline t = [[]] → t = [].
Proof. intros H. by rewrite <- (join_split newline t), H. Qed.

(** X22. Whenever [_simulate_typing] gets through the typing, the frames it
    renders come in three runs. The frames before insert mode (three, and
    the greeting frame in front when [show_greeting] is set) all show the
    greeting, whether [show_greeting] is set or not. The frames in insert
    mode show the content. The last three frames are rendered in normal
    mode from the final document (the expansion of the text, split at its
    newlines), and they show the greeting again exactly when that document
    is empty. *)
Theorem simulation_frames (cfg : Config) (show_greeting : bool) (greeting_duration : float)
        (filename_in_vim text : str) (g : rng) (steps : list step) (g' : rng) :
  simulate_typing cfg show_greeting greeting_duration filename_in_vim text g = Ok (steps, g') →
  ∃ final opening typing closing,
    exec steps Driver.initial [] = Returned (final, opening ++ typing ++ closing) ∧
    mode final = NORMAL ∧
    buffer final
    = at_end (split newline (expand_lines (special_sequences cfg) (split newline text))) ∧
    length opening = (if show_greeting then 4 else 3)%nat ∧
    Forall (λ f, greeting f = true) opening ∧
    Forall (λ f, mode (shown f) = INSERT ∧ greeting f = false) typing ∧
    length closing = 3%nat ∧
    Forall (λ f, buffer (shown f) = buffer final ∧ mode (shown f) = NORMAL ∧
                 (greeting f = true
                  ↔ expand_lines (special_sequences cfg) (split newline text) = []))
           closing.
Proof.
  unfold simulate_typing. intros H.
  destruct (type_text cfg text g) as [[cs g1] | |] eqn:Htext; try done.
  cbn [bind] in H. injection H as <- <-.
  set (E := expand_lines (special_sequences cfg) (split newline text)).
  assert (run cs Buffer.initial = Returned (at_end (split newline E))) as Hrun.
  { rewrite (type_text_leaves_expansion cfg text g cs g1 _ initial_valid Htext).
    apply run_typed_initial. }
  assert (∀ cmd, shows_greeting (mk_sim (at_end (split newline E)) NORMAL cmd) = true
                 ↔ E = []) as Hgreet.
  { intros cmd. unfold shows_greeting. simpl. rewrite andb_true_r, bool_decide_eq_true.
    split; [apply split_empty | by intros ->]. }
  destruct (exec_calls cs Buffer.initial INSERT [] _ Hrun) as (typing & Hexec & Htyping).
  exists (mk_sim (at_end (split newline E)) NORMAL
            (quote :: filename_in_vim ++ quote :: s " written")).
  destruct show_greeting.
  - eexists [_; _; _; _], (_ :: typing), [_; _; _]. split.
    { cbn [app exec exec_step]. rewrite exec_app, Hexec. cbn [app exec exec_step].
      rewrite <- !app_assoc. reflexivity. }
    split; [done |]. split; [done |]. split; [done |].
    split; [by repeat constructor |]. split.
    { constructor; [done |]. eapply Forall_impl; [exact Htyping |].
      intros f [Hm ->]. split; [done |]. unfold shows_greeting. by rewrite Hm, andb_false_r. }
    split; [done |]. repeat constructor; simpl; apply Hgreet.
  - eexists [_; _; _], (_ :: typing), [_; _; _]. split.
    { cbn [app exec exec_step]. rewrite exec_app, Hexec. cbn [app exec exec_step].
      rewrite <- !app_assoc. reflexivity. }
    split; [done |]. split; [done |]. split; [done |].
    split; [by repeat constructor |]. split.
    { constructor; [done |]. eapply Forall_impl; [exact Htyping |].
      intros f [Hm ->]. split; [done |]. unfold shows_greeting. by rewrite Hm, andb_false_r. }
    split; [done |]. repeat constructor; simpl; apply Hgreet.
Qed.

Lemma simulation_frames_witness :
  ∃ steps g' final opening typing closing,
    simulate_typing example_config false 2 (s "notes.txt") (s "teh cat") example_rng = Ok (steps, g') ∧
    exec steps Driver.initial [] = Returned (final, opening ++ typing ++ closing) ∧
    length opening = 3%nat ∧
    Forall (λ f, greeting f = true) opening ∧
    length closing = 3%nat ∧
    Forall (λ f, buffer (shown f) = buffer final ∧ mode (shown f) = NORMAL ∧
                 (greeting f = true
                  ↔ expand_lines (special_sequences example_config) (split newline (s "teh cat")) = []))
           closing.
Proof.
  destruct (simulate_typing example_config false 2 (s "notes.txt") (s "teh cat") example_rng)
    as [[steps g'] | |] eqn:H;
    [| vm_compute in H; discriminate H | vm_compute in H; discriminate H].
  destruct (simulation_frames _ _ _ _ _ _ _ _ H)
    as (final & opening & typing & closing & Hexec & _ & _ & Hlen & Hopen & _ & Hlen' & Hclose).
  exists steps, g', final, opening, typing, closing.
  split; [reflexivity |]. split; [exact Hexec |]. split; [exact Hlen |].
  split; [exact Hopen |]. split; [exact Hlen' | exact Hclose].
Defined.

End Simulation.

(** ** The run on the simulator, frames included *)

Section Running.

Import Layout Typing Text.

Lemma bind_ok {A B} (r : result A) (f : A → result B) (y : B) :
  bind r f = Ok y → ∃ a, r = Ok a ∧ f a = Ok y.
Proof. destruct r as [a | |]; simpl; [eauto | done | done]. Qed.

(** With a width of at least 1, a row height that is not 0 and a scroll
    offset that is not negative, [_draw_content] returns, and the offset it
    leaves is not negative. *)
Lemma draw_content_returns (columns height char_height : Z) (patterns : list str)
      (m : mode) (b : Buffer.t) (scroll_offset : Z) :
  1 <= columns - 1 → char_height + 4 ≠ 0 → 0 <= scroll_offset →
  ∃ scroll_offset' drawn,
    draw_content columns height char_height patterns m b scroll_offset
    = Ok (scroll_offset', drawn) ∧ 0 <= scroll_offset'.
Proof.
  intros Hw Hch Hso. unfold draw_content.
  destruct (layout_total (columns - 1) Hw columns b eq_refl) as (ws & cur & Hlay & _).
  assert (0 <= cur.1) as Hrow.
  { eapply layout_lines_row_nonneg; [| exact Hlay]. simpl. lia. }
  rewrite Hlay. cbn [bind]. unfold visible_rows.
  destruct (Z.eqb_spec (char_height + 4) 0); [done |]. cbn [bind].
  set (visible := (height - 100) / (char_height + 4)).
  assert (0 <= auto_scroll cur.1 visible scroll_offset) as Hso'.
  { unfold auto_scroll. destruct (Z.leb_spec (scroll_offset + visible) cur.1); [lia |].
    destruct (Z.ltb_spec cur.1 scroll_offset); lia. }
  destruct (draw_rows_ok patterns m (concat ws) cur (auto_scroll cur.1 visible scroll_offset)
              (seq 0 (Z.to_nat visible)) Hso') as (drawn & ->).
  cbn [bind]. eauto.
Qed.

(** [_render_frame] assigns no field but [scroll_offset]. *)
Lemma render_frame_sim (e : Machine.setup) (st st' : Machine.state) (frame : Machine.picture) :
  Machine.render_frame e st = Ok (st', frame) → Machine.sim st' = Machine.sim st.
Proof.
  unfold Machine.render_frame. destruct (Driver.shows_greeting _).
  - destruct (Pixels.draw_greeting _ _ _ _ _); simpl; [| done | done]. by intros [= <- _].
  - destruct (draw_content _ _ _ _ _ _ _) as [[so rows] | |]; simpl; [| done | done].
    by intros [= <- _].
Qed.

Lemma render_frame_returns (e : Machine.setup) (st : Machine.state) :
  1 <= columns (Machine.config e) - 1 → Machine.char_height e + 4 ≠ 0 →
  0 <= Machine.scroll_offset st →
  ∃ st' frame, Machine.render_frame e st = Ok (st', frame) ∧ 0 <= Machine.scroll_offset st'.
Proof.
  intros Hw Hch Hso. unfold Machine.render_frame. destruct (Driver.shows_greeting _).
  - unfold Pixels.draw_greeting, visible_rows.
    destruct (Z.eqb_spec (Machine.char_height e + 4) 0); [done |]. cbn [bind]. eauto.
  - destruct (draw_content_returns (columns (Machine.config e)) (height (Machine.config e))
                (Machine.char_height e) (highlight_patterns (Machine.config e))
                (Driver.mode (Machine.sim st)) (Driver.buffer (Machine.sim st))
                (Machine.scroll_offset st) Hw Hch Hso) as (so' & drawn & -> & Hso').
    cbn [bind]. eauto.
Qed.

(** A call that returns on the simulator has the effect on the buffer that
    [run_call] gives, and leaves the mode and the command line. *)
Lemma machine_exec_call_run (e : Machine.setup) (c : call) (st st' : Machine.state) :
  Machine.exec_call e c st = Ok st' →
  run_call c (Machine.document st) = Returned (Machine.document st') ∧
  Driver.mode (Machine.sim st') = Driver.mode (Machine.sim st) ∧
  Driver.command_buffer (Machine.sim st') = Driver.command_buffer (Machine.sim st).
Proof.
  unfold Machine.document. destruct c as [char | | d]; simpl.
  - destruct (Buffer.type_character char _) as [b | ex b]; [| done]. by intros [= <-].
  - destruct (Buffer.backspace _) as [b | ex b]; [| done]. by intros [= <-].
  - unfold Machine.add_frame.
    destruct (Machine.render_frame e st) as [[st1 frame] | |] eqn:Hr; try done. cbn [bind].
    destruct (Frames.add_frame _ frame d) as [written | |]; try done. cbn [bind].
    intros [= <-]. apply render_frame_sim in Hr. by rewrite Hr.
Qed.

Lemma machine_exec_run (e : Machine.setup) (cs : list call) :
  ∀ st st',
    Machine.exec e cs st = Ok st' →
    run cs (Machine.document st) = Returned (Machine.document st') ∧
    Driver.mode (Machine.sim st') = Driver.mode (Machine.sim st) ∧
    Driver.command_buffer (Machine.sim st') = Driver.command_buffer (Machine.sim st).
Proof.
  induction cs as [| c cs IH]; intros st st' H; simpl in H.
  - by injection H as <-.
  - apply bind_ok in H as (st1 & Hcall & Hrest).
    apply machine_exec_call_run in Hcall as (Hrun & Hmode & Hcmd).
    apply IH in Hrest as (Hrun' & Hmode' & Hcmd'). simpl. rewrite Hrun. simpl.
    split; [done |]. split; congruence.
Qed.

Lemma machine_exec_app (e : Machine.setup) (cs1 cs2 : list call) (st : Machine.state) :
  Machine.exec e (cs1 ++ cs2) st = bind (Machine.exec e cs1 st) (Machine.exec e cs2).
Proof.
  revert st. induction cs1 as [| c cs1 IH]; intros st; simpl; [done |].
  destruct (Machine.exec_call e c st) as [st1 | |]; simpl; [apply IH | done | done].
Qed.

Lemma counts_app (e : Machine.setup) (cs1 cs2 : list call) :
  Machine.counts e (cs1 ++ cs2) = Machine.counts e cs1 && Machine.counts e cs2.
Proof. apply forallb_app. Qed.

(** The calls return when the frames can be rendered and every hold gives
    a frame count. *)
Lemma machine_exec_returns (e : Machine.setup) (cs : list call) :
  1 <= columns (Machine.config e) - 1 → Machine.char_height e + 4 ≠ 0 →
  ∀ st,
    Buffer.valid (Machine.document st) → 0 <= Machine.scroll_offset st →
    Machine.counts e cs = true →
    ∃ st', Machine.exec e cs st = Ok st' ∧
           Buffer.valid (Machine.document st') ∧ 0 <= Machine.scroll_offset st'.
Proof.
  intros Hw Hch. induction cs as [| c cs IH]; intros st Hb Hso Hc; simpl; [eauto |].
  cbn [Machine.counts forallb] in Hc. apply andb_true_iff in Hc as [Hc Hcs].
  assert (∃ st1, Machine.exec_call e c st = Ok st1 ∧
                 Buffer.valid (Machine.document st1) ∧ 0 <= Machine.scroll_offset st1)
    as (st1 & -> & Hb1 & Hso1).
  { destruct c as [char | | d].
    - destruct (run_call_valid (TypeCharacter char) _ Hb) as (b1 & Hrun & Hb1).
      unfold Machine.document in Hrun. simpl in *. rewrite Hrun. eauto.
    - destruct (run_call_valid Backspace _ Hb) as (b1 & Hrun & Hb1).
      unfold Machine.document in Hrun. simpl in *. rewrite Hrun. eauto.
    - destruct (render_frame_returns e st Hw Hch Hso) as (st1 & frame & Hr & Hso1).
      simpl. unfold Machine.add_frame. rewrite Hr. cbn [bind]. unfold Frames.add_frame.
      destruct (Frames.num_frames _ d) as [n | |]; try done. cbn [bind].
      exists st1. split; [done |]. split; [| done].
      unfold Machine.document. by rewrite (render_frame_sim _ _ _ _ Hr). }
  cbn [bind]. by apply IH.
Qed.

(** The script never raises. *)
Lemma type_line_not_raise (cfg : Config) (line : str) (fuel : nat) :
  ∀ (char_idx : nat) (g : rng) (ex : exn), type_line fuel cfg line char_idx g ≠ Raise ex.
Proof.
  induction fuel as [| fuel IH]; intros char_idx g ex; simpl.
  - by destruct (line !! char_idx).
  - destruct (line !! char_idx) as [char |]; [| done].
    destruct (type_step cfg line char_idx char g) as [[cs char_idx'] g'].
    specialize (IH char_idx' g').
    destruct (type_line fuel cfg line char_idx' g') as [[cs' g''] | ex' |]; simpl;
      [done | by destruct (IH ex') | done].
Qed.

Lemma type_lines_not_raise (cfg : Config) (ls : list str) :
  ∀ (g : rng) (ex : exn), type_lines cfg ls g ≠ Raise ex.
Proof.
  induction ls as [| line ls IH]; intros g ex; simpl; [done |].
  destruct (type_line (length line) cfg line 0 g) as [[cs1 g1] | ex1 |] eqn:Hl; simpl;
    [| by apply type_line_not_raise in Hl | done].
  specialize (IH g1).
  destruct (type_lines cfg ls g1) as [[cs2 g2] | ex2 |]; simpl;
    [done | by destruct (IH ex2) | done].
Qed.

(** The loop over a line on the simulator runs the script of the line. *)
Lemma machine_type_line_script (e : Machine.setup) (line : str) (fuel : nat) :
  ∀ (char_idx : nat) (g : rng) (st : Machine.state) cs g',
    type_line fuel (Machine.config e) line char_idx g = Ok (cs, g') →
    Machine.type_line fuel e line char_idx g st
    = bind (Machine.exec e cs st) (λ st', Ok (st', g')).
Proof.
  induction fuel as [| fuel IH]; intros char_idx g st cs g' H; simpl in *.
  - destruct (line !! char_idx); [done |]. by injection H as <- <-.
  - destruct (line !! char_idx) as [char |]; [| by injection H as <- <-].
    destruct (type_step (Machine.config e) line char_idx char g) as [[cs1 char_idx'] g1].
    destruct (type_line fuel (Machine.config e) line char_idx' g1) as [[cs2 g2] | |] eqn:Hrest;
      try done.
    simpl in H. injection H as <- <-. rewrite machine_exec_app.
    destruct (Machine.exec e cs1 st) as [st1 | |]; simpl; [| done | done].
    by apply IH.
Qed.

(** A script that does not end does not return on the simulator either. *)
Lemma machine_type_line_unending (e : Machine.setup) (line : str) (fuel : nat) :
  ∀ (char_idx : nat) (g : rng) (st : Machine.state),
    type_line fuel (Machine.config e) line char_idx g = Loops →
    ∀ r, Machine.type_line fuel e line char_idx g st ≠ Ok r.
Proof.
  induction fuel as [| fuel IH]; intros char_idx g st H r; simpl in *.
  - by destruct (line !! char_idx).
  - destruct (line !! char_idx) as [char |]; [| done].
    destruct (type_step (Machine.config e) line char_idx char g) as [[cs1 char_idx'] g1].
    destruct (type_line fuel (Machine.config e) line char_idx' g1) as [[cs2 g2] | |] eqn:Hrest;
      try done.
    destruct (Machine.exec e cs1 st) as [st1 | |]; simpl; [| done | done].
    by apply IH.
Qed.

(** [len(line)] iterations decide the loop on the simulator as well: with
    more iterations it returns in the same cases, with the same result. *)
Lemma machine_type_line_fuel (e : Machine.setup) (line : str) (fuel fuel' char_idx : nat)
      (g : rng) (st : Machine.state) (r : Machine.state * rng) :
  (length line <= char_idx + fuel)%nat → (fuel <= fuel')%nat →
  Machine.type_line fuel' e line char_idx g st = Ok r
  ↔ Machine.type_line fuel e line char_idx g st = Ok r.
Proof.
  intros Hlen Hfuel.
  pose proof (type_line_fuel (Machine.config e) line fuel char_idx g fuel' Hlen Hfuel) as Heq.
  destruct (type_line fuel (Machine.config e) line char_idx g) as [[cs g'] | ex |] eqn:H.
  - by rewrite (machine_type_line_script e line fuel' _ _ st cs g' Heq),
      (machine_type_line_script e line fuel _ _ st cs g' H).
  - by apply type_line_not_raise in H.
  - split; intros Hok.
    + by apply (machine_type_line_unending e line fuel' _ _ st Heq) in Hok.
    + by apply (machine_type_line_unending e line fuel _ _ st H) in Hok.
Qed.

Lemma machine_type_lines_script (e : Machine.setup) (ls : list str) :
  ∀ (g : rng) (st : Machine.state) cs g',
    type_lines (Machine.config e) ls g = Ok (cs, g') →
    Machine.type_lines e ls g st = bind (Machine.exec e cs st) (λ st', Ok (st', g')).
Proof.
  induction ls as [| line ls IH]; intros g st cs g' H; simpl in H.
  - by injection H as <- <-.
  - destruct (type_line (length line) (Machine.config e) line 0 g) as [[cs1 g1] | |] eqn:Hline;
      try done.
    simpl in H.
    destruct (type_lines (Machine.config e) ls g1) as [[cs2 g2] | |] eqn:Hlines; try done.
    simpl in H. injection H as <- <-. cbn [Machine.type_lines].
    rewrite (machine_type_line_script e line _ _ _ st cs1 g1 Hline), machine_exec_app.
    destruct (Machine.exec e cs1 st) as [st1 | |]; cbn [bind]; [| done | done].
    destruct ls as [| line' ls].
    + simpl in Hlines. by injection Hlines as <- <-.
    + rewrite machine_exec_app.
      destruct (Machine.exec e [TypeCharacter newline; AddFrame _] st1) as [st2 | |];
        cbn [bind]; [| done | done].
      by apply IH.
Qed.

Lemma machine_type_lines_unending (e : Machine.setup) (ls : list str) :
  ∀ (g : rng) (st : Machine.state),
    type_lines (Machine.config e) ls g = Loops →
    ∀ r, Machine.type_lines e ls g st ≠ Ok r.
Proof.
  induction ls as [| line ls IH]; intros g st H r; simpl in H; [done |].
  cbn [Machine.type_lines]. intros Hok.
  apply bind_ok in Hok as ([st1 g1'] & Hline' & Hok).
  apply bind_ok in Hok as (st2 & _ & Hok).
  destruct (type_line (length line) (Machine.config e) line 0 g) as [[cs1 g1] | |] eqn:Hline;
    try done.
  - rewrite (machine_type_line_script e line _ _ _ st cs1 g1 Hline) in Hline'.
    apply bind_ok in Hline' as (st1' & _ & [= <- <-]). simpl in H.
    destruct (type_lines (Machine.config e) ls g1) as [[cs2 g2] | |] eqn:Hlines; try done.
    by apply (IH g1 st2 Hlines r).
  - by apply (machine_type_line_unending e line _ _ _ st Hline) in Hline'.
Qed.

(** Whenever [_type_text] returns on the simulator, its script has ended,
    the simulator has run it, and the buffer is the one the script's
    effect on the buffer gives. *)
Lemma machine_type_text_ok (e : Machine.setup) (text : str) (g g' : rng)
      (st st' : Machine.state) :
  Machine.type_text e text g st = Ok (st', g') →
  ∃ cs, type_text (Machine.config e) text g = Ok (cs, g') ∧
        Machine.exec e cs st = Ok st' ∧
        run cs (Machine.document st) = Returned (Machine.document st').
Proof.
  unfold Machine.type_text, type_text. intros H.
  destruct (type_lines (Machine.config e) (split newline text) g) as [[cs g1] | ex |] eqn:Hs.
  - rewrite (machine_type_lines_script e _ g st cs g1 Hs) in H.
    apply bind_ok in H as (st1 & Hexec & [= <- <-]).
    exists cs. split; [done |]. split; [done |]. by apply machine_exec_run in Hexec as [? _].
  - by apply type_lines_not_raise in Hs.
  - by apply (machine_type_lines_unending e _ g st Hs) in H.
Qed.

Lemma run_make_mistake (cfg : Config) (g : rng) (b : Buffer.t) :
  Buffer.valid b → run (make_mistake cfg g).1 b = Returned b.
Proof.
  intros Hb. unfold make_mistake.
  destruct (random_choice (s "qwertyuiop") g) as [wrong_char g']. simpl.
  pose proof (type_then_backspace wrong_char b Hb) as Hundo.
  destruct (Buffer.type_character wrong_char b); simpl in *; [| done]. by rewrite Hundo.
Qed.

(** The wrapping and the layout raise nothing. *)
Lemma wrap_words_not_raise (width : Z) (words : list str) :
  ∀ (acc : list str * str) (ex : exn), wrap_words width acc words ≠ Raise ex.
Proof.
  induction words as [| word words IH]; intros [wrapped cur] ex; cbn [wrap_words]; [done |].
  unfold wrap_word. destruct (_ <=? _); cbn [bind]; [apply IH |].
  destruct (width <? len word); cbn [bind]; [| apply IH].
  destruct (split_long _ _ _ _) as [acc' |]; cbn [bind]; [apply IH | done].
Qed.

Lemma wrap_line_not_raise (text : str) (width : Z) (ex : exn) :
  wrap_line text width ≠ Raise ex.
Proof.
  unfold wrap_line. destruct (_ <=? _); [done |].
  pose proof (wrap_words_not_raise width (split space text) ([], [])) as H.
  destruct (wrap_words width ([], []) (split space text)) as [[w c] | ex' |]; cbn [bind];
    [done | by destruct (H ex') | done].
Qed.

Lemma layout_lines_not_raise (columns row col : Z) (ls : list str) :
  ∀ (i : nat) (dl : list str) (cur : Z * Z) (ex : exn),
    layout_lines columns row col i ls dl cur ≠ Raise ex.
Proof.
  induction ls as [| line ls IH]; intros i dl cur ex; cbn [layout_lines]; [done |].
  destruct (len line <=? columns - 1); [apply IH |].
  destruct (wrap_line line (columns - 1)) as [wrapped | ex' |] eqn:Hwrap; cbn [bind];
    [| by apply wrap_line_not_raise in Hwrap | done].
  destruct (Z.of_nat i =? row); cbn [bind]; [| apply IH].
  destruct (locate_cursor_ok wrapped col (len dl) (wrap_line_nonempty _ _ _ Hwrap))
    as [cur1 ->].
  cbn [bind]. apply IH.
Qed.

(** [_draw_content] raises only on a row height of 0, and a scroll offset
    that is not negative stays so. *)
Lemma draw_content_outcome (columns height char_height : Z) (patterns : list str)
      (m : mode) (b : Buffer.t) (scroll_offset : Z) :
  0 <= scroll_offset →
  match draw_content columns height char_height patterns m b scroll_offset with
  | Ok (scroll_offset', _) => 0 <= scroll_offset'
  | Raise ex => ex = ZeroDivisionError
  | Loops => True
  end.
Proof.
  intros Hso. unfold draw_content.
  pose proof (layout_lines_not_raise columns (Buffer.cursor_row b) (Buffer.cursor_col b)
                (Buffer.lines b) 0 [] (0, Buffer.cursor_col b)) as Hnr.
  destruct (layout columns b) as [[dls cur] | ex |] eqn:Hlay;
    [| by destruct (Hnr ex) | done].
  assert (0 <= cur.1) as Hrow.
  { eapply layout_lines_row_nonneg; [| exact Hlay]. simpl. lia. }
  cbn [bind]. unfold visible_rows.
  destruct (Z.eqb_spec (char_height + 4) 0); [done |]. cbn [bind].
  set (visible := (height - 100) / (char_height + 4)).
  assert (0 <= auto_scroll cur.1 visible scroll_offset) as Hso'.
  { unfold auto_scroll. destruct (Z.leb_spec (scroll_offset + visible) cur.1); [lia |].
    destruct (Z.ltb_spec cur.1 scroll_offset); lia. }
  destruct (draw_rows_ok patterns m dls cur (auto_scroll cur.1 visible scroll_offset)
              (seq 0 (Z.to_nat visible)) Hso') as (drawn & ->).
  done.
Qed.

Lemma render_frame_outcome (e : Machine.setup) (st : Machine.state) :
  0 <= Machine.scroll_offset st →
  match Machine.render_frame e st with
  | Ok (st', _) => 0 <= Machine.scroll_offset st'
  | Raise ex => ex = ZeroDivisionError
  | Loops => True
  end.
Proof.
  intros Hso. unfold Machine.render_frame. destruct (Driver.shows_greeting _).
  - unfold Pixels.draw_greeting, visible_rows.
    by destruct (Z.eqb_spec (Machine.char_height e + 4) 0).
  - pose proof (draw_content_outcome (columns (Machine.config e)) (height (Machine.config e))
                  (Machine.char_height e) (highlight_patterns (Machine.config e))
                  (Driver.mode (Machine.sim st)) (Driver.buffer (Machine.sim st))
                  (Machine.scroll_offset st) Hso) as H.
    by destruct (draw_content _ _ _ _ _ _ _) as [[so rows] | |].
Qed.

(** The frame count raises [ValueError] or [OverflowError], nothing else. *)
Lemma add_frame_raise {F} (fps : Z) (frame : F) (duration : float) (ex : exn) :
  Frames.add_frame fps frame duration = Raise ex → ex = ValueError ∨ ex = OverflowError.
Proof.
  unfold Frames.add_frame, Frames.num_frames, Frames.float_of_int, Frames.int_of_float.
  destruct (binary_normalize _ _ _ _ _); cbn [bind];
    try (by intros [= <-]; auto);
    destruct (Prim2SF _); cbn [bind]; try done; intros [= <-]; auto.
Qed.

(** From a buffer inside its contract and a scroll offset that is not
    negative, a run raises only out of a frame. *)
Lemma machine_exec_raise (e : Machine.setup) (cs : list call) (ex : exn) :
  ∀ st,
    Buffer.valid (Machine.document st) → 0 <= Machine.scroll_offset st →
    Machine.exec e cs st = Raise ex →
    ex = ZeroDivisionError ∨ ex = ValueError ∨ ex = OverflowError.
Proof.
  induction cs as [| c cs IH]; intros st Hb Hso H; simpl in H; [done |].
  destruct c as [char | | d].
  - destruct (run_call_valid (TypeCharacter char) _ Hb) as (b1 & Hrun & Hb1).
    unfold Machine.document in Hrun. simpl in *. rewrite Hrun in H. cbn [bind] in H.
    by apply IH in H.
  - destruct (run_call_valid Backspace _ Hb) as (b1 & Hrun & Hb1).
    unfold Machine.document in Hrun. simpl in *. rewrite Hrun in H. cbn [bind] in H.
    by apply IH in H.
  - simpl in H. unfold Machine.add_frame in H.
    pose proof (render_frame_outcome e st Hso) as Hr.
    destruct (Machine.render_frame e st) as [[st1 frame] | ex1 |] eqn:Hrender;
      cbn [bind] in H; [| injection H as <-; auto | done].
    destruct (Frames.add_frame _ frame d) as [written | ex2 |] eqn:Hadd; cbn [bind] in H;
      [| injection H as <-; apply add_frame_raise in Hadd; tauto | done].
    apply IH in H; [done | | done].
    unfold Machine.document. by rewrite (render_frame_sim _ _ _ _ Hrender).
Qed.

(** X3. Whatever sequence of typed characters, backspaces and frames the
    simulator is given from its initial state: the keystrokes of the
    sequence all return, they keep the buffer inside its contract, and no
    line of the document holds a newline character (a typed newline always
    splits the line). Whenever the whole sequence, frames included,
    returns on the simulator, the document is the one the keystrokes give;
    and when it raises, the exception is one of a frame
    ([ZeroDivisionError] of the row height, [ValueError] or
    [OverflowError] of the frame count), never the [IndexError] of a
    buffer method (the imaging libraries and the writer taken to return).
    Every point of a run is the end of such a sequence. *)
Theorem lines_never_hold_newline (e : Machine.setup) (cs : list call) :
  ∃ b, run (keys cs) Buffer.initial = Returned b ∧ Buffer.valid b ∧
       Forall (λ line, newline ∉ line) (Buffer.lines b) ∧
       (∀ st, Machine.exec e cs Machine.initial = Ok st → Machine.document st = b) ∧
       (∀ ex, Machine.exec e cs Machine.initial = Raise ex →
              ex = ZeroDivisionError ∨ ex = ValueError ∨ ex = OverflowError).
Proof.
  destruct (run_text (keys cs) Buffer.initial initial_valid) as (b & Hrun & Hb & _ & Hclean).
  exists b. split; [done |]. split; [done |]. split; [apply Hclean, clean_initial |]. split.
  - intros st H. apply machine_exec_run in H as [H _].
    rewrite run_keys in H. change (Machine.document Machine.initial) with Buffer.initial in H.
    congruence.
  - intros ex H. eapply machine_exec_raise; [| | exact H]; [apply initial_valid | done].
Qed.

(** X5. A mistake is undone: on a buffer inside its contract, whenever the
    calls of [_make_mistake] return, the buffer, the mode and the command
    line are as they were, whatever the random source. The calls return
    when the frames can be rendered ([columns - 1] at least 1, a row height
    that is not 0, a scroll offset that is not negative) and the three
    hold durations give a frame count. *)
Theorem mistake_leaves_buffer (e : Machine.setup) (g : rng) (st : Machine.state) :
  Buffer.valid (Machine.document st) →
  (∀ st', Machine.exec e (make_mistake (Machine.config e) g).1 st = Ok st' →
          Machine.sim st' = Machine.sim st) ∧
  (1 <= columns (Machine.config e) - 1 → Machine.char_height e + 4 ≠ 0 →
   0 <= Machine.scroll_offset st →
   Machine.counts e (make_mistake (Machine.config e) g).1 = true →
   ∃ st', Machine.exec e (make_mistake (Machine.config e) g).1 st = Ok st').
Proof.
  intros Hb. split.
  - intros st' H. apply machine_exec_run in H as (Hrun & Hmode & Hcmd).
    rewrite run_make_mistake in Hrun by done. injection Hrun as Hdoc.
    unfold Machine.document in Hdoc.
    destruct (Machine.sim st'), (Machine.sim st). simpl in *. congruence.
  - intros Hw Hch Hso Hc.
    destruct (machine_exec_returns e _ Hw Hch st Hb Hso Hc) as (st' & H & _). eauto.
Qed.

Lemma mistake_leaves_buffer_witness :
  Buffer.valid (Machine.document
                  (Machine.mk_state (Driver.mk_sim (Buffer.mk [s "ab"; s "cd"] 1 1) INSERT []) 0)) ∧
  ∃ st',
    Machine.exec (Samples.setup_of example_config)
      (make_mistake example_config example_rng).1
      (Machine.mk_state (Driver.mk_sim (Buffer.mk [s "ab"; s "cd"] 1 1) INSERT []) 0)
    = Ok st' ∧
    Machine.sim st' = Driver.mk_sim (Buffer.mk [s "ab"; s "cd"] 1 1) INSERT [].
Proof.
  assert (Buffer.valid (Buffer.mk [s "ab"; s "cd"] 1 1)) as Hb
      by apply (at_cursor_valid [s "ab"] (s "c") (s "d") []).
  split; [exact Hb |].
  destruct (mistake_leaves_buffer (Samples.setup_of example_config) example_rng
              (Machine.mk_state (Driver.mk_sim (Buffer.mk [s "ab"; s "cd"] 1 1) INSERT []) 0)
              Hb) as [Hsame Hreturns].
  destruct Hreturns as [st' H];
    [vm_compute; discriminate | vm_compute; discriminate | simpl; lia
    | vm_compute; reflexivity |].
  exists st'. split; [exact H | exact (Hsame st' H)].
Defined.

(** With a correction pause that is not a number the second frame of the
    mistake raises: the wrong character is typed and not taken back. *)
Example mistake_with_nan_pause :
  Machine.exec (Samples.setup_of Samples.config_nan_pause)
    (take 2 (make_mistake Samples.config_nan_pause example_rng).1) Samples.typing_state
  = Ok (Machine.mk_state (Driver.mk_sim (Buffer.mk [s "q"] 0 1) INSERT []) 0) ∧
  Machine.exec (Samples.setup_of Samples.config_nan_pause)
    (make_mistake Samples.config_nan_pause example_rng).1 Samples.typing_state
  = Raise ValueError.
Proof. split; vm_compute; reflexivity. Qed.

(** X6. When no key of [special_sequences] is the empty string, the script
    of [_type_text] ends for every text and every random source; and with
    [columns - 1] at least 1, a row height that is not 0, a buffer inside
    its contract and a scroll offset that is not negative, [_type_text]
    returns on the simulator provided every hold duration of the script
    gives a frame count. The buffer is then the one the script's effect on
    the buffer gives. *)
Theorem type_text_returns (e : Machine.setup) (text : str) (g : rng) (st : Machine.state) :
  (∀ pattern sq, (pattern, sq) ∈ special_sequences (Machine.config e) → pattern ≠ []) →
  1 <= columns (Machine.config e) - 1 → Machine.char_height e + 4 ≠ 0 →
  Buffer.valid (Machine.document st) → 0 <= Machine.scroll_offset st →
  ∃ cs g',
    type_text (Machine.config e) text g = Ok (cs, g') ∧
    (Machine.counts e cs = true →
     ∃ st', Machine.type_text e text g st = Ok (st', g') ∧
            run cs (Machine.document st) = Returned (Machine.document st')).
Proof.
  intros Hkeys Hw Hch Hb Hso.
  destruct (type_lines_total (Machine.config e) (split newline text) Hkeys g) as [[cs g'] H].
  exists cs, g'. split; [done |]. intros Hc.
  destruct (machine_exec_returns e cs Hw Hch st Hb Hso Hc) as (st' & Hexec & _).
  exists st'. unfold Machine.type_text.
  rewrite (machine_type_lines_script e _ g st cs g' H), Hexec. split; [done |].
  by apply machine_exec_run in Hexec as [? _].
Qed.

Lemma type_text_returns_witness :
  (∀ pattern sq, (pattern, sq) ∈ special_sequences example_config → pattern ≠ []) ∧
  ∃ cs g' st',
    type_text example_config (s "I see teh cat") example_rng = Ok (cs, g') ∧
    Machine.counts (Samples.setup_of example_config) cs = true ∧
    Machine.type_text (Samples.setup_of example_config) (s "I see teh cat") example_rng
      Samples.typing_state
    = Ok (st', g') ∧
    run cs Buffer.initial = Returned (Machine.document st').
Proof.
  assert (∀ pattern sq, (pattern, sq) ∈ special_sequences example_config → pattern ≠ [])
    as Hkeys.
  { intros pattern sq Hin. apply list_elem_of_singleton in Hin. by injection Hin as -> _. }
  split; [exact Hkeys |].
  destruct (type_text_returns (Samples.setup_of example_config) (s "I see teh cat")
              example_rng Samples.typing_state Hkeys)
    as (cs & g' & Hscript & Hrun);
    [vm_compute; discriminate | vm_compute; discriminate | exact initial_valid
    | simpl; lia |].
  assert (Machine.counts (Samples.setup_of example_config) cs = true) as Hc.
  { change (special_sequences (Machine.config (Samples.setup_of example_config)))
      with (special_sequences example_config) in *.
    vm_compute in Hscript. injection Hscript as <- _. vm_compute. reflexivity. }
  destruct (Hrun Hc) as (st' & Htext & Hdoc).
  exists cs, g', st'. split; [exact Hscript |]. split; [exact Hc |].
  split; [exact Htext | exact Hdoc].
Defined.

(** X7. When the first entry of [special_sequences] has the empty string as
    its key, [_type_text] never returns on a text that has a line with a
    character in it: the empty key matches at the first position and the
    position does not advance, so the loop runs until a frame raises or
    hangs, or for ever. *)
Theorem type_text_never_returns_on_empty_key (e : Machine.setup) (sq : sequence)
        (rest : list (str * sequence)) (text : str) (g : rng) (st : Machine.state) :
  special_sequences (Machine.config e) = ([], sq) :: rest →
  (∃ line, line ∈ split newline text ∧ line ≠ []) →
  ∀ r, Machine.type_text e text g st ≠ Ok r.
Proof.
  intros Htable Hline. apply machine_type_lines_unending.
  by eapply type_lines_loops.
Qed.

Lemma type_text_never_returns_on_empty_key_witness :
  special_sequences (Machine.config (Samples.setup_of Samples.config_empty_key))
  = ([], Plain (s "x")) :: [] ∧
  (∃ line, line ∈ split newline (s "a") ∧ line ≠ []) ∧
  ∀ r, Machine.type_text (Samples.setup_of Samples.config_empty_key) (s "a") example_rng
         Samples.typing_state ≠ Ok r.
Proof.
  assert (∃ line, line ∈ split newline (s "a") ∧ line ≠ []) as Hline.
  { exists (s "a"). split; [apply list_elem_of_here | done]. }
  split; [reflexivity |]. split; [exact Hline |].
  exact (type_text_never_returns_on_empty_key (Samples.setup_of Samples.config_empty_key)
           (Plain (s "x")) [] (s "a") example_rng Samples.typing_state eq_refl Hline).
Defined.

(** The two ways not to return on an empty key: the loop goes on, or a
    frame raises (a correction pause that is not a number). And without
    any special sequence: at one column the first frame after a character
    hangs in [_wrap_line]. *)
Example type_text_on_empty_key :
  Machine.type_text (Samples.setup_of Samples.config_empty_key) (s "a") example_rng
    Samples.typing_state = Loops ∧
  Machine.type_text (Samples.setup_of Samples.config_empty_key_nan) (s "a") example_rng
    Samples.typing_state = Raise ValueError ∧
  Machine.type_text (Samples.setup_of Samples.config_one_column) (s "a") example_rng
    Samples.typing_state = Loops.
Proof. repeat split; vm_compute; reflexivity. Qed.

(** X9. With no special sequences configured, the script of [_type_text]
    ends for every text and every random source, mistake injection
    included; and with [columns - 1] at least 1 and a row height that is
    not 0, started on the initial buffer with a scroll offset that is not
    negative, [_type_text] returns on the simulator provided every hold
    duration of the script gives a frame count, and leaves the lines
    [text.split('\n')] with the cursor at the end of the last line. *)
Theorem type_text_plain (e : Machine.setup) (text : str) (g : rng) (st : Machine.state) :
  special_sequences (Machine.config e) = [] →
  1 <= columns (Machine.config e) - 1 → Machine.char_height e + 4 ≠ 0 →
  Machine.document st = Buffer.initial → 0 <= Machine.scroll_offset st →
  ∃ cs g',
    type_text (Machine.config e) text g = Ok (cs, g') ∧
    (Machine.counts e cs = true →
     ∃ st', Machine.type_text e text g st = Ok (st', g') ∧
            Machine.document st' = at_end (split newline text)).
Proof.
  intros Htable Hw Hch Hdoc Hso.
  destruct (type_lines_total (Machine.config e) (split newline text)) with (g := g)
    as [[cs g'] H].
  { intros pattern sq Hin. rewrite Htable in Hin. by apply elem_of_nil in Hin. }
  exists cs, g'. split; [done |]. intros Hc.
  assert (Buffer.valid (Machine.document st)) as Hb by (rewrite Hdoc; apply initial_valid).
  destruct (machine_exec_returns e cs Hw Hch st Hb Hso Hc) as (st' & Hexec & _).
  exists st'. unfold Machine.type_text.
  rewrite (machine_type_lines_script e _ g st cs g' H), Hexec. split; [done |].
  apply machine_exec_run in Hexec as [Hrun _]. rewrite Hdoc in Hrun.
  rewrite (type_text_leaves_expansion _ text g cs g' _ initial_valid H) in Hrun.
  rewrite Htable, expand_lines_split, run_typed_initial in Hrun. by injection Hrun as <-.
Qed.

Lemma type_text_plain_witness :
  special_sequences Samples.config_mistakes = [] ∧
  ∃ cs g' st',
    type_text Samples.config_mistakes (s "Hi." ++ newline :: s "Bye now") example_rng
    = Ok (cs, g') ∧
    Machine.counts (Samples.setup_of Samples.config_mistakes) cs = true ∧
    Machine.type_text (Samples.setup_of Samples.config_mistakes)
      (s "Hi." ++ newline :: s "Bye now") example_rng Samples.typing_state
    = Ok (st', g') ∧
    Machine.document st' = at_end (split newline (s "Hi." ++ newline :: s "Bye now")).
Proof.
  split; [reflexivity |].
  destruct (type_text_plain (Samples.setup_of Samples.config_mistakes)
              (s "Hi." ++ newline :: s "Bye now") example_rng Samples.typing_state eq_refl)
    as (cs & g' & Hscript & Hrun);
    [vm_compute; discriminate | vm_compute; discriminate | reflexivity | simpl; lia |].
  assert (Machine.counts (Samples.setup_of Samples.config_mistakes) cs = true) as Hc.
  { vm_compute in Hscript. injection Hscript as <- _. vm_compute. reflexivity. }
  destruct (Hrun Hc) as (st' & Htext & Hdoc).
  exists cs, g', st'. split; [exact Hscript |]. split; [exact Hc |].
  split; [exact Htext | exact Hdoc].
Defined.

End Running.
